(** * AdvoAi (Imtiyoz-AI backend): chunker, chat scoring, scout pipeline

    A shallow embedding of

      - [app/rag_engine/chunker.py]   (module [Chunker]),
      - [app/api/routers/chat.py]     (modules [Chat], the relevance score,
                                       and [ChatEndpoint], the endpoint),
      - [app/scout_agent/agent.py]    (modules [Scout], [Scrape] and
                                       [ScoutSearch]),
      - [app/api/routers/scout.py]    (modules [ScoutRouter] and
                                       [StatusStream]),
      - [app/config.py]               (module [Config]),

    together with the properties of the specification that concern them,
    and further properties of the code.

    Conventions.  A Python [str] is a list of Unicode code points
    ([PyStr.str]); Python integers are [Z]; a [dict] with string keys is
    a [gmap string _]; a [set] of strings is a [gset]; a float is the
    rational number it stands for, each operation rounded to the nearest
    float ([PyFloat.fl]).  External
    collaborators (web search, LLM, HTTP fetch, vector store) are
    section variables. *)

From Stdlib Require Import ZArith NArith QArith Qround Qminmax Qpower Lqa Lia.
From Stdlib Require Import Ascii String DecimalString Sorted.
From Stdlib Require DecimalPos DecimalZ.
From stdpp Require Import base list gmap sets strings.

Local Open Scope Z_scope.

(* ===================================================================== *)
(** ** Python strings *)
(* ===================================================================== *)

Module PyStr.

(** A character is a Unicode code point, a string a list of them, so
    that [len] counts what Python's [len] counts. *)
Abbreviation char := N.
Abbreviation str := (list char).

(** ASCII literals, to write inputs readably. *)
Definition py (s : string) : str :=
  List.map N_of_ascii (list_ascii_of_string s).

Definition len {A} (s : list A) : Z := Z.of_nat (length s).

(** [Py_UNICODE_ISSPACE]: the class behind [str.strip], [str.isspace]
    and the regular expression escape [\s] on [str] patterns. *)
Definition isspace (c : char) : bool :=
  ((0x09 <=? c) && (c <=? 0x0D) || (0x1C <=? c) && (c <=? 0x1F)
   || (c =? 0x20) || (c =? 0x85) || (c =? 0xA0) || (c =? 0x1680)
   || (0x2000 <=? c) && (c <=? 0x200A)
   || (c =? 0x2028) || (c =? 0x2029) || (c =? 0x202F)
   || (c =? 0x205F) || (c =? 0x3000))%N.

(** [Py_UNICODE_ISDECIMAL], the class behind [\d]: general category Nd
    (the ranges of Unicode 15).  The proofs below use only that the
    class is [0-9] on ASCII and contains no white space. *)
Definition decimal_ranges : list (N * N) :=
  [ (0x0030, 0x0039); (0x0660, 0x0669); (0x06F0, 0x06F9); (0x07C0, 0x07C9);
    (0x0966, 0x096F); (0x09E6, 0x09EF); (0x0A66, 0x0A6F); (0x0AE6, 0x0AEF);
    (0x0B66, 0x0B6F); (0x0BE6, 0x0BEF); (0x0C66, 0x0C6F); (0x0CE6, 0x0CEF);
    (0x0D66, 0x0D6F); (0x0DE6, 0x0DEF); (0x0E50, 0x0E59); (0x0ED0, 0x0ED9);
    (0x0F20, 0x0F29); (0x1040, 0x1049); (0x1090, 0x1099); (0x17E0, 0x17E9);
    (0x1810, 0x1819); (0x1946, 0x194F); (0x19D0, 0x19D9); (0x1A80, 0x1A89);
    (0x1A90, 0x1A99); (0x1B50, 0x1B59); (0x1BB0, 0x1BB9); (0x1C40, 0x1C49);
    (0x1C50, 0x1C59); (0xA620, 0xA629); (0xA8D0, 0xA8D9); (0xA900, 0xA909);
    (0xA9D0, 0xA9D9); (0xA9F0, 0xA9F9); (0xAA50, 0xAA59); (0xABF0, 0xABF9);
    (0xFF10, 0xFF19); (0x104A0, 0x104A9); (0x10D30, 0x10D39);
    (0x11066, 0x1106F); (0x110F0, 0x110F9); (0x11136, 0x1113F);
    (0x111D0, 0x111D9); (0x112F0, 0x112F9); (0x11450, 0x11459);
    (0x114D0, 0x114D9); (0x11650, 0x11659); (0x116C0, 0x116C9);
    (0x11730, 0x11739); (0x118E0, 0x118E9); (0x11950, 0x11959);
    (0x11C50, 0x11C59); (0x11D50, 0x11D59); (0x11DA0, 0x11DA9);
    (0x11F50, 0x11F59); (0x16A60, 0x16A69); (0x16AC0, 0x16AC9);
    (0x16B50, 0x16B59); (0x1D7CE, 0x1D7FF); (0x1E140, 0x1E149);
    (0x1E2F0, 0x1E2F9); (0x1E4F0, 0x1E4F9); (0x1E950, 0x1E959);
    (0x1FBF0, 0x1FBF9) ]%N.

Definition isdecimal (c : char) : bool :=
  existsb (fun r => (fst r <=? c) && (c <=? snd r))%N decimal_ranges.

(** [s.strip()] *)
Fixpoint lstrip (s : str) : str :=
  match s with
  | c :: r => if isspace c then lstrip r else s
  | [] => []
  end.

Definition strip (s : str) : str := rev (lstrip (rev (lstrip s))).

(** Truth value of a string: [if s:] *)
Definition nonempty (s : str) : bool :=
  match s with [] => false | _ => true end.

(** [s.startswith(p)] *)
Fixpoint startswith (p s : str) : bool :=
  match p, s with
  | [], _ => true
  | a :: p', b :: s' => (a =? b)%N && startswith p' s'
  | _ :: _, [] => false
  end.

(** [sep in s] *)
Fixpoint contains (sep s : str) : bool :=
  startswith sep s ||
  match s with
  | [] => false
  | _ :: r => contains sep r
  end.

(** [s.split(sep)] for a non-empty [sep]: the pieces between the
    non-overlapping occurrences of [sep], scanned from the left.
    [skip] counts the characters of the occurrence still to pass. *)
Fixpoint split_go (sep : str) (skip : nat) (s : str) : list str :=
  match s with
  | [] => [[]]
  | c :: r =>
      match skip with
      | S k => split_go sep k r
      | O =>
          if startswith sep s
          then [] :: split_go sep (length sep - 1) r
          else match split_go sep 0 r with
               | p :: ps => (c :: p) :: ps
               | [] => [[c]]
               end
      end
  end.

Definition split (sep s : str) : list str := split_go sep 0 s.

(** [sep.join(parts)] *)
Fixpoint join (sep : str) (parts : list str) : str :=
  match parts with
  | [] => []
  | [p] => p
  | p :: ps => p ++ sep ++ join sep ps
  end.

(** [s[i:j]] for [0 <= i], [s[:j]] and [s[i:]] *)
Definition slice (s : str) (i j : Z) : str :=
  take (Z.to_nat j - Z.to_nat i) (drop (Z.to_nat i) s).

(** [s[-n:]] for [0 < n]: the last [n] characters, all of [s] when it
    is shorter. *)
Definition last_chars (n : Z) (s : str) : str :=
  drop (length s - Z.to_nat n) s.

(** [s.find(c)] for a one-character [c]: first index, or -1. *)
Fixpoint find (c : char) (s : str) : Z :=
  match s with
  | [] => -1
  | d :: r =>
      if (c =? d)%N then 0
      else let k := find c r in if k <? 0 then -1 else k + 1
  end.

(** [re.sub(r'\s+', ' ', s)]: every maximal run of white space becomes
    one space.  [in_run] tells that the previous character was white
    space, whose run has already been replaced. *)
Fixpoint sub_ws_go (in_run : bool) (s : str) : str :=
  match s with
  | [] => []
  | c :: r =>
      if isspace c
      then (if in_run then sub_ws_go true r else 0x20%N :: sub_ws_go true r)
      else c :: sub_ws_go false r
  end.

Definition sub_ws (s : str) : str := sub_ws_go false s.

(** [re.sub(r'\n{3,}', '\n\n', s)]: a maximal run of three or more
    newlines becomes two; shorter runs stay.  [pending] is the length
    of the run of newlines read and not yet written. *)
Definition flush_newlines (pending : nat) : str :=
  if (3 <=? pending)%nat then [0x0A; 0x0A]%N else repeat 0x0A%N pending.

Fixpoint sub_newlines_go (pending : nat) (s : str) : str :=
  match s with
  | [] => flush_newlines pending
  | c :: r =>
      if (c =? 0x0A)%N then sub_newlines_go (S pending) r
      else flush_newlines pending ++ c :: sub_newlines_go 0 r
  end.

Definition sub_newlines (s : str) : str := sub_newlines_go 0 s.

(** The longest prefix of characters satisfying [p], and the rest. *)
Fixpoint span (p : char -> bool) (s : str) : str * str :=
  match s with
  | c :: r => if p c then let '(a, b) := span p r in (c :: a, b) else ([], s)
  | [] => ([], [])
  end.

End PyStr.

Import PyStr.

(* ===================================================================== *)
(** ** The chunker ([app/rag_engine/chunker.py]) *)
(* ===================================================================== *)

Module Chunker.

(** A Python value that is a string or [None]. *)
Abbreviation pyval := (option str).

(** The values [chunk_type] takes: ["full_article"], ["section"],
    ["sub_section"], and the dataclass default ["text"]. *)
Inductive ChunkType := full_article | section | sub_section | text_default.

Record Chunk := mkChunk {
  text : str;
  index : Z;
  document_id : pyval;
  article : option str;
  chunk_type : ChunkType;
  metadata : gmap string pyval
}.

Definition set_text (c : Chunk) (t : str) : Chunk :=
  mkChunk t (index c) (document_id c) (article c) (chunk_type c) (metadata c).

(** Class constants, and the attributes of [UzbekLegalChunker()], the
    instance [chunk_legal_document] builds: [target_size], [max_size]
    and [overlap] are the defaults 2048, 3200 and 400.  The class stores
    [max_size] and never reads it. *)
Definition TARGET_CHUNK_SIZE : Z := 2048.
Definition MAX_CHUNK_SIZE : Z := 3200.
Definition MIN_CHUNK_SIZE : Z := 200.
Definition OVERLAP_SIZE : Z := 400.

Definition target_size : Z := TARGET_CHUNK_SIZE.
Definition max_size : Z := MAX_CHUNK_SIZE.
Definition overlap : Z := OVERLAP_SIZE.

(** *** [_clean_text] *)
Definition _clean_text (t : str) : str := strip (sub_newlines (sub_ws t)).

(** *** The article pattern of [_split_by_articles]

    [(?:(\d+)\s*[-–—]\s*(?:modda|Modda|MODDA)|(?:Modda|MODDA)\s+(\d+))]

    Each branch is matched greedily from the left; giving back a digit or
    a space never helps, since what follows a run of digits or spaces in
    the pattern cannot match a digit or a space.  A match attempt at
    the head of [s] returns the length matched and the number captured
    ([group(1) or group(2)]). *)
Definition is_dash (c : char) : bool :=
  ((c =? 0x2D) || (c =? 0x2013) || (c =? 0x2014))%N.

Definition word_at (words : list str) (s : str) : option str :=
  List.find (fun w => startswith w s) words.

Definition match_number_dash_word (s : str) : option (nat * str) :=
  let '(digits, r1) := span isdecimal s in
  match digits with
  | [] => None
  | _ =>
      let '(ws1, r2) := span isspace r1 in
      match r2 with
      | c :: r3 =>
          if is_dash c then
            let '(ws2, r4) := span isspace r3 in
            match word_at [py "modda"; py "Modda"; py "MODDA"] r4 with
            | Some w =>
                Some (length digits + length ws1 + 1 + length ws2 + length w,
                      digits)%nat
            | None => None
            end
          else None
      | [] => None
      end
  end.

Definition match_word_number (s : str) : option (nat * str) :=
  match word_at [py "Modda"; py "MODDA"] s with
  | Some w =>
      let '(ws, r2) := span isspace (drop (length w) s) in
      match ws with
      | [] => None
      | _ =>
          let '(digits, _) := span isdecimal r2 in
          match digits with
          | [] => None
          | _ => Some (length w + length ws + length digits, digits)%nat
          end
      end
  | None => None
  end.

(** *** The class attribute [ARTICLE_PATTERNS]

    The first two patterns are the two branches above (with capturing
    groups around the article word).  The third,
    [^(\d+)\.\s+(?=\S)], is compiled without [re.MULTILINE]: it can
    match at the start of the string only. *)
Definition match_numeral_dot (s : str) : option (nat * str) :=
  let '(digits, r1) := span isdecimal s in
  match digits, r1 with
  | _ :: _, c :: r2 =>
      if (c =? 0x2E)%N then
        let '(ws, r3) := span isspace r2 in
        match ws, r3 with
        | _ :: _, d :: _ => Some (length digits + 1 + length ws, digits)%nat
        | _, _ => None
        end
      else None
  | _, _ => None
  end.

(** A pattern: whether it is anchored at the start, and its matcher. *)
Definition ARTICLE_PATTERNS : list (bool * (str -> option (nat * str))) :=
  [ (false, match_number_dash_word);
    (false, match_word_number);
    (true, match_numeral_dot) ].

(** [re.search(pattern, text) is not None] *)
Fixpoint search_from (m : str -> option (nat * str)) (s : str) : bool :=
  match m s with
  | Some _ => true
  | None => match s with [] => false | _ :: r => search_from m r end
  end.

Definition re_search (p : bool * (str -> option (nat * str))) (t : str) : bool :=
  if p.1 then match p.2 t with Some _ => true | None => false end
  else search_from p.2 t.

Definition match_article (s : str) : option (nat * str) :=
  match match_number_dash_word s with
  | Some m => Some m
  | None => match_word_number s
  end.

Record ArticleMatch := mkMatch { m_start : Z; m_end : Z; m_num : str }.

(** [re.finditer(pattern, text)]: leftmost matches, the search resuming
    where the previous match ended.  [pos] is the position of the head
    of [s] in the text, [skip] what is left of the current match. *)
Fixpoint finditer_go (pos : Z) (skip : nat) (s : str) : list ArticleMatch :=
  match s with
  | [] => []
  | _ :: r =>
      match skip with
      | S k => finditer_go (pos + 1) k r
      | O =>
          match match_article s with
          | Some (n, num) =>
              mkMatch pos (pos + Z.of_nat n) num
                :: finditer_go (pos + 1) (n - 1) r
          | None => finditer_go (pos + 1) 0 r
          end
      end
  end.

Definition finditer (t : str) : list ArticleMatch := finditer_go 0 0 t.

(** *** [_split_by_articles] *)
Fixpoint articles_of (t : str) (matches : list ArticleMatch) : list (str * str) :=
  match matches with
  | [] => []
  | m :: rest =>
      let stop := match rest with m' :: _ => m_start m' | [] => len t end in
      let article_text := strip (slice t (m_start m) stop) in
      (if nonempty article_text
       then [(m_num m ++ py "-modda", article_text)] else [])
        ++ articles_of t rest
  end.

Definition _split_by_articles (t : str) : list (str * str) :=
  match finditer t with
  | [] => [(py "general", t)]
  | (m0 :: _) as matches =>
      let articles := articles_of t matches in
      if m_start m0 >? MIN_CHUNK_SIZE then
        let preamble := strip (slice t 0 (m_start m0)) in
        if nonempty preamble then (py "preamble", preamble) :: articles
        else articles
      else articles
  end.

(** *** Greedy packing, shared shape of the two splitters

    The loop state is [(result, current, current_len)]; [weight] is
    what a part adds to [current_len]. *)
Definition pack_step (sep : str) (weight : str -> Z)
    (st : list str * list str * Z) (part : str) : list str * list str * Z :=
  let '(result, current, current_len) := st in
  if current_len + weight part <=? target_size
  then (result, current ++ [part], current_len + weight part)
  else ((match current with
         | [] => result
         | _ => result ++ [join sep current]
         end), [part], weight part).

Definition pack (sep : str) (weight : str -> Z) (parts : list str) : list str :=
  let '(result, current, _) :=
    fold_left (pack_step sep weight) parts ([], [], 0) in
  match current with
  | [] => result
  | _ => result ++ [join sep current]
  end.

(** *** [_split_by_sections] *)
Definition _split_by_sections (t : str) : list str :=
  let paragraphs := split [0x0A; 0x0A]%N t in
  if (1 <? length paragraphs)%nat
  then pack [0x0A; 0x0A]%N len paragraphs
  else [t].

(** *** [_recursive_split] *)
Definition separators : list str :=
  [ [0x0A; 0x0A]%N; [0x0A]%N; py ". "; py ", "; py " " ].

(** [range(0, stop, step)] for a positive [step]. *)
Definition range_step (stop step : Z) : list Z :=
  List.map (fun k => Z.of_nat k * step)
           (seq 0 (Z.to_nat ((stop + step - 1) / step))).

Definition hard_split (t : str) : list str :=
  List.map (fun i => slice t i (i + target_size))
           (range_step (len t) target_size).

Definition part_with_sep (sep part : str) : str :=
  if decide (sep ≠ py " ") then part ++ sep else part ++ py " ".

Fixpoint split_with (seps : list str) (t : str) : list str :=
  match seps with
  | [] => hard_split t
  | sep :: rest =>
      if contains sep t then
        match pack sep (fun part => len (part_with_sep sep part)) (split sep t) with
        | [] => split_with rest t
        | result => result
        end
      else split_with rest t
  end.

Definition _recursive_split (t : str) : list str := split_with separators t.

(** *** [_add_overlap]

    The loop rewrites [chunks[i].text] in place, and reads
    [chunks[i-1].text] from the same list: from the third chunk on, the
    text read is one the loop has already rewritten. *)
Definition overlap_of (prev_text : str) : str :=
  let overlap_text := last_chars overlap prev_text in
  let space_idx := find 0x20%N overlap_text in
  if space_idx >? 0 then drop (Z.to_nat (space_idx + 1)) overlap_text
  else overlap_text.

Definition with_overlap (prev_text cur_text : str) : str :=
  py "..." ++ overlap_of prev_text ++ [0x0A; 0x0A]%N ++ cur_text.

Definition overlap_step (chunks : list Chunk) (i : nat) : list Chunk :=
  match chunks !! (i - 1)%nat, chunks !! i with
  | Some prev, Some cur =>
      if len (text prev) >? overlap
      then <[i := set_text cur (with_overlap (text prev) (text cur))]> chunks
      else chunks
  | _, _ => chunks
  end.

Definition _add_overlap (chunks : list Chunk) : list Chunk :=
  if (length chunks <=? 1)%nat then chunks
  else fold_left overlap_step (seq 1 (length chunks - 1)) chunks.

(** *** [chunk_document] *)
Section Document.
Variable doc_id : pyval.
Variable base_metadata : gmap string pyval.

(** [chunks.append(Chunk(...)); chunk_index += 1] *)
Definition emit (article_num : str) (ty : ChunkType)
    (st : list Chunk * Z) (t : str) : list Chunk * Z :=
  (st.1 ++ [mkChunk t st.2 doc_id (Some article_num) ty
                    (<["article" := Some article_num]> base_metadata)],
   st.2 + 1).

Definition process_section (article_num : str)
    (st : list Chunk * Z) (section_text : str) : list Chunk * Z :=
  if len section_text <=? target_size
  then emit article_num section st section_text
  else fold_left (emit article_num sub_section)
                 (_recursive_split section_text) st.

Definition process_article (st : list Chunk * Z) (a : str * str)
    : list Chunk * Z :=
  let '(article_num, article_text) := a in
  if len article_text <=? target_size
  then emit article_num full_article st article_text
  else fold_left (process_section article_num)
                 (_split_by_sections article_text) st.

(** The chunks as the main loop leaves them, before the overlap pass. *)
Definition build_chunks (articles : list (str * str)) : list Chunk :=
  (fold_left process_article articles ([], 0)).1.
End Document.

Definition base_metadata_of (doc_id title : pyval)
    (md : option (gmap string pyval)) : gmap string pyval :=
  <["title" := title]> (<["document_id" := doc_id]> (default ∅ md)).

(** The chunks of a non-blank document before the overlap pass. *)
Definition pre_overlap (t : str) (doc_id title : pyval)
    (md : option (gmap string pyval)) : list Chunk :=
  build_chunks doc_id (base_metadata_of doc_id title md)
               (_split_by_articles (_clean_text t)).

Definition blank (t : str) : bool :=
  negb (nonempty t) || negb (nonempty (strip t)).

Definition chunk_document (t : str) (doc_id title : pyval)
    (md : option (gmap string pyval)) : list Chunk :=
  if blank t then []
  else _add_overlap (pre_overlap t doc_id title md).

(** [chunk_legal_document]: the default chunker's [chunk_document]. *)
Definition chunk_legal_document := chunk_document.

End Chunker.

Import Chunker.

(* ===================================================================== *)
(** ** Definitions used to state and prove the properties *)
(* ===================================================================== *)

(** The white-space code points, listed. *)
Definition spaces : list char :=
  [0x09; 0x0A; 0x0B; 0x0C; 0x0D; 0x1C; 0x1D; 0x1E; 0x1F; 0x20; 0x85; 0xA0;
   0x1680; 0x2000; 0x2001; 0x2002; 0x2003; 0x2004; 0x2005; 0x2006; 0x2007;
   0x2008; 0x2009; 0x200A; 0x2028; 0x2029; 0x202F; 0x205F; 0x3000]%N.

(** A string with a character that is not white space. *)
Definition has_nonspace (s : str) : bool := existsb (fun c => negb (isspace c)) s.

(** *** The main loop, as a list of segments

    [segments] lists what the loop of [chunk_document] appends for one
    article: the chunk type and the text of each chunk, in order. *)
Definition section_segments (section_text : str) : list (ChunkType * str) :=
  if len section_text <=? target_size then [(section, section_text)]
  else List.map (fun sub => (sub_section, sub)) (_recursive_split section_text).

Definition segments (article_text : str) : list (ChunkType * str) :=
  if len article_text <=? target_size then [(full_article, article_text)]
  else flat_map section_segments (_split_by_sections article_text).

Definition labelled (a : str * str) : list (str * ChunkType * str) :=
  List.map (fun s => (a.1, s.1, s.2)) (segments a.2).

Fixpoint number (doc_id : pyval) (md : gmap string pyval) (n : Z)
    (segs : list (str * ChunkType * str)) : list Chunk :=
  match segs with
  | [] => []
  | (a, ty, t) :: r =>
      mkChunk t n doc_id (Some a) ty (<["article" := Some a]> md)
        :: number doc_id md (n + 1) r
  end.

(** *** The overlap pass, chunk by chunk

    [overlap_chain prev_text cs] is what the in-place loop leaves of the
    chunks [cs] that follow a chunk whose text, when the loop reads it,
    is [prev_text]. *)
Definition prefixed (prev_text : str) (c : Chunk) : Chunk :=
  if len prev_text >? overlap
  then set_text c (with_overlap prev_text (text c)) else c.

Fixpoint overlap_chain (prev_text : str) (cs : list Chunk) : list Chunk :=
  match cs with
  | [] => []
  | c :: r => prefixed prev_text c :: overlap_chain (text (prefixed prev_text c)) r
  end.

(** *** Documents used as inputs below *)

(** A sentence of 3608 characters, then a short one:
    ["soliq " * 600 + "imtiyozi. Tamom"]. *)
Definition long_sentence_doc : str :=
  concat (repeat (py "soliq ") 600) ++ py "imtiyozi. Tamom".

(** A first article of 508 characters, then a short one. *)
Definition two_article_doc : str :=
  py "1-modda " ++ concat (repeat (py "soliq imtiyozi ") 33) ++ py "tamom 2-modda b".

(** An article of two paragraphs of 1500 characters, a blank line between
    them: ["a" * 1500 + "\n\n" + "b" * 1500]. *)
Definition two_paragraph_doc : str :=
  repeat 0x61%N 1500 ++ [0x0A; 0x0A]%N ++ repeat 0x62%N 1500.

(** A single article of 5003 characters, no paragraph break. *)
Definition long_article_doc : str :=
  py "1-modda " ++ concat (repeat (py "soliq imtiyozi ") 333).

(** Three articles of 508, 67 and 14 characters. *)
Definition three_article_doc : str :=
  py "1-modda " ++ concat (repeat (py "soliq imtiyozi ") 33)
    ++ py "tamom 2-modda " ++ concat (repeat (py "grant ") 10)
    ++ py "3-modda kredit".

(** *** The articles, marker by marker

    One article for each marker, in the order of the markers: its label
    from the number of the marker, its text from the marker up to the
    next marker, or to the end of the text after the last one,
    stripped. *)
Fixpoint marked_articles (t : str) (matches : list ArticleMatch) : list (str * str) :=
  match matches with
  | [] => []
  | m :: rest =>
      let stop := match rest with m' :: _ => m_start m' | [] => len t end in
      (m_num m ++ py "-modda", strip (slice t (m_start m) stop))
        :: marked_articles t rest
  end.

(* ===================================================================== *)
(** ** Python floats *)
(* ===================================================================== *)

Module PyFloat.

(** A finite Python float is the rational number it stands for (IEEE 754
    binary64: an integer of at most 53 bits times a power of two, the
    power at least [2^-1074]).  Each operation on floats gives the exact
    result rounded to the nearest float, ties to the even significand;
    [fl] is that rounding.  It is also how a decimal literal and an
    integer become a float.  Overflow to infinity is left out: the
    values of this program stay far below [2^1024]. *)

(** The nearest integer, ties to the even one. *)
Definition round_half_even (x : Q) : Z :=
  let f := Qfloor x in
  match (x - inject_Z f ?= 1 # 2)%Q with
  | Lt => f
  | Gt => f + 1
  | Eq => if Z.even f then f else f + 1
  end.

Definition pow2 (e : Z) : Q := (2 ^ e)%Q.

(** The exponent [e] with [2^e <= x < 2^(e+1)], for [x > 0]. *)
Definition ilog2 (x : Q) : Z :=
  let e0 := Z.log2 (Qnum x) - Z.log2 (Zpos (Qden x)) in
  if Qle_bool (pow2 e0) x then e0 else e0 - 1.

(** The exponent of the last bit of the floats around [x > 0]:
    subnormal below [2^-1022]. *)
Definition ulp_exp (x : Q) : Z := Z.max (ilog2 x) (-1022) - 52.

Definition fl_pos (x : Q) : Q :=
  (inject_Z (round_half_even (x / pow2 (ulp_exp x))) * pow2 (ulp_exp x))%Q.

(** The float nearest to [x]. *)
Definition fl (x : Q) : Q :=
  match (0 ?= x)%Q with
  | Lt => fl_pos x
  | Gt => (- fl_pos (- x))%Q
  | Eq => 0%Q
  end.

(** [int(x)] of a float: towards zero. *)
Definition truncate (x : Q) : Z :=
  match (0 ?= x)%Q with
  | Gt => - Qfloor (- x)
  | _ => Qfloor x
  end.

End PyFloat.

(* ===================================================================== *)
(** ** The relevance score of the chat endpoint ([app/api/routers/chat.py]) *)
(* ===================================================================== *)

Module Chat.
Import PyFloat.

(** [max(0, x)]: Python keeps the first argument unless a later one is
    greater. *)
Definition py_max0 (x : Q) : Q :=
  match (0 ?= x)%Q with Lt => x | _ => 0%Q end.

(** The exact value of [x] rounded to 3 decimals, half to even. *)
Definition round3 (x : Q) : Q :=
  (inject_Z (round_half_even (x * 1000)) / 1000)%Q.

(** [round(x, 3)] of a float (or of the integer 0): CPython rounds the
    exact value of [x] to 3 decimals, half to even, and returns the
    float nearest to that decimal. *)
Definition py_round3 (x : Q) : Q := fl (round3 x).

(** [relevance_score = max(0, 1 - distance)], then
    [round(relevance_score, 3)] in the [DocumentSource].  The distance
    is a float: [fl distance] is [distance] itself when it is one, and
    the float a decimal such as 0.0015 denotes otherwise.  The
    subtraction is the float one. *)
Definition relevance_score (distance : Q) : Q :=
  py_round3 (py_max0 (fl (1 - fl distance))).

End Chat.

(** [clamp(x, lo, hi)], in which the specification writes the score; the
    code has no such function. *)
Definition clamp (x lo hi : Q) : Q := Qmax lo (Qmin x hi).

(* ===================================================================== *)
(** ** Status events ([ScoutStatusEvent] and the dictionaries queued) *)
(* ===================================================================== *)

Module Events.

Inductive EventType := ev_search | ev_judge | ev_ingest | ev_complete | ev_error.

(** The messages, by the format string that builds them; the arguments
    are the values interpolated. *)
Inductive Message :=
| MsgSearchStarted
| MsgSearchKeyword (keyword : str) (found : nat)
| MsgUnique (found : nat)
| MsgRelevant (title45 : str)
| MsgNotRelevant (title45 : str)
| MsgJudgeError
| MsgStored (title40 : str) (n_chunks : nat)
| MsgIngestError
| MsgComplete (ingested : Z)
| MsgScoutError
| MsgDemo (step : nat)
| MsgDemoJudge (decree_id : str) (relevant : bool).

(** The timestamp of an event is not modelled. *)
Record Event := mkEvent {
  event_type : EventType;
  message : Message;
  ev_document_id : pyval;
  ev_progress : Z
}.

End Events.

Import Events.

(* ===================================================================== *)
(** ** The scout agent ([app/scout_agent/agent.py]) *)
(* ===================================================================== *)

Module Scout.

(** A candidate document: a dictionary with the keys ["url"],
    ["title"], ["snippet"] and ["decree_id"]. *)
Abbreviation doc := (gmap string pyval).

(** [d.get(k, dflt)] *)
Definition get (d : doc) (k : string) (dflt : pyval) : pyval :=
  default dflt (d !! k).

(** Truth value of a string or [None]. *)
Definition truthy (v : pyval) : bool :=
  match v with Some (_ :: _) => true | _ => false end.

(** [v[:n]]; [None] when [v] is [None], where Python raises. *)
Definition prefix_of (v : pyval) (n : Z) : option str :=
  match v with Some s => Some (slice s 0 n) | None => None end.

(** [f"{v}"] *)
Definition fmt (v : pyval) : str :=
  match v with Some s => s | None => py "None" end.

Definition str_of_int (z : Z) : str := py (NilZero.string_of_int (Z.to_int z)).

(** [enumerate(l)] *)
Definition enumerate_from {A} (k : nat) (l : list A) : list (nat * A) :=
  zip (seq k (length l)) l.
Definition enumerate {A} (l : list A) : list (nat * A) := enumerate_from 0 l.

Definition DEFAULT_KEYWORDS : list str :=
  [ py "subsidiya"; py "grant"; py "soliq imtiyozi"; py "kredit";
    py "tadbirkorlik"; py "kichik biznes"; py "yoshlar tadbirkorligi";
    py "soliq ta'tili"; py "davlat yordami"; py "imtiyozli kredit" ].

(** *** [_deduplicate] *)
Definition dedup_step (st : gset str * list doc) (d : doc) : gset str * list doc :=
  let url := get d "url" (Some []) in
  match url with
  | Some (c :: u) =>
      if decide ((c :: u) ∈ st.1) then st
      else ({[ c :: u ]} ∪ st.1, st.2 ++ [d])
  | _ => st
  end.

Definition _deduplicate (candidates : list doc) : list doc :=
  (fold_left dedup_step candidates (∅, [])).2.

(** Which collaborator was called, and for which candidate: a record
    kept beside the state to state what the cycle does and does not
    do; the code has no such log. *)
Inductive Call :=
| CallIndexed (d : doc)
| CallJudge (d : doc)
| CallScrape (d : doc)
| CallAdd (d : doc).

Record Tally := mkTally { ingested : Z; checked : Z }.

Section Agent.

(** The vector store: its state, [collection.get(where={"source_url":
    url}, limit=1)["ids"]] and [collection.add(documents, metadatas,
    ids)]; [None] when the call raises. *)
Variable Coll : Type.
Variable coll_get : Coll -> str -> option (list str).
Variable coll_add :
  Coll -> list str -> list (gmap string pyval) -> list str -> option Coll.

(** [_search_lex_uz(keyword, date_filter)] at the [i]-th keyword: the
    documents built from the search results.  The method catches
    every exception and returns [[]]. *)
Variable search_lex_uz : nat -> str -> str -> list doc.

(** The answer of the language model about the [i]-th candidate's
    title: whether it contains ["YES"]; [None] when the call fails. *)
Variable llm_says_yes : nat -> str -> option bool.

(** The text extracted from the page of the [i]-th relevant document,
    before truncation; [None] when the request or the parsing fails. *)
Variable fetch : nat -> str -> option str.

(** [datetime.now().isoformat()] at the [i]-th relevant document. *)
Variable now : nat -> str.

(** [base + int(span * (i / n))], computed in floating point. *)
Variable interp : Z -> Z -> nat -> nat -> Z.

(** The agent's world: the status queue, [self.collection] ([None]
    when the store was not initialised), the local variable
    [progress] of [run_cycle], and the record of calls. *)
Record State := mkState {
  queue : list Event;
  collection : option Coll;
  progress : Z;
  calls : list Call
}.

(** [_push_status(event_type, message, document_id, progress)] *)
Definition _push_status (w : State) (ty : EventType) (msg : Message)
    (document_id : pyval) (p : Z) : State :=
  mkState (queue w ++ [mkEvent ty msg document_id p])
          (collection w) (progress w) (calls w).

Definition set_progress (w : State) (p : Z) : State :=
  mkState (queue w) (collection w) p (calls w).

Definition set_collection (w : State) (c : Coll) : State :=
  mkState (queue w) (Some c) (progress w) (calls w).

Definition log (w : State) (c : Call) : State :=
  mkState (queue w) (collection w) (progress w) (calls w ++ [c]).

(** *** [_is_already_indexed] *)
Definition _is_already_indexed (w : State) (url : pyval) : bool :=
  match collection w, url with
  | Some c, Some (a :: u) =>
      match coll_get c (a :: u) with
      | Some ids => bool_decide (0 < length ids)%nat
      | None => false
      end
  | _, _ => false
  end.

(** *** [_judge_relevance]: an empty title is not relevant; a failure
    of the model counts as relevant. *)
Definition _judge_relevance (i : nat) (title : pyval) : bool :=
  match title with
  | Some (a :: t) =>
      match llm_says_yes i (a :: t) with
      | Some yes => yes
      | None => true
      end
  | _ => false
  end.

(** *** [_scrape_document] *)
Definition _scrape_document (i : nat) (url : pyval) : pyval :=
  match url with
  | Some (a :: u) =>
      match fetch i (a :: u) with
      | Some content => Some (slice content 0 50000)
      | None => None
      end
  | _ => None
  end.

(** *** [run_cycle], step A: one keyword.  The [except] branch of the
    loop is not reachable, [_search_lex_uz] raising nothing. *)
Definition search_step (date_filter : str) (n_keywords : nat)
    (st : State * list doc) (ik : nat * str) : State * list doc :=
  let '(i, keyword) := ik in
  let results := search_lex_uz i keyword date_filter in
  let p := interp 5 15 i n_keywords in
  (_push_status (set_progress st.1 p) ev_search
                (MsgSearchKeyword keyword (length results)) None p,
   st.2 ++ results).

(** Step B: one candidate.  The message of a candidate that is not
    relevant slices the title, which raises on [None]; the [except]
    branch then reports an error. *)
Definition judge_step (n_candidates : nat)
    (st : State * list doc) (id : nat * doc) : State * list doc :=
  let '(i, d) := id in
  let w := log st.1 (CallIndexed d) in
  if _is_already_indexed w (get d "url" (Some [])) then (w, st.2)
  else
    let w := log w (CallJudge d) in
    let title := get d "title" (Some []) in
    let is_relevant := _judge_relevance i title in
    let p := interp 20 50 i (Nat.max n_candidates 1) in
    let w := set_progress w p in
    let relevant_docs := if is_relevant then st.2 ++ [d] else st.2 in
    match prefix_of title 45 with
    | Some t45 =>
        if is_relevant
        then (_push_status w ev_judge (MsgRelevant t45)
                           (get d "decree_id" None) p, relevant_docs)
        else (_push_status w ev_judge (MsgNotRelevant t45) None p,
              relevant_docs)
    | None => (_push_status w ev_error MsgJudgeError None p, relevant_docs)
    end.

(** The chunks of a scraped document, and what is sent to the store. *)
Definition chunks_of (i : nat) (d : doc) (content : str) : list Chunk :=
  chunk_legal_document content
    (get d "decree_id" (Some (py "unknown")))
    (get d "title" (Some []))
    (Some (<["date_scraped" := Some (now i)]>
             (<["source_url" := get d "url" None]> ∅))).

Definition chunk_id (d : doc) (c : Chunk) : str :=
  fmt (get d "decree_id" (Some (py "doc"))) ++ py "_" ++ str_of_int (index c).

(** [if chunks and self.collection: self.collection.add(...)];
    [None] when [add] raises. *)
Definition store_chunks (w : State) (d : doc) (chunks : list Chunk)
    : option State :=
  match chunks, collection w with
  | _ :: _, Some c =>
      match coll_add c (List.map text chunks) (List.map metadata chunks)
                     (List.map (chunk_id d) chunks) with
      | Some c' => Some (set_collection (log w (CallAdd d)) c')
      | None => None
      end
  | _, _ => Some w
  end.

(** Step C: one relevant document. *)
Definition ingest_step (n_relevant : nat)
    (st : State * Z) (id : nat * doc) : State * Z :=
  let '(i, d) := id in
  let w := log st.1 (CallScrape d) in
  match _scrape_document i (get d "url" (Some [])) with
  | Some (a :: content) =>
      let chunks := chunks_of i d (a :: content) in
      match store_chunks w d chunks with
      | Some w =>
          let ingested_count := st.2 + 1 in
          let p := interp 70 25 i (Nat.max n_relevant 1) in
          let w := set_progress w p in
          match prefix_of (get d "title" (Some [])) 40 with
          | Some t40 =>
              (_push_status w ev_ingest (MsgStored t40 (length chunks))
                            (get d "decree_id" None) p, ingested_count)
          | None =>
              (_push_status w ev_error MsgIngestError None p, ingested_count)
          end
      | None =>
          (_push_status (log w (CallAdd d)) ev_error MsgIngestError None
                        (progress w), st.2)
      end
  | _ => (w, st.2)
  end.

(** *** [run_cycle] *)
Definition search_keywords_of (keywords : option (list str)) : list str :=
  match keywords with
  | Some (k :: ks) => k :: ks
  | _ => DEFAULT_KEYWORDS
  end.

Definition search_stage (w : State) (keywords : option (list str))
    (date_filter : str) : State * list doc :=
  let search_keywords := search_keywords_of keywords in
  let w := _push_status w ev_search MsgSearchStarted None 5 in
  fold_left (search_step date_filter (length search_keywords))
            (enumerate search_keywords) (w, []).

Definition judge_stage (w : State) (candidates : list doc) : State * list doc :=
  fold_left (judge_step (length candidates)) (enumerate candidates) (w, []).

Definition ingest_stage (w : State) (relevant_docs : list doc) : State * Z :=
  fold_left (ingest_step (length relevant_docs)) (enumerate relevant_docs) (w, 0).

Definition run_cycle (w : State) (keywords : option (list str))
    (date_filter : str) : State * Tally :=
  let '(w, found) := search_stage w keywords date_filter in
  let candidates := _deduplicate found in
  let w := _push_status w ev_search (MsgUnique (length candidates)) None 20 in
  let '(w, relevant_docs) := judge_stage w candidates in
  let '(w, ingested_count) := ingest_stage w relevant_docs in
  (w, mkTally ingested_count (len candidates)).

End Agent.

Arguments mkState {Coll}.
Arguments queue {Coll}.
Arguments collection {Coll}.
Arguments progress {Coll}.
Arguments calls {Coll}.
Arguments _push_status {Coll}.
Arguments set_progress {Coll}.
Arguments set_collection {Coll}.
Arguments log {Coll}.
Arguments _is_already_indexed {Coll}.
Arguments search_step {Coll}.
Arguments judge_step {Coll}.
Arguments store_chunks {Coll}.
Arguments ingest_step {Coll}.
Arguments search_stage {Coll}.
Arguments judge_stage {Coll}.
Arguments ingest_stage {Coll}.
Arguments run_cycle {Coll}.

End Scout.

(** *** Definitions used to state the properties of the scout *)

Import Scout.

Definition url_of (d : doc) : pyval := get d "url" (Some []).
Definition title_of (d : doc) : pyval := get d "title" (Some []).

(** The candidates whose URL is non-empty and was not seen before, in
    order: what [_deduplicate] keeps, by recursion on the list. *)
Fixpoint first_occurrences (seen : gset str) (l : list doc) : list doc :=
  match l with
  | [] => []
  | d :: r =>
      match url_of d with
      | Some (c :: u) =>
          if decide ((c :: u) ∈ seen) then first_occurrences seen r
          else d :: first_occurrences ({[ c :: u ]} ∪ seen) r
      | _ => first_occurrences seen r
      end
  end.

(** The candidate a recorded call is about. *)
Definition call_doc (c : Call) : doc :=
  match c with
  | CallIndexed d | CallJudge d | CallScrape d | CallAdd d => d
  end.

Definition is_ingest_call (c : Call) : bool :=
  match c with CallScrape _ | CallAdd _ => true | _ => false end.

(** All the search results of a cycle, keyword after keyword. *)
Definition found_by (search_lex_uz : nat -> str -> str -> list doc)
    (keywords : option (list str)) (date_filter : str) : list doc :=
  flat_map (fun ik => search_lex_uz ik.1 ik.2 date_filter)
           (enumerate (search_keywords_of keywords)).

(** The calls of the JUDGE stage on a list of candidates: an existence
    check for each, followed by a judgment unless the check found it. *)
Definition judge_log {Coll} (coll_get : Coll -> str -> option (list str))
    (w : State Coll) (candidates : list doc) : list Call :=
  flat_map (fun d => CallIndexed d ::
                     if _is_already_indexed coll_get w (url_of d) then []
                     else [CallJudge d])
           candidates.

(** The candidates the JUDGE stage keeps, the first of them being the
    [k]-th of the loop. *)
Definition judged_relevant {Coll} (coll_get : Coll -> str -> option (list str))
    (llm_says_yes : nat -> str -> option bool)
    (w : State Coll) (k : nat) (candidates : list doc) : list doc :=
  List.map snd
    (List.filter (fun id => negb (_is_already_indexed coll_get w (url_of id.2))
                            && _judge_relevance llm_says_yes id.1 (title_of id.2))
                 (enumerate_from k candidates)).

(** The documents whose page gave some text, the first being the [k]-th. *)
Definition scraped (fetch : nat -> str -> option str) (k : nat)
    (relevant_docs : list doc) : list (nat * doc) :=
  List.filter (fun id => truthy (_scrape_document fetch id.1 (url_of id.2)))
              (enumerate_from k relevant_docs).

(** *** Collaborators of the examples

    A store that counts the chunks it was given and holds no document
    yet; a search that returns the same URL twice; a model that says yes;
    a page with a short text. *)
Definition demo_get (c : nat) (u : str) : option (list str) := Some [].

Definition demo_add (c : nat) (documents : list str)
    (metadatas : list (gmap string pyval)) (ids : list str) : option nat :=
  Some (c + length documents)%nat.

Definition demo_doc (url title : string) : doc :=
  <["url" := Some (py url)]>
    (<["title" := Some (py title)]>
       (<["snippet" := Some []]> (<["decree_id" := None]> ∅))).

Definition demo_search (i : nat) (keyword date_filter : str) : list doc :=
  [ demo_doc "https://lex.uz/docs/1" "Subsidiya to'g'risida";
    demo_doc "https://lex.uz/docs/1" "Subsidiya (nusxa)" ].

Definition demo_llm (i : nat) (title : str) : option bool := Some true.
Definition demo_fetch (i : nat) (u : str) : option str :=
  Some (py "1-modda. Subsidiya beriladi.").
Definition demo_now (i : nat) : str := py "2025-01-01T00:00:00".
Definition demo_interp (base span : Z) (i n : nat) : Z := base.

Definition demo_state : State nat := mkState [] (Some 0%nat) 0 [].
Definition demo_state_no_store : State nat := mkState [] None 0 [].

(** The set of the non-empty URLs of a list of candidates. *)
Definition nonempty_url (d : doc) : option str :=
  match url_of d with
  | Some (c :: u) => Some (c :: u)
  | _ => None
  end.

Definition distinct_urls (l : list doc) : gset str :=
  list_to_set (omap nonempty_url l).

(** A search whose first result has an empty URL, its second none at
    all. *)
Definition search_without_url (i : nat) (keyword date_filter : str) : list doc :=
  [ demo_doc "" "Subsidiya to'g'risida";
    delete "url" (demo_doc "" "Grant to'g'risida");
    demo_doc "https://lex.uz/docs/2" "Kredit to'g'risida" ].

(* ===================================================================== *)
(** ** The page of a document ([ScoutAgent._scrape_document]) *)
(* ===================================================================== *)

Module Scrape.

(** What the request and the parser give of a page: the strings of the
    text nodes of the first element that one of the content selectors
    finds, [None] when none of them finds an element, and the strings
    of the text nodes of the whole document. *)
Record Page := mkPage {
  element : option (list str);
  document : list str
}.

(** [get_text(separator="\n", strip=True)]: the text nodes stripped,
    the empty ones left out, joined by newlines. *)
Definition get_text (strings : list str) : str :=
  join [0x0A]%N (List.filter nonempty (List.map strip strings)).

(** [re.sub(r' {2,}', ' ', s)]: every run of spaces becomes one space.
    [in_run] tells that the previous character was a space. *)
Fixpoint sub_spaces_go (in_run : bool) (s : str) : str :=
  match s with
  | [] => []
  | c :: r =>
      if (c =? 0x20)%N
      then (if in_run then sub_spaces_go true r
            else 0x20%N :: sub_spaces_go true r)
      else c :: sub_spaces_go false r
  end.

Definition sub_spaces (s : str) : str := sub_spaces_go false s.

(** The text [_scrape_document] extracts from a page, before it cuts
    it at 50000 characters: the text of the element selected, or that
    of the whole document when no element was found or its text is
    empty; then the two substitutions. *)
Definition page_text (p : Page) : str :=
  let content :=
    match element p with
    | Some strings => get_text strings
    | None => []
    end in
  let content := if nonempty content then content else get_text (document p) in
  sub_spaces (sub_newlines content).

(** The collaborator [fetch] of the agent, from the pages that the
    requests return: [http i url] is the page of the [i]-th relevant
    document, [None] when the request or the parser raises. *)
Definition fetch_page (http : nat -> str -> option Page)
    (i : nat) (url : str) : option str :=
  option_map page_text (http i url).

End Scrape.

(** *** What becomes of a relevant document in the INGEST stage

    As the specification tells it: a document whose scraped content is
    empty is skipped; the others are counted, unless their processing
    raises, which is what the store does when it refuses the chunks.
    The store is asked only when there is one and the document has
    chunks. *)
Inductive Ingestion := Skipped | Counted | Refused.

Definition ingestion_of {Coll : Type}
    (coll_add : Coll -> list str -> list (gmap string pyval) -> list str
                -> option Coll)
    (fetch : nat -> str -> option str) (now : nat -> str)
    (c : option Coll) (i : nat) (d : doc) : Ingestion * option Coll :=
  match _scrape_document fetch i (url_of d) with
  | Some (a :: content) =>
      let chunks := chunks_of now i d (a :: content) in
      match chunks, c with
      | _ :: _, Some coll =>
          match coll_add coll (List.map text chunks) (List.map metadata chunks)
                         (List.map (chunk_id d) chunks) with
          | Some coll' => (Counted, Some coll')
          | None => (Refused, c)
          end
      | _, _ => (Counted, c)
      end
  | _ => (Skipped, c)
  end.

(** The relevant documents in order, the first being the [i]-th, the
    store passing from one to the next. *)
Fixpoint ingestions {Coll : Type}
    (coll_add : Coll -> list str -> list (gmap string pyval) -> list str
                -> option Coll)
    (fetch : nat -> str -> option str) (now : nat -> str)
    (c : option Coll) (i : nat) (docs : list doc) : list Ingestion :=
  match docs with
  | [] => []
  | d :: rest =>
      let r := ingestion_of coll_add fetch now c i d in
      r.1 :: ingestions coll_add fetch now r.2 (S i) rest
  end.

Definition is_counted (o : Ingestion) : bool :=
  match o with Counted => true | _ => false end.

Definition is_refused (o : Ingestion) : bool :=
  match o with Refused => true | _ => false end.

(** The event the stage queues for a document: none when it is
    skipped. *)
Definition ingestion_event (o : Ingestion) : option EventType :=
  match o with
  | Skipped => None
  | Counted => Some ev_ingest
  | Refused => Some ev_error
  end.

(** Pages of the examples: one whose selected element holds an article
    between blank text nodes, one with no text at all. *)
Definition demo_page (i : nat) (u : str) : option Scrape.Page :=
  Some (Scrape.mkPage
          (Some [py "  "; py " 1-modda.  Subsidiya   beriladi. "; [0x0A]%N])
          [py "Lex.uz"; py " 1-modda.  Subsidiya   beriladi. "]).

Definition empty_page (i : nat) (u : str) : option Scrape.Page :=
  Some (Scrape.mkPage (Some [py "  "; [0x0A]%N]) [py " "]).

(** *** The progress formulas of [run_cycle]

    [base + int(span * (i / n))]: the quotient of the two integers is
    the float nearest to it, the product with the integer [span] is a
    float product, and [int] cuts the fraction.  The code evaluates it
    inside the loops only, where [i < n]. *)
Definition progress_of (base span : Z) (i n : nat) : Z :=
  base + PyFloat.truncate
           (PyFloat.fl (inject_Z span
                        * PyFloat.fl (inject_Z (Z.of_nat i) / inject_Z (Z.of_nat n))))%Q.

(* ===================================================================== *)
(** ** The scout router ([app/api/routers/scout.py]) *)
(* ===================================================================== *)

Module ScoutRouter.

Record ScoutTriggerRequest := mkRequest {
  keywords : option (list str);
  date_filter : option str;
  force_refresh : bool
}.

Inductive Status := started | already_running.

(** The response; its [message] is fixed by the [status]. *)
Record ScoutTriggerResponse := mkResponse {
  status : Status;
  job_id : str;
  estimated_duration_seconds : Z
}.

(** [background_tasks.add_task(run_scout_cycle, job_id=..., keywords=...,
    date_filter=..., settings=settings)]: a run waiting to start. *)
Record Task := mkTask {
  task_job_id : str;
  task_keywords : option (list str);
  task_date_filter : str
}.

(** The module's [_running_jobs] and the background tasks added so far. *)
Record Server := mkServer {
  _running_jobs : gmap str bool;
  background_tasks : list Task
}.

(** [any(_running_jobs.values())] *)
Definition any_running (jobs : gmap str bool) : bool :=
  bool_decide (map_Exists (fun _ v => v = true) jobs).

(** [trigger_scout]; [uuid4] is the identifier [uuid.uuid4()] draws and
    [scout_date_filter] the setting of that name. *)
Definition trigger_scout (uuid4 scout_date_filter : str)
    (request : ScoutTriggerRequest) (s : Server)
    : ScoutTriggerResponse * Server :=
  let running := any_running (_running_jobs s) in
  if running && negb (force_refresh request) then
    (mkResponse already_running [] 30, s)
  else
    let job_id := uuid4 in
    let task :=
      mkTask job_id (keywords request)
             (match date_filter request with
              | Some (c :: f) => c :: f
              | _ => scout_date_filter
              end) in
    (mkResponse started job_id 60,
     mkServer (<[job_id := true]> (_running_jobs s)) (background_tasks s ++ [task])).

(** What the [try] block of [run_scout_cycle] can raise: [ImportError],
    another [Exception], or something that is not an [Exception] (a
    cancellation), which no handler catches. *)
Inductive Raised := ImportError | OtherException | NotAnException.

Definition default_keywords : list str :=
  [ py "subsidiya"; py "grant"; py "soliq imtiyozi"; py "kredit";
    py "tadbirkorlik"; py "kichik biznes"; py "yoshlar tadbirkorligi";
    py "soliq ta'tili"; py "davlat yordami" ].

(** [_demo_scout_events]; [relevant i] is [random.random() > 0.3] at the
    [i]-th decree. *)
Definition _demo_scout_events (relevant : nat -> bool) (q : list Event)
    : list Event :=
  q ++ [ mkEvent ev_search (MsgDemo 0) None 10;
         mkEvent ev_search (MsgDemo 1) None 25;
         mkEvent ev_judge (MsgDemoJudge (py "PQ-60") (relevant 0%nat))
                 (Some (py "PQ-60")) 30;
         mkEvent ev_judge (MsgDemoJudge (py "PD-50") (relevant 1%nat))
                 (Some (py "PD-50")) 50;
         mkEvent ev_judge (MsgDemoJudge (py "PQ-306") (relevant 2%nat))
                 (Some (py "PQ-306")) 70;
         mkEvent ev_ingest (MsgDemo 2) None 90;
         mkEvent ev_complete (MsgDemo 3) None 100 ].

Section Run.

(** The [try] block up to the result of [scout.run_cycle]: the import of
    the agent, its construction and its cycle, on the status queue; it
    returns the tally or raises. *)
Variable attempt :
  list str -> str -> list Event -> list Event * (Scout.Tally + Raised).
Variable relevant : nat -> bool.

(** [run_scout_cycle]: the handlers, and the [finally] clause that pops
    the job.  The result carries the exception that propagates, if any. *)
Definition run_scout_cycle (job_id : str) (keywords : option (list str))
    (date_filter : str) (st : Server * list Event)
    : Server * list Event * option Raised :=
  let search_keywords :=
    match keywords with
    | Some (k :: ks) => k :: ks
    | _ => default_keywords
    end in
  let '(q, outcome) := attempt search_keywords date_filter st.2 in
  let '(q, propagated) :=
    match outcome with
    | inl result =>
        (q ++ [mkEvent ev_complete (MsgComplete (Scout.ingested result)) None 100],
         None)
    | inr ImportError => (_demo_scout_events relevant q, None)
    | inr OtherException =>
        (q ++ [mkEvent ev_error MsgScoutError None 0], None)
    | inr NotAnException => (q, Some NotAnException)
    end in
  (mkServer (delete job_id (_running_jobs st.1)) (background_tasks st.1),
   q, propagated).

End Run.

End ScoutRouter.

(* ===================================================================== *)
(** ** The status stream ([scout_status] of [app/api/routers/scout.py]) *)
(* ===================================================================== *)

Module StatusStream.

(** What the generator yields: a status update carrying an event, or a
    heartbeat. *)
Inductive SSE :=
| status_update (e : Event)
| heartbeat.

(** How the generator stands after the waits observed: it has left its
    loop, it has raised, or it is waiting for the queue. *)
Inductive StreamState := Closed | Failed | Waiting.

(** [event.get("event_type") in ("complete", "error")] *)
Definition terminal (e : Event) : bool :=
  match event_type e with
  | ev_complete | ev_error => true
  | _ => false
  end.

(** Whether [ScoutStatusEvent(...)] accepts the event: of the
    constraints of the model and of [ScoutStatusDetails], the range of
    [progress] ([ge=0, le=100]) is the one a queued event can break. *)
Definition valid (e : Event) : bool :=
  (0 <=? ev_progress e) && (ev_progress e <=? 100).

(** [event_generator]; each element of [waits] is one
    [asyncio.wait_for(queue.get(), timeout=30.0)]: the event taken from
    the queue, or [None] when the wait times out. *)
Fixpoint event_generator (waits : list (option Event)) : list SSE * StreamState :=
  match waits with
  | [] => ([], Waiting)
  | None :: rest =>
      let '(out, st) := event_generator rest in (heartbeat :: out, st)
  | Some e :: rest =>
      if valid e then
        if terminal e then ([status_update e], Closed)
        else let '(out, st) := event_generator rest in
             (status_update e :: out, st)
      else ([], Failed)
  end.

(** The message a wait gives rise to. *)
Definition sse_of (wait : option Event) : SSE :=
  match wait with
  | Some e => status_update e
  | None => heartbeat
  end.

(** A wait that does not end the stream: a timeout, or an event that is
    accepted and is neither ["complete"] nor ["error"]. *)
Definition passes (wait : option Event) : bool :=
  match wait with
  | Some e => valid e && negb (terminal e)
  | None => true
  end.

(** The events of a queue a subscriber is sent: those up to the first
    ["complete"] or ["error"] event, that one included. *)
Fixpoint delivered (q : list Event) : list Event :=
  match q with
  | [] => []
  | e :: r => e :: if terminal e then [] else delivered r
  end.

End StatusStream.

(** *** The router running the agent

    The [try] block of [run_scout_cycle] when the agent is imported and
    its cycle returns: the agent is built on the collection and on the
    status queue, and [run_cycle] is called with the keywords and the
    date filter. *)
Definition agent_attempt {Coll : Type}
    (coll_get : Coll -> str -> option (list str))
    (coll_add : Coll -> list str -> list (gmap string pyval) -> list str
                -> option Coll)
    (search_lex_uz : nat -> str -> str -> list Scout.doc)
    (llm_says_yes : nat -> str -> option bool)
    (fetch : nat -> str -> option str)
    (now : nat -> str)
    (interp : Z -> Z -> nat -> nat -> Z)
    (chroma_collection : option Coll)
    (keywords : list str) (date_filter : str) (q : list Event)
    : list Event * (Scout.Tally + ScoutRouter.Raised) :=
  let r := Scout.run_cycle coll_get coll_add search_lex_uz llm_says_yes fetch
             now interp (Scout.mkState q chroma_collection 0 [])
             (Some keywords) date_filter in
  (Scout.queue r.1, inl r.2).

(* ===================================================================== *)
(** ** The settings ([app/config.py]) *)
(* ===================================================================== *)

Module Config.

(** [cors_origins_list]:
    [[origin.strip() for origin in self.cors_origins.split(",")]] *)
Definition cors_origins_list (cors_origins : str) : list str :=
  List.map strip (split (py ",") cors_origins).

(** The default of [cors_origins]. *)
Definition default_cors_origins : str :=
  py "http://localhost:3000,http://127.0.0.1:3000".

End Config.

(** *** The life of the job registry

    What happens to the server between two requests: a trigger is
    answered, or a run ends.  [unforced] restricts the triggers to those
    that leave [force_refresh] at its default. *)
Inductive router_step (unforced : bool)
    : ScoutRouter.Server -> ScoutRouter.Server -> Prop :=
| step_trigger uuid4 scout_date_filter request s :
    (unforced = true -> ScoutRouter.force_refresh request = false) ->
    router_step unforced s
      (ScoutRouter.trigger_scout uuid4 scout_date_filter request s).2
| step_run_ends attempt relevant job_id keywords date_filter s q :
    router_step unforced s
      (ScoutRouter.run_scout_cycle attempt relevant job_id keywords
         date_filter (s, q)).1.1.

(* ===================================================================== *)
(** ** Definitions used to state further properties *)
(* ===================================================================== *)

(** White space in [s] is made of single spaces (U+0020), none next to
    another; [prev_space] tells that a space precedes [s]. *)
Fixpoint tidy_from (prev_space : bool) (s : str) : bool :=
  match s with
  | [] => true
  | c :: r =>
      if isspace c then (c =? 0x20)%N && negb prev_space && tidy_from true r
      else tidy_from false r
  end.

(** The same, and [s] does not end with a space. *)
Fixpoint clean_from (prev_space : bool) (s : str) : bool :=
  match s with
  | [] => negb prev_space
  | c :: r =>
      if isspace c then (c =? 0x20)%N && negb prev_space && clean_from true r
      else clean_from false r
  end.

(** A text in the form [_clean_text] produces: empty, or words separated
    by single spaces, with no space at either end. *)
Definition is_clean (s : str) : bool :=
  match s with
  | [] => true
  | _ => clean_from true s
  end.

(** [s] without its trailing white space. *)
Fixpoint rstrip (s : str) : str :=
  match s with
  | [] => []
  | c :: r =>
      match rstrip r with
      | [] => if isspace c then [] else [c]
      | r' => c :: r'
      end
  end.

(** Every part with the separator in front. *)
Definition join_all (sep : str) (parts : list str) : str :=
  concat (List.map (fun p => sep ++ p) parts).

(** The separator [_recursive_split] settles on: the first of
    [separators] that occurs in the text. *)
Definition first_separator (t : str) : option str :=
  List.find (fun sep => contains sep t) separators.

(** No white space at either end. *)
Definition stripped (s : str) : bool :=
  match s, last s with
  | c :: _, Some d => negb (isspace c) && negb (isspace d)
  | _, _ => true
  end.

(** What the packing loop has produced, were it to stop now. *)
Definition flushed (sep : str) (st : list str * list str * Z) : list str :=
  match st.1.2 with
  | [] => st.1.1
  | _ => st.1.1 ++ [join sep st.1.2]
  end.

(** [current_len] of the packing loop: the weights of the parts held. *)
Definition sum_weights (w : str -> Z) (ps : list str) : Z :=
  fold_right (fun p n => w p + n) 0 ps.

(** A piece that fits the target size with its separator, or is one
    of the parts [all] as they were split. *)
Definition within (sep : str) (all : list str) (p : str) : Prop :=
  len p + len sep <= target_size \/ In p all.

(* ===================================================================== *)
(** ** The chat endpoint ([app/api/routers/chat.py], with the models of
       [app/models/schemas.py]) *)
(* ===================================================================== *)

Module ChatEndpoint.

(** The metadata of a stored chunk.  The endpoint reads the keys
    ["title"], ["decree_id"], ["document_id"] and ["source_url"]; their
    values are strings, as the seeding script and the scout write
    them. *)
Abbreviation meta := (gmap string str).

(** What [collection.query(..., include=["documents", "metadatas",
    "distances"])] returns: under each key a list with one row per
    query text; [None] stands for a missing key or a [None] value. *)
Record QueryResult := mkResult {
  documents : option (list (list str));
  metadatas : option (list (list meta));
  distances : option (list (list Q))
}.

Record DocumentSource := mkSource {
  title : str;
  document_id : str;
  url : option str;
  relevance_score : Q;
  excerpt : str
}.

Record BusinessContext := mkBusinessContext {
  industry : pyval;
  employee_count : option Z;
  region : pyval;
  years_in_operation : option Z
}.

Record ChatRequest := mkChatRequest {
  message : str;
  business_context : option BusinessContext;
  conversation_id : pyval
}.

Inductive Provider := groq | gemini.

(** The settings the endpoint reads. *)
Record Settings := mkSettings {
  debug : bool;
  llm_provider : Provider;
  llm_model : str;
  groq_api_key : str;
  google_api_key : str;
  top_k_results : Z
}.

(** A call of a collaborator: its result, or the message [str(e)] of
    the exception it raises. *)
Inductive Raises (A : Type) :=
| Returns (a : A)
| Raised (message : str).
Arguments Returns {A}.
Arguments Raised {A}.

(** The exceptions the [try] block of [chat] can raise besides its own
    [HTTPException]: an index out of range, a model that does not
    validate, and whatever the query raises. *)
Inductive Exn :=
| IndexError
| ValidationError
| QueryError (message : str).

(** The [detail] of an [HTTPException]. *)
Inductive Detail :=
| NotInitialized
| ChatError (e : Exn)
| TryAgain.

(** What the endpoint answers: a [ChatResponse] (its timestamp and the
    empty [matched_privileges] left out), or an [HTTPException]. *)
Inductive Outcome :=
| ChatResponse (response : str) (sources : list DocumentSource)
               (conversation_id : str)
| HTTPException (status_code : Z) (detail : Detail).

(** [relevance_score: float = Field(..., ge=0, le=1)]: the only
    constraint of [DocumentSource] beyond the types. *)
Definition validate (s : DocumentSource) : Exn + DocumentSource :=
  if Qle_bool 0 (relevance_score s) && Qle_bool (relevance_score s) 1
  then inr s else inl ValidationError.

(** [doc[:300] + "..." if len(doc) > 300 else doc] *)
Definition excerpt_of (doc : str) : str :=
  if len doc >? 300 then slice doc 0 300 ++ py "..." else doc.

(** [results[key][0]] when [results.get(key)] is true. *)
Definition first_row {A} (l : option (list (list A))) : option (list A) :=
  match l with
  | Some (row :: _) => Some row
  | _ => None
  end.

(** The body of the loop over the retrieved documents. *)
Definition source_of (results : QueryResult) (i : nat) (doc : str)
    : Exn + DocumentSource :=
  match (match first_row (metadatas results) with
         | Some row => row !! i
         | None => Some ∅
         end) with
  | None => inl IndexError
  | Some metadata =>
      match (match first_row (distances results) with
             | Some row => row !! i
             | None => Some 1%Q
             end) with
      | None => inl IndexError
      | Some distance =>
          validate
            (mkSource
               (default (py "Nomsiz hujjat") (metadata !! "title"))
               (default (default (py "N/A") (metadata !! "document_id"))
                        (metadata !! "decree_id"))
               (metadata !! "source_url")
               (Chat.relevance_score distance)
               (excerpt_of doc))
      end
  end.

Fixpoint sources_from (results : QueryResult) (i : nat) (docs : list str)
    : Exn + list DocumentSource :=
  match docs with
  | [] => inr []
  | doc :: rest =>
      match source_of results i doc with
      | inl e => inl e
      | inr s =>
          match sources_from results (S i) rest with
          | inl e => inl e
          | inr ss => inr (s :: ss)
          end
      end
  end.

(** The documents the loop runs over: [results["documents"][0]], none
    when the key is missing or the row is empty. *)
Definition retrieved (results : QueryResult) : list str :=
  default [] (first_row (documents results)).

Definition context_of (context_texts : list str) : str :=
  match context_texts with
  | [] => py "Hech qanday tegishli hujjat topilmadi."
  | _ => join ([0x0A; 0x0A]%N ++ py "---" ++ [0x0A; 0x0A]%N) context_texts
  end.

Definition business_info_of (bc : option BusinessContext) : str :=
  match bc with
  | None => []
  | Some bc =>
      let parts :=
        (if truthy (industry bc)
         then [py "Soha: " ++ fmt (industry bc)] else [])
        ++ match employee_count bc with
           | Some n => [py "Xodimlar: " ++ str_of_int n]
           | None => []
           end
        ++ (if truthy (region bc)
            then [py "Hudud: " ++ fmt (region bc)] else [])
        ++ match years_in_operation bc with
           | Some n => [py "Faoliyat yili: " ++ str_of_int n]
           | None => []
           end in
      match parts with
      | [] => []
      | _ => [0x0A; 0x0A]%N ++ py "Foydalanuvchi biznes ma'lumotlari: "
               ++ join (py ", ") parts
      end
  end.

Definition system_prompt : str :=
  join [0x0A]%N
    [ py "Siz O'zbekiston qonunchiligida tadbirkorlar uchun imtiyozlar bo'yicha mutaxassissiz.";
      [];
      py "Sizning vazifangiz:";
      py "1. Foydalanuvchi savoliga topilgan hujjatlar asosida aniq va foydali javob berish";
      py "2. Har doim hujjat nomeri (PQ-xxx, PD-xxx) va tegishli moddani ko'rsatish";
      py "3. Imtiyozlar haqida tushunarli tilda tushuntirish";
      py "4. Agar aniq ma'lumot topilmasa, shunday deb aytish";
      [];
      py "Javobingiz qisqa, aniq va amaliy bo'lsin. O'zbek tilida javob bering." ].

Definition user_prompt (question context business_info : str) : str :=
  join [0x0A]%N
    [ py "Savol: " ++ question;
      business_info;
      [];
      py "Topilgan hujjatlar:";
      context;
      [];
      py "Yuqoridagi ma'lumotlar asosida savolga javob bering:" ].

(** The text [generate_llm_response] returns when the provider fails. *)
Definition fallback_response (message : str) : str :=
  py "Kechirasiz, hozirda javob generatsiya qilishda xatolik yuz berdi. Topilgan hujjatlarni ko'rib chiqing."
    ++ [0x0A; 0x0A]%N ++ py "Xatolik: " ++ message.

Section Endpoint.

(** The vector store and its [query(query_texts=[message],
    n_results=top_k, ...)]. *)
Variable Coll : Type.
Variable query : Coll -> str -> Z -> Raises QueryResult.

(** [str(uuid.uuid4())] *)
Variable uuid4 : str.

(** The two providers.  [import_groq] and [import_genai] are the
    messages of the [ImportError] of the imports, if they fail;
    [groq_create api_key model system user] is the content of the first
    choice of the completion ([None] is a possible content), and
    [gemini_generate api_key model prompt] the text of the
    response. *)
Variable import_groq : option str.
Variable groq_create : str -> str -> str -> str -> Raises pyval.
Variable import_genai : option str.
Variable gemini_generate : str -> str -> str -> Raises pyval.

Definition _call_groq (system_prompt user_prompt : str) (settings : Settings)
    : Raises pyval :=
  match import_groq with
  | Some e => Raised e
  | None =>
      if nonempty (groq_api_key settings)
      then groq_create (groq_api_key settings) (llm_model settings)
                       system_prompt user_prompt
      else Raised (py "Groq API key not configured")
  end.

Definition _call_gemini (system_prompt user_prompt : str) (settings : Settings)
    : Raises pyval :=
  match import_genai with
  | Some e => Raised e
  | None =>
      if nonempty (google_api_key settings)
      then gemini_generate (google_api_key settings) (llm_model settings)
                           (system_prompt ++ [0x0A; 0x0A]%N ++ user_prompt)
      else Raised (py "Google API key not configured")
  end.

(** The call of the configured provider. *)
Definition call_provider (question context business_info : str)
    (settings : Settings) : Raises pyval :=
  match llm_provider settings with
  | groq => _call_groq system_prompt
                       (user_prompt question context business_info) settings
  | gemini => _call_gemini system_prompt
                           (user_prompt question context business_info) settings
  end.

(** [generate_llm_response]: every exception of the provider is
    caught. *)
Definition generate_llm_response (question context business_info : str)
    (settings : Settings) : pyval :=
  match call_provider question context business_info settings with
  | Returns content => content
  | Raised e => Some (fallback_response e)
  end.

(** The [try] block of [chat] once the collection is known to be
    there: the response, or the exception raised. *)
Definition answer (request : ChatRequest) (settings : Settings)
    (collection : Coll) (conversation_id : str) : Exn + Outcome :=
  match query collection (message request) (top_k_results settings) with
  | Raised e => inl (QueryError e)
  | Returns results =>
      let context_texts := retrieved results in
      match sources_from results 0 context_texts with
      | inl e => inl e
      | inr sources =>
          let context := context_of context_texts in
          let business_info := business_info_of (business_context request) in
          match generate_llm_response (message request) context
                                      business_info settings with
          | Some response_text =>
              inr (ChatResponse response_text sources conversation_id)
          | None => inl ValidationError
          end
      end
  end.

(** [chat]; [collection] is [app_state.chroma_collection]. *)
Definition chat (request : ChatRequest) (settings : Settings)
    (collection : option Coll) : Outcome :=
  let conversation_id :=
    match conversation_id request with
    | Some (c :: r) => c :: r
    | _ => uuid4
    end in
  match collection with
  | None => HTTPException 503 NotInitialized
  | Some coll =>
      match answer request settings coll conversation_id with
      | inr response => response
      | inl e =>
          HTTPException 500 (if debug settings then ChatError e else TryAgain)
      end
  end.

End Endpoint.

End ChatEndpoint.

(** *** Collaborators and requests used as inputs below *)

(** A store that returns one document at distance [d]; a provider
    that answers, and settings without any API key. *)
Definition chat_result (d : Q) : ChatEndpoint.QueryResult :=
  ChatEndpoint.mkResult
    (Some [[py "1-modda. Soliq imtiyozi beriladi."]])
    (Some [[ {[ "title" := py "Qaror"; "document_id" := py "PQ-60" ]} ]])
    (Some [[d]]).

Definition chat_query (d : Q) (_ : unit) (_ : str) (_ : Z)
    : ChatEndpoint.Raises ChatEndpoint.QueryResult :=
  ChatEndpoint.Returns (chat_result d).

Definition chat_groq (_ _ _ _ : str) : ChatEndpoint.Raises pyval :=
  ChatEndpoint.Returns (Some (py "Javob")).

Definition chat_gemini (_ _ _ : str) : ChatEndpoint.Raises pyval :=
  ChatEndpoint.Returns (Some (py "Javob")).

Definition chat_settings (key : str) : ChatEndpoint.Settings :=
  ChatEndpoint.mkSettings false ChatEndpoint.groq (py "openai/gpt-oss-120b")
                          key [] 5.

Definition chat_request : ChatEndpoint.ChatRequest :=
  ChatEndpoint.mkChatRequest (py "Soliq imtiyozlari bormi?") None None.

(* ===================================================================== *)
(** ** The search of the scout agent ([_search_lex_uz],
       [_extract_decree_id] of [app/scout_agent/agent.py]) *)
(* ===================================================================== *)

Module ScoutSearch.

(** *** [_extract_decree_id]

    The four patterns [(PQ[-–]?\d+)], [(PD[-–]?\d+)], [(ПҚ[-–]?\d+)] and
    [(ПФ[-–]?\d+)], searched with [re.IGNORECASE].  A pattern is given
    by its two letters, each as the pair of the upper-case and the
    lower-case code point: under [re.IGNORECASE] these two and no other
    character match the letter. *)
Definition patterns : list ((char * char) * (char * char)) :=
  [ ((0x50, 0x70), (0x51, 0x71));
    ((0x50, 0x70), (0x44, 0x64));
    ((0x41F, 0x43F), (0x49A, 0x49B));
    ((0x41F, 0x43F), (0x424, 0x444)) ]%N.

Definition is_letter (l : char * char) (c : char) : bool :=
  ((c =? l.1) || (c =? l.2))%N.

(** [[-–]]: the hyphen and the en dash. *)
Definition is_hyphen (c : char) : bool := ((c =? 0x2D) || (c =? 0x2013))%N.

(** A match attempt at the head of [s]: the text of group 1.  The
    optional dash is taken when present; giving it back never helps,
    a dash being no digit. *)
Definition match_decree (p : (char * char) * (char * char)) (s : str)
    : option str :=
  match s with
  | c1 :: c2 :: r =>
      if is_letter p.1 c1 && is_letter p.2 c2 then
        let '(dash, r1) :=
          match r with
          | d :: r' => if is_hyphen d then ([d], r') else ([], r)
          | [] => ([], r)
          end in
        match span isdecimal r1 with
        | ([], _) => None
        | (digits, _) => Some (c1 :: c2 :: dash ++ digits)
        end
      else None
  | _ => None
  end.

(** [re.search(pattern, text, re.IGNORECASE)]: the leftmost match. *)
Fixpoint search_decree (p : (char * char) * (char * char)) (s : str)
    : option str :=
  match match_decree p s with
  | Some m => Some m
  | None => match s with [] => None | _ :: r => search_decree p r end
  end.

(** [str.upper] on the characters a match can hold: the six letters of
    the patterns change, dashes and decimal digits do not. *)
Definition upper (c : char) : char :=
  if ((c =? 0x70) || (c =? 0x71) || (c =? 0x64))%N then (c - 0x20)%N
  else if ((c =? 0x43F) || (c =? 0x444))%N then (c - 0x20)%N
  else if (c =? 0x49B)%N then 0x49A%N
  else c.

(** [match.group(1).upper().replace('–', '-')] *)
Definition normalise (m : str) : str :=
  List.map (fun c => if (c =? 0x2013)%N then 0x2D%N else c) (List.map upper m).

Fixpoint first_match (ps : list ((char * char) * (char * char))) (text : str)
    : option str :=
  match ps with
  | [] => None
  | p :: rest =>
      match search_decree p text with
      | Some m => Some (normalise m)
      | None => first_match rest text
      end
  end.

Definition _extract_decree_id (text : str) : option str :=
  first_match patterns text.

(** *** [_search_lex_uz] *)
Section Search.

(** [self.max_results], and [list(ddgs.text(query, max_results=...))]:
    the results, dictionaries with the keys ["href"], ["title"] and
    ["body"]; [None] when the import or the search raises. *)
Variable max_results : Z.
Variable ddgs_text : str -> Z -> option (list doc).




End Search.

End ScoutSearch.

(** *** Search results used as inputs below *)



(* ===================================================================== *)
(** ** The string operations and the chunker on small inputs *)
(* ===================================================================== *)

Example split_ex1 : split (py ", ") (py "a, b,, c, ") = [py "a"; py "b,"; py "c"; py ""].
Proof. reflexivity. Qed.
Example split_ex2 : split (py "aa") (py "aaa") = [py ""; py "a"].
Proof. reflexivity. Qed.
Example split_ex3 : split (py " ") (py "ab") = [py "ab"].
Proof. reflexivity. Qed.
Example join_ex : join (py ", ") [py "a"; py "b"; py ""] = py "a, b, ".
Proof. reflexivity. Qed.
Example strip_ex : strip (py "  a b  ") = py "a b".
Proof. reflexivity. Qed.
Example find_ex : find 32%N (py "ab c d") = 2 /\ find 32%N (py "abc") = -1.
Proof. split; reflexivity. Qed.
Example sub_ws_ex : sub_ws ([10; 10] ++ py "a  " ++ [10; 9] ++ py "b ")%N = py " a b ".
Proof. reflexivity. Qed.
Example sub_newlines_ex :
  sub_newlines ([10; 10; 10; 10; 97; 10; 10; 98; 10; 10; 10])%N = [10; 10; 97; 10; 10; 98; 10; 10]%N.
Proof. reflexivity. Qed.

(** The scenario [chunk("1-modda. Short text.", "TEST-1")]. *)
Example chunk_short_article :
  List.map (fun c => (index c, chunk_type c, article c, text c))
    (chunk_document (py "1-modda. Short text.") (Some (py "TEST-1")) (Some []) None)
  = [(0, full_article, Some (py "1-modda"), py "1-modda. Short text.")].
Proof. vm_compute. reflexivity. Qed.

(** A single article of 5003 characters without paragraph breaks: three
    ["sub_section"] chunks packed word by word, the second and the third
    prefixed by the overlap pass. *)
Example chunk_long_article :
  List.map (fun c => (index c, chunk_type c, len (text c)))
    (pre_overlap long_article_doc (Some (py "DOC")) (Some []) None)
  = [(0, sub_section, 2047); (1, sub_section, 2045); (2, sub_section, 908)]
  /\ List.map (fun c => (len (text c), startswith (py "...") (text c)))
       (chunk_document long_article_doc (Some (py "DOC")) (Some []) None)
     = [(2047, false); (2448, true); (1308, true)].
Proof. split; vm_compute; reflexivity. Qed.

(** A preamble longer than [MIN_CHUNK_SIZE] is an article of its own; the
    two marker forms are recognised. *)
Example split_preamble_and_markers :
  List.map (fun a => (a.1, len a.2))
    (_split_by_articles
       (_clean_text (concat (repeat (py "kirish ") 30)
                       ++ py "Modda 12  birinchi 3 - MODDA ikkinchi")))
  = [(py "preamble", 209); (py "12-modda", 17); (py "3-modda", 18)].
Proof. vm_compute. reflexivity. Qed.

(** [re.finditer] of the article pattern: leftmost matches that do not
    overlap; digits, spaces and dashes beyond ASCII. *)
Example finditer_ex1 :
  List.map (fun m => (m_start m, m_end m, m_num m))
    (finditer (py "intro Modda 12 abc 3 - MODDA x 4-moddaa"))
  = [(6, 14, py "12"); (19, 28, py "3"); (31, 38, py "4")].
Proof. vm_compute. reflexivity. Qed.

Example finditer_ex2 :
  List.map (fun m => (m_start m, m_end m, m_num m)) (finditer (py "12 3-modda 5Modda 6"))
  = [(3, 10, py "3"); (12, 19, py "6")].
Proof. vm_compute. reflexivity. Qed.

Example finditer_ex3 :
  List.map (fun m => (m_start m, m_end m, m_num m))
    (finditer ([0x31; 0x663; 0xA0; 0x2014; 0x20]%N ++ py "modda Modda 7"))
  = [(0, 10, [0x31; 0x663]%N); (11, 18, py "7")].
Proof. vm_compute. reflexivity. Qed.

(** [round(x, 3)]: ties go to the even neighbour. *)
Example round3_ex : (Chat.round3 (1 # 16) == 62 # 1000 /\ Chat.round3 (3 # 4) == 3 # 4)%Q.
Proof. split; reflexivity. Qed.
(* ===================================================================== *)
(** ** Facts about Python strings *)
(* ===================================================================== *)

Section PyStrFacts.

Lemma isspace_spaces c : isspace c = true -> In c spaces.
Proof.
  unfold isspace. intros H.
  repeat (apply orb_prop in H; destruct H as [H|H]);
    try (apply andb_prop in H; destruct H as [H1 H2];
         apply N.leb_le in H1; apply N.leb_le in H2);
    try apply N.eqb_eq in H.
  all: unfold spaces; simpl; lia.
Qed.

(** No decimal digit is white space. *)
Lemma isdecimal_not_space c : isdecimal c = true -> isspace c = false.
Proof.
  intros Hd. destruct (isspace c) eqn:Hs; [|reflexivity].
  apply isspace_spaces in Hs.
  assert (Hall : forallb (fun x => negb (isdecimal x)) spaces = true)
    by (vm_compute; reflexivity).
  rewrite forallb_forall in Hall. specialize (Hall c Hs).
  rewrite Hd in Hall. discriminate.
Qed.

Lemma newline_isspace : isspace 0x0A%N = true.
Proof. reflexivity. Qed.

(** *** Lengths *)
Lemma len_nonneg {A} (s : list A) : 0 <= len s.
Proof. unfold len. lia. Qed.

Lemma len_app {A} (a b : list A) : len (a ++ b) = len a + len b.
Proof. unfold len. rewrite length_app. lia. Qed.

Lemma len_map {A B} (f : A -> B) (l : list A) : len (List.map f l) = len l.
Proof. unfold len. rewrite List.length_map. reflexivity. Qed.

Lemma length_lstrip s : (length (lstrip s) <= length s)%nat.
Proof. induction s as [|c r IH]; simpl; [lia|]. destruct (isspace c); simpl; lia. Qed.

Lemma length_strip s : (length (strip s) <= length s)%nat.
Proof.
  unfold strip. rewrite length_rev.
  etransitivity; [apply length_lstrip|]. rewrite length_rev. apply length_lstrip.
Qed.

Lemma length_sub_ws_go b s : (length (sub_ws_go b s) <= length s)%nat.
Proof.
  revert b. induction s as [|c r IH]; intros b; simpl; [lia|].
  pose proof (IH true). pose proof (IH false).
  destruct (isspace c); [destruct b|]; simpl; lia.
Qed.

Lemma length_flush_newlines n : (length (flush_newlines n) <= n)%nat.
Proof.
  unfold flush_newlines. destruct (3 <=? n)%nat eqn:E.
  - apply Nat.leb_le in E. simpl. lia.
  - rewrite repeat_length. lia.
Qed.

Lemma length_sub_newlines_go n s :
  (length (sub_newlines_go n s) <= n + length s)%nat.
Proof.
  revert n. induction s as [|c r IH]; intros n; simpl.
  - pose proof (length_flush_newlines n). lia.
  - destruct (c =? 10)%N.
    + specialize (IH (S n)). lia.
    + rewrite length_app. simpl.
      pose proof (length_flush_newlines n). specialize (IH 0%nat). lia.
Qed.

Lemma length_slice s i j : (length (slice s i j) <= length s)%nat.
Proof. unfold slice. rewrite length_take, length_drop. lia. Qed.

(** *** White space and [strip] *)
Lemma has_nonspace_app a b : has_nonspace (a ++ b) = has_nonspace a || has_nonspace b.
Proof. apply existsb_app. Qed.

Lemma has_nonspace_rev s : has_nonspace (rev s) = has_nonspace s.
Proof.
  induction s as [|c r IH]; [reflexivity|].
  simpl rev. rewrite has_nonspace_app, IH. simpl.
  rewrite orb_false_r. apply orb_comm.
Qed.

Lemma has_nonspace_lstrip s : has_nonspace (lstrip s) = has_nonspace s.
Proof.
  induction s as [|c r IH]; [reflexivity|]. simpl.
  destruct (isspace c) eqn:E; simpl; [exact IH | rewrite E; reflexivity].
Qed.

Lemma nonempty_lstrip s : nonempty (lstrip s) = has_nonspace s.
Proof.
  induction s as [|c r IH]; [reflexivity|]. simpl.
  destruct (isspace c) eqn:E; simpl; [exact IH | reflexivity].
Qed.

Lemma nonempty_rev (s : str) : nonempty (rev s) = nonempty s.
Proof.
  destruct s as [|c r]; [reflexivity|]. simpl.
  destruct (rev r ++ [c]) eqn:E; [|reflexivity].
  apply app_eq_nil in E. destruct E; discriminate.
Qed.

Lemma nonempty_strip s : nonempty (strip s) = has_nonspace s.
Proof.
  unfold strip.
  rewrite nonempty_rev, nonempty_lstrip, has_nonspace_rev, has_nonspace_lstrip.
  reflexivity.
Qed.

Lemma has_nonspace_sub_ws_go b s : has_nonspace (sub_ws_go b s) = has_nonspace s.
Proof.
  revert b. induction s as [|c r IH]; intros b; [reflexivity|]. simpl.
  destruct (isspace c) eqn:E; [destruct b|]; simpl; rewrite ?E, ?IH; reflexivity.
Qed.

Lemma has_nonspace_flush n : has_nonspace (flush_newlines n) = false.
Proof.
  unfold flush_newlines. destruct (3 <=? n)%nat; [reflexivity|].
  induction n; simpl; auto.
Qed.

Lemma has_nonspace_sub_newlines_go n s :
  has_nonspace (sub_newlines_go n s) = has_nonspace s.
Proof.
  revert n. induction s as [|c r IH]; intros n; simpl.
  - apply has_nonspace_flush.
  - destruct (c =? 10)%N eqn:E.
    + apply N.eqb_eq in E. subst c. simpl. apply IH.
    + rewrite has_nonspace_app, has_nonspace_flush. simpl. rewrite IH. reflexivity.
Qed.

(** *** [split] and [join] *)
Lemma split_go_nonnil sep k s : split_go sep k s <> [].
Proof.
  revert k. induction s as [|c r IH]; intros k; simpl; [discriminate|].
  destruct k; [|apply IH].
  destruct (startswith sep (c :: r)); [discriminate|].
  destruct (split_go sep 0 r); discriminate.
Qed.

(** Without the first character of [sep] in [s], nothing is split. *)
Lemma split_absent a sep s :
  ~ In a s -> split (a :: sep) s = [s].
Proof.
  unfold split. induction s as [|c r IH]; intros Hn; [reflexivity|].
  cbn [split_go]. simpl startswith.
  destruct (a =? c)%N eqn:E.
  - apply N.eqb_eq in E. subst. exfalso. apply Hn. left. reflexivity.
  - simpl. rewrite IH; [reflexivity|]. intros Hin. apply Hn. right. exact Hin.
Qed.

End PyStrFacts.

(* ===================================================================== *)
(** ** Facts about the chunker *)
(* ===================================================================== *)

Section CleanText.

Lemma length_clean t : (length (_clean_text t) <= length t)%nat.
Proof.
  unfold _clean_text, sub_newlines, sub_ws.
  etransitivity; [apply length_strip|].
  etransitivity; [apply length_sub_newlines_go|].
  simpl. apply length_sub_ws_go.
Qed.

Lemma nonempty_clean t : nonempty (_clean_text t) = has_nonspace t.
Proof.
  unfold _clean_text, sub_newlines, sub_ws.
  rewrite nonempty_strip, has_nonspace_sub_newlines_go, has_nonspace_sub_ws_go.
  reflexivity.
Qed.

Lemma blank_has_nonspace t : blank t = negb (has_nonspace t).
Proof.
  unfold blank. rewrite nonempty_strip.
  destruct t as [|c r]; [reflexivity|]. reflexivity.
Qed.

(** After the white-space pass no newline is left: the newline pass
    that follows finds nothing to do, and so does every later split on
    newlines. *)
Lemma sub_ws_go_no_newline b s : ~ In 0x0A%N (sub_ws_go b s).
Proof.
  revert b. induction s as [|c r IH]; intros b; simpl; [tauto|].
  destruct (isspace c) eqn:E; [destruct b|]; simpl.
  - apply IH.
  - intros [H|H]; [discriminate | exact (IH _ H)].
  - intros [H|H]; [|exact (IH _ H)].
    subst c. rewrite newline_isspace in E. discriminate.
Qed.

Lemma sub_newlines_go_id n s :
  ~ In 0x0A%N s -> sub_newlines_go n s = flush_newlines n ++ s.
Proof.
  revert n. induction s as [|c r IH]; intros n Hn; simpl.
  - rewrite app_nil_r. reflexivity.
  - destruct (c =? 10)%N eqn:E.
    + apply N.eqb_eq in E. exfalso. apply Hn. left. exact E.
    + rewrite IH; [reflexivity|]. intros H. apply Hn. right. exact H.
Qed.

Lemma sub_newlines_after_sub_ws t : sub_newlines (sub_ws t) = sub_ws t.
Proof.
  unfold sub_newlines. rewrite sub_newlines_go_id; [reflexivity|].
  apply sub_ws_go_no_newline.
Qed.

Lemma In_lstrip c s : In c (lstrip s) -> In c s.
Proof.
  induction s as [|d r IH]; simpl; [tauto|].
  destruct (isspace d); simpl; tauto.
Qed.

Lemma In_strip c s : In c (strip s) -> In c s.
Proof.
  unfold strip. intros H.
  apply in_rev in H. apply In_lstrip in H. apply in_rev in H.
  apply In_lstrip in H. exact H.
Qed.

Lemma In_slice c s i j : In c (slice s i j) -> In c s.
Proof.
  unfold slice. intros H.
  apply list_elem_of_In in H. apply list_elem_of_In.
  apply elem_of_take in H as (k & H & _).
  rewrite lookup_drop in H. eapply list_elem_of_lookup_2. exact H.
Qed.

Lemma clean_no_newline t : ~ In 0x0A%N (_clean_text t).
Proof.
  unfold _clean_text. rewrite sub_newlines_after_sub_ws.
  intros H. apply In_strip in H. revert H. apply sub_ws_go_no_newline.
Qed.

End CleanText.

Section FindIter.

(** A match starts on a character that is not white space. *)
Lemma span_head p s a b c :
  span p s = (c :: a, b) -> exists r, s = c :: r /\ p c = true.
Proof.
  destruct s as [|d r]; simpl; [discriminate|].
  destruct (p d) eqn:E; [|discriminate].
  destruct (span p r) as [a' b']. intros H. inversion H; subst.
  eexists; split; [reflexivity | exact E].
Qed.

Lemma startswith_head a p c r : startswith (a :: p) (c :: r) = true -> c = a.
Proof.
  cbn [startswith]. intros H. apply andb_prop in H as [H _].
  apply N.eqb_eq in H. symmetry. exact H.
Qed.

Lemma match_article_head s m :
  match_article s = Some m -> exists c r, s = c :: r /\ isspace c = false.
Proof.
  unfold match_article.
  destruct (match_number_dash_word s) as [m'|] eqn:E1.
  - intros _. unfold match_number_dash_word in E1.
    destruct (span isdecimal s) as [digits r1] eqn:Es.
    destruct digits as [|c ds]; [discriminate|].
    apply span_head in Es as (r & -> & Hd).
    exists c, r. split; [reflexivity|]. apply isdecimal_not_space, Hd.
  - unfold match_word_number, word_at. intros H.
    destruct (List.find _ _) as [w|] eqn:Ef; [|discriminate].
    apply find_some in Ef as [Hin Hw].
    destruct s as [|c r].
    + simpl in Hin. destruct Hin as [<-|[<-|[]]]; discriminate.
    + exists c, r. split; [reflexivity|].
      simpl in Hin. destruct Hin as [<-|[<-|[]]];
        apply startswith_head in Hw; subst c; reflexivity.
Qed.

Lemma finditer_go_head pos skip s m rest :
  finditer_go pos skip s = m :: rest ->
  pos <= m_start m < pos + len s
  /\ (exists c r, drop (Z.to_nat (m_start m - pos)) s = c :: r /\ isspace c = false)
  /\ match rest with m' :: _ => m_start m < m_start m' | [] => True end.
Proof.
  revert pos skip m rest.
  induction s as [|c r IH]; intros pos skip m rest; simpl; [discriminate|].
  assert (Hlen : len (c :: r) = 1 + len r) by (unfold len; simpl length; lia).
  pose proof (len_nonneg r) as Hr.
  assert (Hshift : forall k, pos + 1 <= k ->
             drop (Z.to_nat (k - pos)) (c :: r) = drop (Z.to_nat (k - (pos + 1))) r).
  { intros k Hk. replace (Z.to_nat (k - pos)) with (S (Z.to_nat (k - (pos + 1)))) by lia.
    reflexivity. }
  assert (Hrec : forall k, finditer_go (pos + 1) k r = m :: rest ->
             pos <= m_start m < pos + len (c :: r)
             /\ (exists c0 r0, drop (Z.to_nat (m_start m - pos)) (c :: r) = c0 :: r0
                               /\ isspace c0 = false)
             /\ match rest with m' :: _ => m_start m < m_start m' | [] => True end).
  { intros k Hk. apply IH in Hk as (Hb & Hd & Ho).
    split; [lia|]. split; [|exact Ho]. rewrite Hshift by lia. exact Hd. }
  destruct skip as [|k]; [|apply Hrec].
  destruct (match_article (c :: r)) as [[n num]|] eqn:Em; [|apply Hrec].
  intros H. inversion H; subst; clear H. simpl.
  split; [lia|]. split.
  - rewrite Z.sub_diag. simpl.
    apply match_article_head in Em as (c0 & r0 & Heq & Hs).
    inversion Heq; subst. eauto.
  - destruct (finditer_go (pos + 1) (n - 1) r) as [|m' rest'] eqn:En; [exact I|].
    apply IH in En as (Hb & _). lia.
Qed.

(** The text of an article that starts at a match is never empty. *)
Lemma article_text_nonempty t m stop c r :
  0 <= m_start m < stop ->
  drop (Z.to_nat (m_start m)) t = c :: r -> isspace c = false ->
  nonempty (strip (slice t (m_start m) stop)) = true.
Proof.
  intros Hb Hd Hs. rewrite nonempty_strip. unfold slice. rewrite Hd.
  destruct (Z.to_nat stop - Z.to_nat (m_start m))%nat eqn:E; [lia|].
  simpl. rewrite Hs. reflexivity.
Qed.

Lemma articles_of_head t m rest :
  finditer t = m :: rest ->
  exists txt, articles_of t (m :: rest)
              = (m_num m ++ py "-modda", txt) :: articles_of t rest
              /\ nonempty txt = true
              /\ (length txt <= length t)%nat.
Proof.
  unfold finditer. intros H.
  apply finditer_go_head in H as (Hb & (c & r & Hd & Hs) & Ho).
  rewrite Z.sub_0_r in Hd. cbn [articles_of].
  set (stop := match rest with m' :: _ => m_start m' | [] => len t end).
  assert (Hstop : 0 <= m_start m < stop) by (subst stop; destruct rest; lia).
  rewrite (article_text_nonempty t m stop c r Hstop Hd Hs).
  eexists. split; [reflexivity|]. split.
  - eapply article_text_nonempty; eauto.
  - etransitivity; [apply length_strip | apply length_slice].
Qed.

Lemma split_by_articles_nonnil t : _split_by_articles t <> [].
Proof.
  unfold _split_by_articles.
  destruct (finditer t) as [|m rest] eqn:E; [discriminate|].
  destruct (articles_of_head t m rest E) as (txt & -> & _).
  destruct (m_start m >? MIN_CHUNK_SIZE); [|discriminate].
  destruct (nonempty _); discriminate.
Qed.

End FindIter.

Section Splitters.

(** Packing a non-empty list of parts yields at least one segment. *)
Lemma pack_fold_current sep w parts st :
  st.1.2 <> [] \/ parts <> [] ->
  (fold_left (pack_step sep w) parts st).1.2 <> [].
Proof.
  revert st. induction parts as [|p ps IH]; intros [[res cur] n] H; simpl in *.
  - destruct H as [H|H]; [exact H | congruence].
  - apply IH. left. unfold pack_step.
    destruct (n + w p <=? target_size); simpl; [|discriminate].
    destruct cur; discriminate.
Qed.

Lemma pack_nonnil sep w parts : parts <> [] -> pack sep w parts <> [].
Proof.
  intros Hp. unfold pack.
  pose proof (pack_fold_current sep w parts ([], [], 0) (or_intror Hp)) as H.
  destruct (fold_left _ _ _) as [[res cur] n]. simpl in H.
  destruct cur as [|c cs]; [congruence|].
  destruct res; discriminate.
Qed.

Lemma split_by_sections_nonnil t : _split_by_sections t <> [].
Proof.
  unfold _split_by_sections.
  destruct (1 <? length _)%nat; [|discriminate].
  apply pack_nonnil, split_go_nonnil.
Qed.

Lemma hard_split_nonnil t : t <> [] -> hard_split t <> [].
Proof.
  intros Ht. unfold hard_split, range_step, target_size, TARGET_CHUNK_SIZE.
  assert (0 < len t) by (destruct t; [congruence | unfold len; simpl length; lia]).
  assert (1 <= (len t + 2048 - 1) / 2048)
    by (apply Z.div_le_lower_bound; lia).
  destruct (Z.to_nat _) eqn:E; [lia|]. discriminate.
Qed.

Lemma split_with_nonnil seps t : t <> [] -> split_with seps t <> [].
Proof.
  intros Ht. induction seps as [|sep rest IH]; simpl.
  - apply hard_split_nonnil, Ht.
  - destruct (contains sep t); [|exact IH].
    destruct (pack _ _ _); [exact IH | discriminate].
Qed.

Lemma recursive_split_nonnil t : t <> [] -> _recursive_split t <> [].
Proof. apply split_with_nonnil. Qed.

(** A text without newline is one paragraph. *)
Lemma split_by_sections_no_newline t :
  ~ In 0x0A%N t -> _split_by_sections t = [t].
Proof.
  intros H. unfold _split_by_sections. rewrite split_absent by exact H.
  reflexivity.
Qed.

End Splitters.

Section MainLoop.
Variable doc_id : pyval.
Variable md : gmap string pyval.

Lemma number_app n x y :
  number doc_id md n (x ++ y)
  = number doc_id md n x ++ number doc_id md (n + len x) y.
Proof.
  revert n. induction x as [|[[a ty] t] x IH]; intros n; simpl.
  - unfold len. simpl. rewrite Z.add_0_r. reflexivity.
  - rewrite IH. do 3 f_equal. unfold len. simpl length. lia.
Qed.

Lemma emit_fold a ty ts st :
  fold_left (emit doc_id md a ty) ts st
  = (st.1 ++ number doc_id md st.2 (List.map (fun t => (a, ty, t)) ts),
     st.2 + len ts).
Proof.
  revert st. induction ts as [|t ts IH]; intros [cs n]; simpl.
  - unfold len. simpl. rewrite app_nil_r, Z.add_0_r. reflexivity.
  - rewrite IH. unfold emit. simpl. rewrite <- app_assoc. simpl.
    f_equal. unfold len. simpl length. lia.
Qed.

Lemma process_section_eq a st s :
  process_section doc_id md a st s
  = (st.1 ++ number doc_id md st.2
               (List.map (fun x => (a, x.1, x.2)) (section_segments s)),
     st.2 + len (section_segments s)).
Proof.
  unfold process_section, section_segments.
  destruct (len s <=? target_size).
  - destruct st as [cs n]. reflexivity.
  - rewrite emit_fold, List.map_map, len_map. reflexivity.
Qed.

Lemma process_section_fold a ss st :
  fold_left (process_section doc_id md a) ss st
  = (st.1 ++ number doc_id md st.2
               (List.map (fun x => (a, x.1, x.2)) (flat_map section_segments ss)),
     st.2 + len (flat_map section_segments ss)).
Proof.
  revert st. induction ss as [|s ss IH]; intros [cs n]; simpl.
  - unfold len. simpl. rewrite app_nil_r, Z.add_0_r. reflexivity.
  - rewrite IH, process_section_eq. simpl.
    rewrite List.map_app, number_app, <- app_assoc, len_app.
    rewrite len_map. f_equal. lia.
Qed.

Lemma process_article_eq st a :
  process_article doc_id md st a
  = (st.1 ++ number doc_id md st.2 (labelled a), st.2 + len (labelled a)).
Proof.
  destruct a as [a t]. unfold process_article, labelled, segments. simpl.
  destruct (len t <=? target_size).
  - destruct st as [cs n]. reflexivity.
  - rewrite process_section_fold, len_map. reflexivity.
Qed.

Lemma process_article_fold articles st :
  fold_left (process_article doc_id md) articles st
  = (st.1 ++ number doc_id md st.2 (flat_map labelled articles),
     st.2 + len (flat_map labelled articles)).
Proof.
  revert st. induction articles as [|a articles IH]; intros [cs n]; simpl.
  - unfold len. simpl. rewrite app_nil_r, Z.add_0_r. reflexivity.
  - rewrite IH, process_article_eq. simpl.
    rewrite number_app, <- app_assoc, len_app. f_equal. lia.
Qed.

(** The loop builds the numbered segments of the articles, in order. *)
Lemma build_chunks_eq articles :
  build_chunks doc_id md articles = number doc_id md 0 (flat_map labelled articles).
Proof. unfold build_chunks. rewrite process_article_fold. reflexivity. Qed.

Lemma number_index n segs :
  List.map index (number doc_id md n segs) = seqZ n (len segs).
Proof.
  revert n. induction segs as [|[[a ty] t] r IH]; intros n; simpl; [reflexivity|].
  rewrite IH. unfold len. simpl length.
  rewrite Nat2Z.inj_succ, (seqZ_cons n) by lia.
  f_equal. f_equal; lia.
Qed.

Lemma number_article n segs :
  List.map article (number doc_id md n segs) = List.map (fun s => Some s.1.1) segs.
Proof.
  revert n. induction segs as [|[[a ty] t] r IH]; intros n; simpl; [reflexivity|].
  rewrite IH. reflexivity.
Qed.

Lemma number_type n segs :
  List.map chunk_type (number doc_id md n segs) = List.map (fun s => s.1.2) segs.
Proof.
  revert n. induction segs as [|[[a ty] t] r IH]; intros n; simpl; [reflexivity|].
  rewrite IH. reflexivity.
Qed.

Lemma length_number n segs : length (number doc_id md n segs) = length segs.
Proof.
  revert n. induction segs as [|[[a ty] t] r IH]; intros n; simpl; [reflexivity|].
  rewrite IH. reflexivity.
Qed.

End MainLoop.

Section Segments.

Lemma section_segments_nonnil (s : str) : section_segments s <> [].
Proof.
  unfold section_segments.
  destruct (len s <=? target_size) eqn:E; [discriminate|].
  assert (Hs : s <> []) by (intros ->; discriminate).
  pose proof (recursive_split_nonnil s Hs).
  destruct (_recursive_split s); [congruence | discriminate].
Qed.

Lemma segments_nonnil (t : str) : segments t <> [].
Proof.
  unfold segments. destruct (len t <=? target_size); [discriminate|].
  pose proof (split_by_sections_nonnil t) as Hn.
  destruct (_split_by_sections t) as [|s ss]; [congruence|]. simpl.
  pose proof (section_segments_nonnil s).
  destruct (section_segments s); [congruence | discriminate].
Qed.

Lemma labelled_nonnil a : labelled a <> [].
Proof.
  unfold labelled. pose proof (segments_nonnil a.2).
  destruct (segments a.2); [congruence | discriminate].
Qed.

Lemma flat_map_labelled_nonnil articles :
  articles <> [] -> flat_map labelled articles <> [].
Proof.
  destruct articles as [|a r]; [congruence|]. intros _. simpl.
  pose proof (labelled_nonnil a). destruct (labelled a); [congruence | discriminate].
Qed.

End Segments.

Section Overlap.

Lemma set_text_id c : set_text c (text c) = c.
Proof. destruct c. reflexivity. Qed.

Lemma overlap_fold r : forall done p,
  fold_left overlap_step (seq (S (length done)) (length r)) (done ++ p :: r)
  = done ++ p :: overlap_chain (text p) r.
Proof.
  induction r as [|c r IH]; intros done p; [reflexivity|].
  cbn [length seq fold_left overlap_chain].
  assert (Hstep : overlap_step (done ++ p :: c :: r) (S (length done))
                  = (done ++ [p]) ++ prefixed (text p) c :: r).
  { unfold overlap_step, prefixed.
    replace (S (length done) - 1)%nat with (length done + 0)%nat by lia.
    rewrite lookup_app_r by lia.
    replace (length done + 0 - length done)%nat with 0%nat by lia.
    replace (S (length done)) with (length done + 1)%nat by lia.
    rewrite lookup_app_r by lia.
    replace (length done + 1 - length done)%nat with 1%nat by lia.
    cbn [lookup list_lookup].
    rewrite <- app_assoc. cbn [app].
    destruct (len (text p) >? overlap); [|reflexivity].
    rewrite insert_app_r_alt by lia.
    replace (length done + 1 - length done)%nat with 1%nat by lia.
    reflexivity. }
  rewrite Hstep.
  specialize (IH (done ++ [p]) (prefixed (text p) c)).
  rewrite length_app in IH. cbn [length] in IH.
  replace (length done + 1)%nat with (S (length done)) in IH by lia.
  rewrite IH, <- app_assoc. reflexivity.
Qed.

Lemma add_overlap_cons c0 r : _add_overlap (c0 :: r) = c0 :: overlap_chain (text c0) r.
Proof.
  destruct r as [|c r]; [reflexivity|].
  exact (overlap_fold (c :: r) [] c0).
Qed.

(** The pass changes texts only, by putting something in front. *)
Lemma prefixed_text prev_text c :
  exists pfx, text (prefixed prev_text c) = pfx ++ text c.
Proof.
  unfold prefixed. destruct (len prev_text >? overlap).
  - destruct c. unfold with_overlap. simpl.
    exists (py "..." ++ overlap_of prev_text ++ [10; 10]%N).
    rewrite <- !app_assoc. reflexivity.
  - exists []. reflexivity.
Qed.

Lemma prefixed_fields prev_text c :
  prefixed prev_text c = set_text c (text (prefixed prev_text c)).
Proof.
  unfold prefixed. destruct (len prev_text >? overlap).
  - destruct c. reflexivity.
  - symmetry. apply set_text_id.
Qed.

Lemma length_overlap_chain p cs : length (overlap_chain p cs) = length cs.
Proof. revert p. induction cs as [|c r IH]; intros p; simpl; [|rewrite IH]; reflexivity. Qed.

Lemma length_add_overlap cs : length (_add_overlap cs) = length cs.
Proof.
  destruct cs as [|c r]; [reflexivity|].
  rewrite add_overlap_cons. simpl. rewrite length_overlap_chain. reflexivity.
Qed.

Lemma overlap_chain_map {A} (f : Chunk -> A) p cs :
  (forall c t, f (set_text c t) = f c) ->
  List.map f (overlap_chain p cs) = List.map f cs.
Proof.
  intros Hf. revert p. induction cs as [|c r IH]; intros p; simpl; [reflexivity|].
  rewrite IH, prefixed_fields, Hf. reflexivity.
Qed.

Lemma add_overlap_map {A} (f : Chunk -> A) cs :
  (forall c t, f (set_text c t) = f c) ->
  List.map f (_add_overlap cs) = List.map f cs.
Proof.
  intros Hf. destruct cs as [|c r]; [reflexivity|].
  rewrite add_overlap_cons. simpl. rewrite overlap_chain_map by exact Hf.
  reflexivity.
Qed.

(** What the chunk at [i+1] becomes, from the chunk at [i] as the loop
    left it. *)
Lemma overlap_chain_lookup cs : forall p q i prev cur,
  (exists pfx, text q = pfx ++ text p) ->
  (p :: cs) !! i = Some prev -> cs !! i = Some cur ->
  exists prev' cur',
    (q :: overlap_chain (text q) cs) !! i = Some prev'
    /\ overlap_chain (text q) cs !! i = Some cur'
    /\ (exists pfx, text prev' = pfx ++ text prev)
    /\ cur' = prefixed (text prev') cur.
Proof.
  induction cs as [|c r IH]; intros p q i prev cur Hq Hp Hc; [destruct i; discriminate|].
  destruct i as [|j].
  - simpl in Hp, Hc. inversion Hp; inversion Hc; subst.
    exists q, (prefixed (text q) cur). simpl. auto.
  - simpl in Hp, Hc.
    destruct (IH c (prefixed (text q) c) j prev cur
                (prefixed_text (text q) c) Hp Hc)
      as (prev' & cur' & H1 & H2 & H3 & H4).
    exists prev', cur'. simpl. auto.
Qed.

(** *** The overlap text *)
Lemma last_chars_app n pfx s :
  n <= len s -> last_chars n (pfx ++ s) = last_chars n s.
Proof.
  unfold last_chars, len. intros H. rewrite length_app.
  replace (length pfx + length s - Z.to_nat n)%nat
    with (length pfx + (length s - Z.to_nat n))%nat by lia.
  rewrite drop_app_add'; reflexivity.
Qed.

Lemma overlap_of_app pfx s :
  overlap <= len s -> overlap_of (pfx ++ s) = overlap_of s.
Proof. intros H. unfold overlap_of. rewrite last_chars_app by exact H. reflexivity. Qed.

Lemma overlap_of_suffix s : overlap_of s `suffix_of` s.
Proof.
  unfold overlap_of, last_chars.
  destruct (_ >? 0).
  - rewrite drop_drop. apply suffix_drop.
  - apply suffix_drop.
Qed.

Lemma overlap_of_len s : len (overlap_of s) <= OVERLAP_SIZE.
Proof.
  unfold overlap_of, last_chars, overlap, OVERLAP_SIZE, len.
  destruct (_ >? 0); rewrite ?length_drop; lia.
Qed.

End Overlap.

Section ArticleTexts.

(** Every character of an article comes from the text that was split. *)
Lemma articles_of_chars t ms a c :
  In a (articles_of t ms) -> In c a.2 -> In c t.
Proof.
  induction ms as [|m rest IH]; simpl; [tauto|].
  intros Ha Hc. apply in_app_or in Ha as [Ha|Ha]; [|exact (IH Ha Hc)].
  destruct (nonempty _); [|destruct Ha].
  destruct Ha as [<-|[]]. simpl in Hc.
  apply In_strip, In_slice in Hc. exact Hc.
Qed.

Lemma split_by_articles_chars t a c :
  In a (_split_by_articles t) -> In c a.2 -> In c t.
Proof.
  unfold _split_by_articles.
  destruct (finditer t) as [|m0 rest].
  - intros [<-|[]] Hc. exact Hc.
  - assert (Hpre : In a ((py "preamble", strip (slice t 0 (m_start m0)))
                           :: articles_of t (m0 :: rest)) -> In c a.2 -> In c t).
    { intros [<-|Ha] Hc.
      - simpl in Hc. apply In_strip, In_slice in Hc. exact Hc.
      - exact (articles_of_chars _ _ _ _ Ha Hc). }
    destruct (m_start m0 >? MIN_CHUNK_SIZE); [destruct (nonempty _)|];
      first [exact Hpre | apply articles_of_chars].
Qed.

(** An article without newline is never cut into ["section"] chunks. *)
Lemma segments_no_newline (t : str) :
  ~ In 0x0A%N t -> Forall (fun s => s.1 <> section) (segments t).
Proof.
  intros Hn. unfold segments.
  destruct (len t <=? target_size) eqn:E.
  - constructor; [simpl; discriminate | constructor].
  - rewrite split_by_sections_no_newline by exact Hn. simpl.
    rewrite app_nil_r. unfold section_segments. rewrite E.
    apply Forall_forall. intros s Hs. apply list_elem_of_In in Hs.
    apply in_map_iff in Hs as (x & <- & _). discriminate.
Qed.

Lemma chunk_document_types t doc_id title md :
  blank t = false ->
  List.map chunk_type (chunk_document t doc_id title md)
  = List.map (fun s => s.1.2)
      (flat_map labelled (_split_by_articles (_clean_text t))).
Proof.
  intros Hb. unfold chunk_document, pre_overlap. rewrite Hb.
  rewrite add_overlap_map by reflexivity.
  rewrite build_chunks_eq, number_type. reflexivity.
Qed.

(** [chunk_document] never emits a ["section"] chunk: [_clean_text] has
    turned every newline into a space before the text is split. *)
Lemma chunk_document_never_section t doc_id title md :
  Forall (fun c => chunk_type c <> section) (chunk_document t doc_id title md).
Proof.
  destruct (blank t) eqn:Hb.
  - unfold chunk_document. rewrite Hb. constructor.
  - apply Forall_forall. intros c Hc.
    assert (Hin : In (chunk_type c)
                    (List.map chunk_type (chunk_document t doc_id title md))).
    { apply in_map. apply list_elem_of_In. exact Hc. }
    rewrite chunk_document_types in Hin by exact Hb.
    apply in_map_iff in Hin as (s & Hs & Hin). rewrite <- Hs.
    apply in_flat_map in Hin as (a & Ha & Hin).
    unfold labelled in Hin. apply in_map_iff in Hin as (x & <- & Hx). simpl.
    assert (Hnl : ~ In 0x0A%N a.2).
    { intros H. eapply clean_no_newline. eapply split_by_articles_chars; eauto. }
    pose proof (segments_no_newline _ Hnl) as HF.
    rewrite Forall_forall in HF. apply HF. apply list_elem_of_In. exact Hx.
Qed.

End ArticleTexts.

(* ===================================================================== *)
(** ** Properties of the floating-point rounding *)
(* ===================================================================== *)

Section FloatFacts.
Import PyFloat.
Local Open Scope Q_scope.

Lemma pow2_pos e : 0 < pow2 e.
Proof. apply Qpower_0_lt. reflexivity. Qed.

Lemma pow2_add a b : pow2 (a + b) == pow2 a * pow2 b.
Proof. apply Qpower_plus. discriminate. Qed.

Lemma pow2_le a b : (a <= b)%Z -> pow2 a <= pow2 b.
Proof. intros H. apply Qpower_le_compat_l; [exact H | discriminate]. Qed.

Lemma pow2_lt_inv a b : pow2 a < pow2 b -> (a < b)%Z.
Proof. intros H. apply (Qpower_lt_compat_l_inv 2); [exact H | reflexivity]. Qed.

Lemma pow2_Z a : (0 <= a)%Z -> pow2 a == inject_Z (2 ^ a).
Proof. intros H. unfold pow2. rewrite Zpower_Qpower by exact H. reflexivity. Qed.

Lemma pow2_sub a b : pow2 (a - b) == pow2 a / pow2 b.
Proof. apply Qpower_minus. discriminate. Qed.

(** *** Rounding to the nearest integer *)
Lemma round_half_even_near (x : Q) :
  (Qfloor x <= round_half_even x <= Qfloor x + 1)%Z.
Proof.
  unfold round_half_even.
  destruct (x - inject_Z (Qfloor x) ?= 1 # 2); [|lia|lia].
  destruct (Z.even (Qfloor x)); lia.
Qed.

Lemma round_half_even_Z (n : Z) : round_half_even (inject_Z n) = n.
Proof.
  unfold round_half_even. rewrite Qfloor_Z.
  assert (H : (inject_Z n - inject_Z n ?= 1 # 2) = Lt).
  { apply (proj1 (Qlt_alt _ _)). unfold Qlt. simpl. lia. }
  rewrite H. reflexivity.
Qed.

Lemma round_half_even_mono (x y : Q) :
  x <= y -> (round_half_even x <= round_half_even y)%Z.
Proof.
  intros Hxy. pose proof (Qfloor_resp_le x y Hxy) as Hf.
  pose proof (round_half_even_near x). pose proof (round_half_even_near y).
  destruct (Z.eq_dec (Qfloor x) (Qfloor y)) as [E|N]; [|lia].
  unfold round_half_even in *. rewrite E in *.
  destruct (x - inject_Z (Qfloor y) ?= 1 # 2) eqn:Ex;
    destruct (y - inject_Z (Qfloor y) ?= 1 # 2) eqn:Ey;
    try (destruct (Z.even (Qfloor y)); lia); try lia.
  - apply Qeq_alt in Ex. apply Qlt_alt in Ey. lra.
  - apply Qgt_alt in Ex. apply Qeq_alt in Ey. lra.
  - apply Qgt_alt in Ex. apply Qlt_alt in Ey. lra.
Qed.

Lemma round_half_even_ge (n : Z) (x : Q) :
  inject_Z n <= x -> (n <= round_half_even x)%Z.
Proof.
  intros H. rewrite <- (round_half_even_Z n). apply round_half_even_mono, H.
Qed.

Lemma round_half_even_le (n : Z) (x : Q) :
  x <= inject_Z n -> (round_half_even x <= n)%Z.
Proof.
  intros H. rewrite <- (round_half_even_Z n). apply round_half_even_mono, H.
Qed.

(** *** The exponent *)
Lemma frac_lt (n d a b : Q) : 0 < d -> 0 < b -> n * b < a * d -> n / d < a / b.
Proof.
  intros Hd Hb H. apply Qlt_shift_div_r; [exact Hd|].
  assert (E : a / b * d == a * d / b) by (field; lra).
  rewrite E. apply Qlt_shift_div_l; assumption.
Qed.

Lemma frac_le (n d a b : Q) : 0 < d -> 0 < b -> n * b <= a * d -> n / d <= a / b.
Proof.
  intros Hd Hb H. apply Qle_shift_div_r; [exact Hd|].
  assert (E : a / b * d == a * d / b) by (field; lra).
  rewrite E. apply Qle_shift_div_l; assumption.
Qed.

Lemma ilog2_spec (x : Q) :
  0 < x -> pow2 (ilog2 x) <= x /\ x < pow2 (ilog2 x + 1).
Proof.
  intros Hx. destruct x as [n d].
  assert (Hn : (0 < n)%Z) by (unfold Qlt in Hx; simpl in Hx; lia).
  unfold ilog2. cbn [Qnum Qden].
  pose proof (Z.log2_spec n Hn) as [Ha1 Ha2].
  pose proof (Z.log2_spec (Zpos d) ltac:(lia)) as [Hb1 Hb2].
  pose proof (Z.log2_nonneg n) as Ha0. pose proof (Z.log2_nonneg (Zpos d)) as Hb0.
  set (a := Z.log2 n) in *. set (b := Z.log2 (Zpos d)) in *.
  rewrite Z.pow_succ_r in Ha2, Hb2 by assumption.
  assert (HA : (0 < 2 ^ a)%Z) by (apply Z.pow_pos_nonneg; lia).
  assert (HB : (0 < 2 ^ b)%Z) by (apply Z.pow_pos_nonneg; lia).
  assert (Ex : n # d == inject_Z n / inject_Z (Zpos d)) by apply Qmake_Qdiv.
  assert (E0 : pow2 (a - b) == inject_Z (2 ^ a) / inject_Z (2 ^ b))
    by (rewrite pow2_sub, !pow2_Z by assumption; reflexivity).
  assert (Hd : 0 < inject_Z (Zpos d)) by (rewrite <- (Zlt_Qlt 0); lia).
  assert (HIB : 0 < inject_Z (2 ^ b)) by (rewrite <- (Zlt_Qlt 0); lia).
  assert (HIA : 0 < inject_Z (2 ^ a)) by (rewrite <- (Zlt_Qlt 0); lia).
  destruct (Qle_bool (pow2 (a - b)) (n # d)) eqn:E.
  - apply Qle_bool_iff in E. split; [exact E|].
    rewrite pow2_add, E0, Ex.
    assert (E1 : inject_Z (2 ^ a) / inject_Z (2 ^ b) * pow2 1
                 == inject_Z (2 * 2 ^ a) / inject_Z (2 ^ b)).
    { rewrite inject_Z_mult. unfold pow2. simpl Qpower. field. lra. }
    rewrite E1. apply frac_lt; [exact Hd | exact HIB|].
    rewrite <- !inject_Z_mult, <- Zlt_Qlt. nia.
  - assert (Hlt : n # d < pow2 (a - b)).
    { apply Qnot_le_lt. intros H. apply Qle_bool_iff in H. congruence. }
    replace (a - b - 1 + 1)%Z with (a - b)%Z by lia. split; [|exact Hlt].
    assert (E1 : pow2 (a - b - 1) == inject_Z (2 ^ a) / inject_Z (2 * 2 ^ b)).
    { rewrite pow2_sub, E0, inject_Z_mult. unfold pow2. simpl Qpower. field. lra. }
    rewrite E1, Ex. apply frac_le; [rewrite <- (Zlt_Qlt 0); lia | exact Hd|].
    rewrite <- !inject_Z_mult, <- Zle_Qle. nia.
Qed.

Lemma ilog2_unique (x : Q) (e : Z) :
  pow2 e <= x -> x < pow2 (e + 1) -> ilog2 x = e.
Proof.
  intros H1 H2.
  assert (Hx : 0 < x) by (eapply Qlt_le_trans; [apply (pow2_pos e) | exact H1]).
  destruct (ilog2_spec x Hx) as [S1 S2].
  assert (ilog2 x < e + 1)%Z
    by (apply pow2_lt_inv; eapply Qle_lt_trans; [exact S1 | exact H2]).
  assert (e < ilog2 x + 1)%Z
    by (apply pow2_lt_inv; eapply Qle_lt_trans; [exact H1 | exact S2]).
  lia.
Qed.

Lemma ilog2_mono (x y : Q) : 0 < x -> x <= y -> (ilog2 x <= ilog2 y)%Z.
Proof.
  intros Hx Hxy.
  destruct (ilog2_spec x Hx) as [S1 _].
  destruct (ilog2_spec y (Qlt_le_trans _ _ _ Hx Hxy)) as [_ T2].
  assert (ilog2 x < ilog2 y + 1)%Z; [|lia].
  apply pow2_lt_inv. eapply Qle_lt_trans; [exact S1|].
  eapply Qle_lt_trans; [exact Hxy | exact T2].
Qed.

(** *** Rounding to a float *)
Lemma pow2_split (k e : Z) :
  (0 <= k)%Z -> inject_Z (2 ^ k) * pow2 e == pow2 (k + e).
Proof.
  intros Hk. rewrite pow2_add. rewrite (pow2_Z k Hk). reflexivity.
Qed.

Lemma fl_pos_bounds (x : Q) :
  0 < x ->
  0 <= fl_pos x
  /\ fl_pos x <= pow2 (Z.max (ilog2 x) (-1022) + 1)
  /\ ((-1022 <= ilog2 x)%Z -> pow2 (ilog2 x) <= fl_pos x).
Proof.
  intros Hx. destruct (ilog2_spec x Hx) as [S1 S2].
  unfold fl_pos, ulp_exp.
  set (M := Z.max (ilog2 x) (-1022)).
  pose proof (pow2_pos (M - 52)) as HE.
  assert (E53 : inject_Z (2 ^ 53) * pow2 (M - 52) == pow2 (M + 1)).
  { rewrite pow2_split by lia. replace (53 + (M - 52))%Z with (M + 1)%Z by lia.
    reflexivity. }
  assert (E52 : inject_Z (2 ^ 52) * pow2 (M - 52) == pow2 M).
  { rewrite pow2_split by lia. replace (52 + (M - 52))%Z with M by lia.
    reflexivity. }
  assert (Hs0 : 0 <= x / pow2 (M - 52)).
  { apply Qle_shift_div_l; [exact HE|]. lra. }
  assert (Hup : x / pow2 (M - 52) <= inject_Z (2 ^ 53)).
  { apply Qle_shift_div_r; [exact HE|]. rewrite E53.
    apply Qlt_le_weak. eapply Qlt_le_trans; [exact S2|]. apply pow2_le. lia. }
  apply (round_half_even_ge 0) in Hs0. apply round_half_even_le in Hup.
  split; [|split].
  - apply Qmult_le_0_compat; [|lra]. rewrite <- (Zle_Qle 0). exact Hs0.
  - rewrite <- E53.
    apply Qmult_le_compat_r; [|lra]. rewrite <- Zle_Qle. exact Hup.
  - intros Hn. assert (EM : M = ilog2 x) by lia. rewrite <- EM.
    assert (Hlo : inject_Z (2 ^ 52) <= x / pow2 (M - 52)).
    { apply Qle_shift_div_l; [exact HE|]. rewrite E52, EM. exact S1. }
    apply round_half_even_ge in Hlo.
    rewrite <- E52.
    apply Qmult_le_compat_r; [|lra]. rewrite <- Zle_Qle. exact Hlo.
Qed.

Lemma fl_pos_mono (x y : Q) : 0 < x -> x <= y -> fl_pos x <= fl_pos y.
Proof.
  intros Hx Hxy. assert (Hy : 0 < y) by lra.
  pose proof (ilog2_mono x y Hx Hxy) as He.
  destruct (fl_pos_bounds x Hx) as (_ & Hux & _).
  destruct (fl_pos_bounds y Hy) as (_ & _ & Hly).
  destruct (Z.eq_dec (Z.max (ilog2 x) (-1022)) (Z.max (ilog2 y) (-1022))) as [E|N].
  - unfold fl_pos, ulp_exp. rewrite E.
    pose proof (pow2_pos (Z.max (ilog2 y) (-1022) - 52)) as HE.
    apply Qmult_le_compat_r; [|lra]. rewrite <- Zle_Qle.
    apply round_half_even_mono.
    apply Qmult_le_compat_r; [exact Hxy|].
    apply Qlt_le_weak, Qinv_lt_0_compat, HE.
  - assert (Hn : (-1022 <= ilog2 y)%Z) by lia.
    eapply Qle_trans; [exact Hux|]. eapply Qle_trans; [|exact (Hly Hn)].
    apply pow2_le. lia.
Qed.

Lemma fl_mono (x y : Q) : x <= y -> fl x <= fl y.
Proof.
  intros Hxy. unfold fl.
  destruct (0 ?= x) eqn:Ex; destruct (0 ?= y) eqn:Ey;
    first [apply (proj2 (Qeq_alt _ _)) in Ex | apply (proj2 (Qlt_alt _ _)) in Ex
          | apply (proj2 (Qgt_alt _ _)) in Ex];
    first [apply (proj2 (Qeq_alt _ _)) in Ey | apply (proj2 (Qlt_alt _ _)) in Ey
          | apply (proj2 (Qgt_alt _ _)) in Ey];
    try lra.
  - destruct (fl_pos_bounds y Ey) as (H & _). exact H.
  - apply fl_pos_mono; assumption.
  - assert (H : 0 < - x) by lra. destruct (fl_pos_bounds _ H) as (H0 & _). lra.
  - assert (H : 0 < - x) by lra. destruct (fl_pos_bounds _ H) as (H0 & _).
    destruct (fl_pos_bounds y Ey) as (H1 & _). lra.
  - assert (H : 0 < - y) by lra.
    pose proof (fl_pos_mono (- y) (- x) H ltac:(lra)). lra.
Qed.

Lemma fl_compat (x y : Q) : x == y -> fl x == fl y.
Proof.
  intros H. apply Qle_antisym; apply fl_mono; rewrite H; apply Qle_refl.
Qed.

Lemma fl_0 : fl 0 == 0.
Proof. reflexivity. Qed.

Lemma fl_1 : fl 1 == 1.
Proof. vm_compute. reflexivity. Qed.

Lemma fl_nonneg (x : Q) : 0 <= x -> 0 <= fl x.
Proof. intros H. rewrite <- fl_0. apply fl_mono, H. Qed.

Lemma fl_le_1 (x : Q) : x <= 1 -> fl x <= 1.
Proof. intros H. rewrite <- fl_1. apply fl_mono, H. Qed.

(** *** Truncation and the progress formulas *)
Lemma truncate_range (x : Q) (n : Z) :
  0 <= x -> x <= inject_Z n -> (0 <= truncate x <= n)%Z.
Proof.
  intros H0 Hn. unfold truncate.
  assert (E : (0 ?= x) <> Gt).
  { intros E. apply (proj2 (Qgt_alt _ _)) in E. lra. }
  assert (Hf : (0 <= Qfloor x <= n)%Z).
  { split.
    - change 0%Z with (Qfloor 0). apply Qfloor_resp_le, H0.
    - rewrite <- (Qfloor_Z n). apply Qfloor_resp_le, Hn. }
  destruct (0 ?= x); [exact Hf | exact Hf | congruence].
Qed.

Lemma fl_quotient_unit (i n : nat) :
  (i < n)%nat ->
  0 <= fl (inject_Z (Z.of_nat i) / inject_Z (Z.of_nat n)) <= 1.
Proof.
  intros Hi.
  assert (Hn : 0 < inject_Z (Z.of_nat n)) by (rewrite <- (Zlt_Qlt 0); lia).
  assert (H0 : 0 <= inject_Z (Z.of_nat i)) by (rewrite <- (Zle_Qle 0); lia).
  assert (H1 : inject_Z (Z.of_nat i) <= inject_Z (Z.of_nat n))
    by (rewrite <- Zle_Qle; lia).
  split.
  - apply fl_nonneg. apply Qle_shift_div_l; [exact Hn | lra].
  - apply fl_le_1. apply Qle_shift_div_r; [exact Hn | lra].
Qed.

(** The formula stays between [base] and [base + span] when the float
    of [span] is [span] itself, as it is for an integer of 53 bits or
    fewer. *)
Lemma progress_of_range (base span : Z) (i n : nat) :
  (0 <= span)%Z -> fl (inject_Z span) == inject_Z span -> (i < n)%nat ->
  (base <= progress_of base span i n <= base + span)%Z.
Proof.
  intros Hs Hfl Hi. unfold progress_of.
  destruct (fl_quotient_unit i n Hi) as [H0 H1].
  set (q := fl (inject_Z (Z.of_nat i) / inject_Z (Z.of_nat n))) in *.
  assert (HS : 0 <= inject_Z span) by (rewrite <- (Zle_Qle 0); exact Hs).
  assert (Hp0 : 0 <= inject_Z span * q) by (apply Qmult_le_0_compat; assumption).
  assert (Hp1 : inject_Z span * q <= inject_Z span).
  { rewrite <- (Qmult_1_r (inject_Z span)) at 2.
    rewrite (Qmult_comm (inject_Z span) q), (Qmult_comm (inject_Z span) 1).
    apply Qmult_le_compat_r; assumption. }
  assert (Hr : (0 <= truncate (fl (inject_Z span * q)) <= span)%Z).
  { apply truncate_range; [apply fl_nonneg, Hp0|].
    eapply Qle_trans; [apply fl_mono, Hp1|].
    apply Qle_lteq. right. exact Hfl. }
  lia.
Qed.

(** The three formulas of [run_cycle]. *)
Lemma progress_of_steps (i n : nat) :
  (i < n)%nat ->
  (5 <= progress_of 5 15 i n <= 20
   /\ 20 <= progress_of 20 50 i n <= 70
   /\ 70 <= progress_of 70 25 i n <= 95)%Z.
Proof.
  intros Hi.
  pose proof (progress_of_range 5 15 i n ltac:(lia) ltac:(vm_compute; reflexivity) Hi).
  pose proof (progress_of_range 20 50 i n ltac:(lia) ltac:(vm_compute; reflexivity) Hi).
  pose proof (progress_of_range 70 25 i n ltac:(lia) ltac:(vm_compute; reflexivity) Hi).
  lia.
Qed.

End FloatFacts.

(** The floats of 0.1 and of 1/3, and the float sum 0.1 + 0.2, which is
    not the float of 0.3. *)
Example fl_ex :
  (PyFloat.fl (1 # 10) == 3602879701896397 # 36028797018963968
   /\ PyFloat.fl (1 # 3) == 6004799503160661 # 18014398509481984
   /\ PyFloat.fl (PyFloat.fl (1 # 10) + PyFloat.fl (2 # 10))
      == 5404319552844596 # 18014398509481984
   /\ PyFloat.fl (3 # 10) == 5404319552844595 # 18014398509481984)%Q.
Proof. repeat split; vm_compute; reflexivity. Qed.

(** The float product falls short of 29 at the 30th of 50 candidates:
    the progress is 48, where the exact quotient would give 49. *)
Example progress_of_float_ex :
  progress_of 20 50 29 50 = 48 /\ progress_of 5 15 1 3 = 10.
Proof. split; vm_compute; reflexivity. Qed.


(* ===================================================================== *)
(** ** Stripping *)
(* ===================================================================== *)

Section StripFacts.

Lemma lstrip_app a b :
  lstrip (a ++ b) = if has_nonspace a then lstrip a ++ b else lstrip b.
Proof.
  induction a as [|c r IH]; [reflexivity|]. simpl.
  destruct (isspace c); simpl; [exact IH | reflexivity].
Qed.

Lemma rstrip_nil s : rstrip s = [] <-> has_nonspace s = false.
Proof.
  induction s as [|c r IH]; simpl; [tauto|].
  destruct (rstrip r) as [|d r'] eqn:E.
  - destruct (isspace c); simpl; [tauto|]. split; discriminate.
  - destruct (has_nonspace r); [|destruct IH as [_ IH]; discriminate (IH eq_refl)].
    rewrite orb_true_r. split; discriminate.
Qed.

(** [strip] removes the leading, then the trailing white space. *)
Lemma rev_lstrip_rev s : rev (lstrip (rev s)) = rstrip s.
Proof.
  induction s as [|c r IH]; [reflexivity|]. simpl rev.
  rewrite lstrip_app, has_nonspace_rev. simpl rstrip.
  destruct (has_nonspace r) eqn:E.
  - rewrite rev_app_distr, IH. simpl.
    destruct (rstrip r) eqn:Er; [|reflexivity].
    apply rstrip_nil in Er. congruence.
  - assert (Er : rstrip r = []) by (apply rstrip_nil; exact E).
    rewrite Er. simpl. destruct (isspace c); reflexivity.
Qed.

Lemma strip_eq s : strip s = rstrip (lstrip s).
Proof. unfold strip. apply rev_lstrip_rev. Qed.

Lemma lstrip_head s c r : lstrip s = c :: r -> isspace c = false.
Proof.
  induction s as [|d s IH]; simpl; [discriminate|].
  destruct (isspace d) eqn:E; [exact IH|]. intros H. inversion H; subst. exact E.
Qed.

Lemma rstrip_head s c r : rstrip s = c :: r -> exists r', s = c :: r'.
Proof.
  destruct s as [|d s]; simpl; [discriminate|].
  destruct (rstrip s) as [|e s'].
  - destruct (isspace d); [discriminate|]. intros H. inversion H; subst. eauto.
  - intros H. inversion H; subst. eauto.
Qed.

Lemma rstrip_last s d : last (rstrip s) = Some d -> isspace d = false.
Proof.
  induction s as [|c s IH]; simpl; [discriminate|].
  destruct (rstrip s) as [|e s'] eqn:E.
  - destruct (isspace c) eqn:Ec; simpl; [discriminate|].
    intros H. inversion H; subst. exact Ec.
  - change (last (c :: e :: s')) with (last (e :: s')). exact IH.
Qed.

Lemma stripped_strip s : stripped (strip s) = true.
Proof.
  rewrite strip_eq. unfold stripped.
  destruct (rstrip (lstrip s)) as [|c r] eqn:E; [reflexivity|].
  destruct (last (c :: r)) as [d|] eqn:El; [|reflexivity].
  rewrite <- E in El. apply rstrip_last in El.
  apply rstrip_head in E as [r' E]. apply lstrip_head in E.
  rewrite E, El. reflexivity.
Qed.

Lemma strip_head s c r : strip s = c :: r -> isspace c = false.
Proof.
  rewrite strip_eq. intros H. apply rstrip_head in H as [r' H].
  exact (lstrip_head _ _ _ H).
Qed.

Lemma blank_head a r : isspace a = false -> blank (a :: r) = false.
Proof.
  intros H. rewrite blank_has_nonspace. simpl. rewrite H. reflexivity.
Qed.

(** White space apart, the characters stay as they are. *)
Lemma filter_lstrip s :
  List.filter (fun c => negb (isspace c)) (lstrip s)
  = List.filter (fun c => negb (isspace c)) s.
Proof.
  induction s as [|c r IH]; [reflexivity|]. simpl.
  destruct (isspace c) eqn:E; simpl; [exact IH|]. rewrite E. reflexivity.
Qed.

Lemma filter_rev {A} (p : A -> bool) (l : list A) :
  List.filter p (rev l) = rev (List.filter p l).
Proof.
  induction l as [|x l IH]; [reflexivity|]. simpl.
  rewrite List.filter_app, IH. simpl. destruct (p x); simpl.
  - reflexivity.
  - rewrite app_nil_r. reflexivity.
Qed.

Lemma filter_strip s :
  List.filter (fun c => negb (isspace c)) (strip s)
  = List.filter (fun c => negb (isspace c)) s.
Proof.
  unfold strip. rewrite filter_rev, filter_lstrip, filter_rev, rev_involutive.
  apply filter_lstrip.
Qed.

Lemma filter_sub_ws_go b s :
  List.filter (fun c => negb (isspace c)) (sub_ws_go b s)
  = List.filter (fun c => negb (isspace c)) s.
Proof.
  revert b. induction s as [|c r IH]; intros b; [reflexivity|]. simpl.
  destruct (isspace c) eqn:E.
  - destruct b; simpl; apply IH.
  - simpl. rewrite E. simpl. rewrite IH. reflexivity.
Qed.

Lemma filter_clean_text t :
  List.filter (fun c => negb (isspace c)) (_clean_text t)
  = List.filter (fun c => negb (isspace c)) t.
Proof.
  unfold _clean_text. rewrite filter_strip, sub_newlines_after_sub_ws.
  apply filter_sub_ws_go.
Qed.

Lemma clean_text_head t c r : _clean_text t = c :: r -> isspace c = false.
Proof. unfold _clean_text. apply strip_head. Qed.

End StripFacts.

(* ===================================================================== *)
(** ** The markers and the articles, in the order of the text *)
(* ===================================================================== *)

Section ArticleOrder.

(** Every match lies in the text and starts on a character that is not
    white space. *)
Lemma finditer_go_all s : forall pos skip,
  Forall (fun m => pos <= m_start m < pos + len s
                   /\ exists c r, drop (Z.to_nat (m_start m - pos)) s = c :: r
                                  /\ isspace c = false)
         (finditer_go pos skip s).
Proof.
  induction s as [|c r IH]; intros pos skip; simpl; [constructor|].
  assert (Hlen : len (c :: r) = 1 + len r) by (unfold len; simpl length; lia).
  assert (Hrec : forall k,
            Forall (fun m => pos <= m_start m < pos + len (c :: r)
                             /\ exists c0 r0,
                                  drop (Z.to_nat (m_start m - pos)) (c :: r) = c0 :: r0
                                  /\ isspace c0 = false)
                   (finditer_go (pos + 1) k r)).
  { intros k. eapply Forall_impl; [apply IH|]. simpl.
    intros m (Hb & c0 & r0 & Hd & Hs). split; [lia|].
    exists c0, r0. split; [|exact Hs].
    replace (Z.to_nat (m_start m - pos))
      with (S (Z.to_nat (m_start m - (pos + 1)))) by lia.
    exact Hd. }
  destruct skip as [|k]; [|apply Hrec].
  destruct (match_article (c :: r)) as [[n num]|] eqn:Em; [|apply Hrec].
  constructor; [|apply Hrec]. simpl.
  pose proof (len_nonneg r). split; [lia|].
  rewrite Z.sub_diag. simpl.
  apply match_article_head in Em as (c0 & r0 & Heq & Hs).
  inversion Heq; subst. eauto.
Qed.

(** The matches come in the order of their positions. *)
Lemma finditer_go_sorted s : forall pos skip,
  StronglySorted (fun m m' => m_start m < m_start m') (finditer_go pos skip s).
Proof.
  induction s as [|c r IH]; intros pos skip; simpl; [constructor|].
  destruct skip as [|k]; [|apply IH].
  destruct (match_article (c :: r)) as [[n num]|]; [|apply IH].
  constructor; [apply IH|].
  eapply Forall_impl; [apply finditer_go_all|]. simpl.
  intros m (Hb & _). lia.
Qed.

Lemma finditer_all t :
  Forall (fun m => 0 <= m_start m < len t
                   /\ exists c r, drop (Z.to_nat (m_start m)) t = c :: r
                                  /\ isspace c = false)
         (finditer t).
Proof.
  unfold finditer. eapply Forall_impl; [apply finditer_go_all|]. simpl.
  intros m (Hb & c & r & Hd & Hs). split; [lia|].
  rewrite Z.sub_0_r in Hd. eauto.
Qed.

Lemma finditer_sorted t :
  StronglySorted (fun m m' => m_start m < m_start m') (finditer t).
Proof. apply finditer_go_sorted. Qed.

(** No marker gives an empty article: the loop of [_split_by_articles]
    keeps one article for each. *)
Lemma articles_of_marked t ms :
  StronglySorted (fun m m' => m_start m < m_start m') ms ->
  Forall (fun m => 0 <= m_start m < len t
                   /\ exists c r, drop (Z.to_nat (m_start m)) t = c :: r
                                  /\ isspace c = false) ms ->
  articles_of t ms = marked_articles t ms.
Proof.
  induction ms as [|m rest IH]; [reflexivity|].
  intros Hs Hall. inversion Hs as [|? ? Hs' Hlt]; subst.
  inversion Hall as [|? ? (Hb & c & r & Hd & Hc) Hall']; subst.
  cbn [articles_of marked_articles].
  set (stop := match rest with m' :: _ => m_start m' | [] => len t end).
  assert (Hstop : 0 <= m_start m < stop).
  { subst stop. destruct rest as [|m' rest']; [lia|].
    inversion Hlt; subst. lia. }
  rewrite (article_text_nonempty t m stop c r Hstop Hd Hc).
  rewrite (IH Hs' Hall'). reflexivity.
Qed.

Lemma length_marked_articles t ms : length (marked_articles t ms) = length ms.
Proof. induction ms as [|m rest IH]; [reflexivity|]. simpl. rewrite IH. reflexivity. Qed.

Lemma marked_articles_len t ms :
  Forall (fun a : str * str => len a.2 <= len t) (marked_articles t ms).
Proof.
  induction ms as [|m rest IH]; [constructor|].
  cbn [marked_articles]. constructor; [|exact IH]. simpl.
  unfold len. apply inj_le.
  etransitivity; [apply length_strip | apply length_slice].
Qed.

(** [_split_by_articles] on a text that does not start with white
    space, as a cleaned text does not: the preamble, if the first
    marker is far enough, then one article for each marker. *)
Lemma split_by_articles_marked t :
  (forall c r, t = c :: r -> isspace c = false) ->
  _split_by_articles t
  = match finditer t with
    | [] => [(py "general", t)]
    | m0 :: _ =>
        (if m_start m0 >? MIN_CHUNK_SIZE
         then [(py "preamble", strip (slice t 0 (m_start m0)))] else [])
        ++ marked_articles t (finditer t)
    end.
Proof.
  intros Hhead. unfold _split_by_articles.
  pose proof (finditer_all t) as Hall. pose proof (finditer_sorted t) as Hs.
  destruct (finditer t) as [|m0 rest] eqn:E; [reflexivity|].
  rewrite (articles_of_marked t (m0 :: rest) Hs Hall).
  destruct (m_start m0 >? MIN_CHUNK_SIZE) eqn:Eg; [|reflexivity].
  apply Z.gtb_lt in Eg. unfold MIN_CHUNK_SIZE in Eg.
  inversion Hall as [|? ? (Hb & _) _]; subst.
  assert (Hne : nonempty (strip (slice t 0 (m_start m0))) = true).
  { rewrite nonempty_strip. destruct t as [|c r].
    - unfold len in Hb. simpl in Hb. lia.
    - unfold slice. simpl drop.
      destruct (Z.to_nat (m_start m0) - Z.to_nat 0)%nat eqn:En; [lia|].
      simpl. rewrite (Hhead c r eq_refl). reflexivity. }
  rewrite Hne. reflexivity.
Qed.

End ArticleOrder.

(* ===================================================================== *)
(** ** Properties of the chunker *)
(* ===================================================================== *)

(** C1. "No chunk's pre-overlap text exceeds max_chunk_size" does not
    hold of the code.  [_recursive_split] stops at the first separator
    that occurs in the text ([". "] here) and emits a part longer than the
    target size as it is, without trying the finer separators and without
    the hard split: the only long sentence of the document becomes one
    chunk of 3608 characters, more than the 3200 of [MAX_CHUNK_SIZE]. *)
Theorem C1_long_sentence_exceeds_max :
  List.map (fun c => (chunk_type c, len (text c)))
           (pre_overlap long_sentence_doc (Some (py "DOC")) (Some []) None)
  = [(sub_section, 3608); (sub_section, 5)]
  /\ MAX_CHUNK_SIZE < 3608
  /\ (exists c, chunk_document long_sentence_doc (Some (py "DOC")) (Some []) None !! 0%nat = Some c
                /\ len (text c) = 3608).
Proof.
  split; [vm_compute; reflexivity|].
  split; [reflexivity|].
  eexists. split; [vm_compute; reflexivity|]. vm_compute. reflexivity.
Qed.

Section ChunkCount.

Lemma finditer_start_bound t m rest :
  finditer t = m :: rest -> 0 <= m_start m < len t.
Proof.
  unfold finditer. intros H. apply finditer_go_head in H as (Hb & _). lia.
Qed.

Lemma segments_small (t : str) :
  len t <= TARGET_CHUNK_SIZE -> segments t = [(full_article, t)].
Proof.
  intros H. unfold segments, target_size.
  destruct (len t <=? TARGET_CHUNK_SIZE) eqn:E; [reflexivity|].
  apply Z.leb_gt in E. lia.
Qed.

(** A short text with at most one article marker is one article. *)
Lemma short_text_one_article (t : str) :
  t <> [] -> len t < MIN_CHUNK_SIZE -> (length (finditer t) <= 1)%nat ->
  exists a txt, _split_by_articles t = [(a, txt)] /\ len txt <= len t.
Proof.
  intros Hne Hlen Hm. unfold _split_by_articles.
  destruct (finditer t) as [|m rest] eqn:E.
  - exists (py "general"), t. split; [reflexivity | lia].
  - destruct rest as [|m' rest']; [|simpl in Hm; lia].
    pose proof (finditer_start_bound _ _ _ E) as Hb.
    destruct (articles_of_head t m [] E) as (txt & -> & _ & Hl).
    assert (Hgt : (m_start m >? MIN_CHUNK_SIZE) = false).
    { rewrite Z.gtb_ltb. apply Z.ltb_ge. lia. }
    rewrite Hgt. exists (m_num m ++ py "-modda"), txt.
    split; [reflexivity | unfold len; lia].
Qed.

Lemma labelled_articles (articles : list (str * str)) :
  List.map (fun s => Some s.1.1) (flat_map labelled articles)
  = flat_map (fun a => repeat (Some a.1) (length (segments a.2))) articles.
Proof.
  induction articles as [|a r IH]; [reflexivity|]. simpl.
  rewrite List.map_app, IH. f_equal.
  unfold labelled. induction (segments a.2) as [|s ss IHs]; [reflexivity|].
  simpl. rewrite IHs. reflexivity.
Qed.

Lemma number_triples doc_id md n segs :
  List.map (fun c => (article c, chunk_type c, text c)) (number doc_id md n segs)
  = List.map (fun s => (Some s.1.1, s.1.2, s.2)) segs.
Proof.
  revert n. induction segs as [|[[a ty] t] r IH]; intros n; simpl; [reflexivity|].
  rewrite IH. reflexivity.
Qed.

Lemma labelled_small articles :
  Forall (fun a => len a.2 <= TARGET_CHUNK_SIZE) articles ->
  flat_map labelled articles
  = List.map (fun a => (a.1, full_article, a.2)) articles.
Proof.
  induction 1 as [|a r Ha Hr IH]; [reflexivity|]. simpl.
  rewrite IH. unfold labelled. rewrite segments_small by exact Ha. reflexivity.
Qed.

Lemma number_text doc_id md n segs :
  List.map text (number doc_id md n segs) = List.map snd segs.
Proof.
  revert n. induction segs as [|[[a ty] t] r IH]; intros n; simpl; [reflexivity|].
  rewrite IH. reflexivity.
Qed.

Lemma labelled_texts (articles : list (str * str)) :
  List.map snd (flat_map labelled articles)
  = flat_map (fun a => List.map snd (segments a.2)) articles.
Proof.
  induction articles as [|a r IH]; [reflexivity|]. simpl.
  rewrite List.map_app, IH. f_equal.
  unfold labelled. rewrite List.map_map. reflexivity.
Qed.

Lemma chunk_document_eq t doc_id title md :
  blank t = false ->
  chunk_document t doc_id title md
  = _add_overlap (number doc_id (base_metadata_of doc_id title md) 0
                    (flat_map labelled (_split_by_articles (_clean_text t)))).
Proof.
  intros Hb. unfold chunk_document, pre_overlap.
  rewrite Hb, build_chunks_eq. reflexivity.
Qed.

Lemma length_chunk_document t doc_id title md :
  blank t = false ->
  length (chunk_document t doc_id title md)
  = length (flat_map labelled (_split_by_articles (_clean_text t))).
Proof.
  intros Hb. rewrite chunk_document_eq by exact Hb.
  rewrite length_add_overlap, length_number. reflexivity.
Qed.

(** A document that is not blank gives a chunk. *)
Lemma chunk_document_nonnil t doc_id title md :
  blank t = false -> chunk_document t doc_id title md <> [].
Proof.
  intros Hb Hnil. pose proof (length_chunk_document t doc_id title md Hb) as Hlen.
  rewrite Hnil in Hlen. simpl in Hlen.
  apply (flat_map_labelled_nonnil (_split_by_articles (_clean_text t))).
  - apply split_by_articles_nonnil.
  - destruct (flat_map _ _); [reflexivity | discriminate].
Qed.

(** The articles of a cleaned text. *)
Lemma split_by_articles_clean t :
  _split_by_articles (_clean_text t)
  = match finditer (_clean_text t) with
    | [] => [(py "general", _clean_text t)]
    | m0 :: _ =>
        (if m_start m0 >? MIN_CHUNK_SIZE
         then [(py "preamble", strip (slice (_clean_text t) 0 (m_start m0)))]
         else [])
        ++ marked_articles (_clean_text t) (finditer (_clean_text t))
    end.
Proof.
  apply split_by_articles_marked. intros c r. apply clean_text_head.
Qed.

(** A document below [MIN_CHUNK_SIZE] gives one chunk for each article
    marker of its cleaned text, and one chunk when there is none. *)
Lemma short_document_chunks t doc_id title md :
  blank t = false -> len t < MIN_CHUNK_SIZE ->
  length (chunk_document t doc_id title md)
  = Nat.max 1 (length (finditer (_clean_text t))).
Proof.
  intros Hb Hlen. rewrite length_chunk_document by exact Hb.
  assert (Hcl : len (_clean_text t) < MIN_CHUNK_SIZE).
  { pose proof (length_clean t). unfold len in *. lia. }
  rewrite split_by_articles_clean.
  pose proof (finditer_all (_clean_text t)) as Hall.
  destruct (finditer (_clean_text t)) as [|m0 rest] eqn:E.
  - rewrite labelled_small; [reflexivity|].
    constructor; [|constructor]. simpl.
    unfold MIN_CHUNK_SIZE, TARGET_CHUNK_SIZE in *. lia.
  - inversion Hall as [|? ? (Hm & _) _]; subst.
    assert (Hg : (m_start m0 >? MIN_CHUNK_SIZE) = false)
      by (rewrite Z.gtb_ltb; apply Z.ltb_ge; lia).
    rewrite Hg. cbn [app]. rewrite labelled_small.
    + rewrite length_map, length_marked_articles. simpl. lia.
    + eapply Forall_impl; [apply marked_articles_len|]. simpl.
      intros a Ha. unfold MIN_CHUNK_SIZE, TARGET_CHUNK_SIZE in *. lia.
Qed.

End ChunkCount.

(** C2 (counterexample).  A document of 19 characters, below
    [MIN_CHUNK_SIZE], with two article markers yields two chunks, not
    exactly one. *)
Lemma C2_two_markers_two_chunks :
  len (py "1-modda a 2-modda b") < MIN_CHUNK_SIZE
  /\ List.map (fun c => (index c, article c, text c))
       (chunk_document (py "1-modda a 2-modda b") (Some (py "DOC")) (Some []) None)
     = [ (0, Some (py "1-modda"), py "1-modda a");
         (1, Some (py "2-modda"), py "2-modda b") ].
Proof. split; vm_compute; reflexivity. Qed.

(** C2 (amended).  Empty or white-space-only input gives no chunk.  Any
    other input gives at least one chunk, and the [index] fields are
    0, 1, 2, ... in output order.  The chunks follow the order of the
    source: the article markers are found in the order of their
    positions in the cleaned text, whose characters are those of the
    input, white space apart; the articles are the preamble, if the
    first marker starts after more than [MIN_CHUNK_SIZE] characters,
    then one article for each marker, in that order, cut from the
    marker to the next one; and the chunks are those of the first
    article, then those of the second, and so on, each article giving at
    least one, with the texts of its pieces before the overlap pass.
    Without any marker the whole text is one article.  A document
    shorter than [MIN_CHUNK_SIZE] gives one chunk for each article
    marker of its cleaned text: exactly one chunk if there is at most
    one marker. *)
Theorem C2_chunks_indexed_in_article_order
    (t : str) (doc_id title : pyval) (md : option (gmap string pyval)) :
  let out := chunk_document t doc_id title md in
  let cleaned := _clean_text t in
  let markers := finditer cleaned in
  let articles := _split_by_articles cleaned in
  (blank t = true -> out = [])
  /\ (blank t = false ->
        out <> []
        /\ List.map index out = seqZ 0 (len out)
        /\ List.filter (fun c => negb (isspace c)) cleaned
           = List.filter (fun c => negb (isspace c)) t
        /\ StronglySorted (fun m m' => m_start m < m_start m') markers
        /\ Forall (fun m => 0 <= m_start m < len cleaned) markers
        /\ articles
           = match markers with
             | [] => [(py "general", cleaned)]
             | m0 :: _ =>
                 (if m_start m0 >? MIN_CHUNK_SIZE
                  then [(py "preamble", strip (slice cleaned 0 (m_start m0)))]
                  else [])
                 ++ marked_articles cleaned markers
             end
        /\ List.map article out
           = flat_map (fun a => repeat (Some a.1) (length (segments a.2))) articles
        /\ List.map text (pre_overlap t doc_id title md)
           = flat_map (fun a => List.map snd (segments a.2)) articles
        /\ Forall (fun a => (0 < length (segments a.2))%nat) articles)
  /\ (blank t = false -> len t < MIN_CHUNK_SIZE ->
        length out = Nat.max 1 (length markers)
        /\ ((length markers <= 1)%nat -> length out = 1%nat)).
Proof.
  cbv zeta. split; [|split].
  - intros Hb. unfold chunk_document. rewrite Hb. reflexivity.
  - intros Hb.
    pose proof (chunk_document_eq t doc_id title md Hb) as Hout.
    pose proof (length_chunk_document t doc_id title md Hb) as Hlen.
    split; [apply chunk_document_nonnil, Hb|].
    split; [unfold len at 1; rewrite Hlen, Hout;
            rewrite add_overlap_map by reflexivity; apply number_index|].
    split; [apply filter_clean_text|].
    split; [apply finditer_sorted|].
    split; [eapply Forall_impl; [apply finditer_all|]; simpl; tauto|].
    split; [apply split_by_articles_clean|].
    split; [rewrite Hout, add_overlap_map by reflexivity;
            rewrite number_article; apply labelled_articles|].
    split; [unfold pre_overlap; rewrite build_chunks_eq, number_text;
            apply labelled_texts|].
    apply Forall_forall. intros a _.
    pose proof (segments_nonnil a.2). destruct (segments a.2); [congruence|].
    simpl. lia.
  - intros Hb Hlen.
    pose proof (short_document_chunks t doc_id title md Hb Hlen) as Hn.
    split; [exact Hn|]. intros Hm. rewrite Hn.
    pose proof (Nat.le_max_l 1 (length (finditer (_clean_text t)))).
    pose proof (Nat.max_lub 1 (length (finditer (_clean_text t))) 1 (Nat.le_refl 1) Hm).
    apply Nat.le_antisymm; assumption.
Qed.

(** C2 (witness): the scenario ["1-modda. Short text."], and a document
    with two markers after a heading. *)
Lemma C2_chunks_indexed_in_article_order_witness :
  let out := chunk_document (py "1-modda. Short text.") (Some (py "TEST-1")) None None in
  let two := chunk_document (py "QAROR  2-modda.  Ikki. 1-modda. Bir.")
                            (Some (py "DOC")) (Some []) None in
  chunk_document (py "  ") (Some (py "DOC")) (Some []) None = []
  /\ out <> []
  /\ List.map index out = seqZ 0 (len out)
  /\ length out = 1%nat
  /\ List.map (fun m => (m_start m, m_num m))
       (finditer (_clean_text (py "QAROR  2-modda.  Ikki. 1-modda. Bir.")))
     = [(6, py "2"); (21, py "1")]
  /\ List.map article two = [Some (py "2-modda"); Some (py "1-modda")]
  /\ List.map text two = [py "2-modda. Ikki."; py "1-modda. Bir."].
Proof.
  cbv zeta.
  pose proof (C2_chunks_indexed_in_article_order (py "  ") (Some (py "DOC")) (Some []) None) as H0.
  pose proof (C2_chunks_indexed_in_article_order
                (py "1-modda. Short text.") (Some (py "TEST-1")) None None) as H1.
  pose proof (C2_chunks_indexed_in_article_order
                (py "QAROR  2-modda.  Ikki. 1-modda. Bir.") (Some (py "DOC")) (Some []) None) as H2.
  cbv zeta in H0, H1, H2.
  destruct H0 as (H0 & _). destruct H1 as (_ & Hb & Hc).
  destruct H2 as (_ & H2 & _).
  specialize (H0 eq_refl). specialize (Hb eq_refl).
  destruct (H2 eq_refl) as (_ & _ & _ & _ & _ & _ & Hart & _).
  destruct Hb as (Hne & Hidx & _).
  split; [exact H0|]. split; [exact Hne|]. split; [exact Hidx|].
  split; [apply Hc; [reflexivity | reflexivity | vm_compute; lia]|].
  split; [vm_compute; reflexivity|].
  split; [rewrite Hart; vm_compute; reflexivity | vm_compute; reflexivity].
Defined.

(** The overlap pass on any list of chunks. *)
Lemma add_overlap_spec (chunks : list Chunk) :
  length (_add_overlap chunks) = length chunks
  /\ _add_overlap chunks !! 0%nat = chunks !! 0%nat
  /\ forall i prev cur,
       chunks !! i = Some prev -> chunks !! (S i) = Some cur ->
       exists prev' cur',
         _add_overlap chunks !! i = Some prev'
         /\ _add_overlap chunks !! (S i) = Some cur'
         /\ cur' = set_text cur (text cur')
         /\ (OVERLAP_SIZE < len (text prev) ->
               text cur' = py "..." ++ overlap_of (text prev) ++ [0x0A; 0x0A]%N ++ text cur)
         /\ (len (text prev') <= OVERLAP_SIZE -> text cur' = text cur).
Proof.
  split; [apply length_add_overlap|].
  destruct chunks as [|c0 r]; [split; [reflexivity | intros i ? ? H; destruct i; discriminate]|].
  rewrite add_overlap_cons. split; [reflexivity|].
  intros i prev cur Hp Hc. simpl in Hc.
  destruct (overlap_chain_lookup r c0 c0 i prev cur
              (ex_intro _ [] eq_refl) Hp Hc)
    as (prev' & cur' & H1 & H2 & (pfx & H3) & H4).
  exists prev', cur'. split; [exact H1|]. split; [exact H2|].
  split; [rewrite H4; apply prefixed_fields|].
  split.
  - intros Hlen. rewrite H4. unfold prefixed.
    assert (Hgt : (len (text prev') >? overlap) = true).
    { rewrite Z.gtb_ltb. apply Z.ltb_lt. rewrite H3, len_app.
      pose proof (len_nonneg pfx). unfold overlap. lia. }
    rewrite Hgt. destruct cur. simpl. unfold with_overlap.
    rewrite H3, overlap_of_app; [reflexivity|]. unfold overlap. lia.
  - intros Hlen. rewrite H4. unfold prefixed.
    assert (Hgt : (len (text prev') >? overlap) = false).
    { rewrite Z.gtb_ltb. apply Z.ltb_ge. unfold overlap. lia. }
    rewrite Hgt. reflexivity.
Qed.

(** C3 (counterexample).  Two short articles: the second chunk is left as
    it was built, without ellipsis and without text of the first. *)
Lemma C3_short_predecessor_no_prefix :
  List.map text (pre_overlap (py "1-modda a 2-modda b") (Some (py "DOC")) (Some []) None)
  = [py "1-modda a"; py "2-modda b"]
  /\ List.map text (chunk_document (py "1-modda a 2-modda b") (Some (py "DOC")) (Some []) None)
     = [py "1-modda a"; py "2-modda b"].
Proof. split; vm_compute; reflexivity. Qed.

(** What the amended C3 leaves open: the pass reads the predecessor's
    text as already rewritten.  The second article has 67 characters, 467
    once prefixed; the third chunk then gets a prefix cut from those 467,
    blank line included (at index 332 of its text). *)
Example overlap_reads_rewritten_text :
  List.map (fun c => len (text c)) (pre_overlap three_article_doc (Some (py "DOC")) (Some []) None)
  = [508; 67; 14]
  /\ List.map (fun c => (len (text c), find 0x0A%N (text c)))
       (chunk_document three_article_doc (Some (py "DOC")) (Some []) None)
     = [(508, -1); (467, 398); (417, 332)].
Proof. split; vm_compute; reflexivity. Qed.

(** C3 (amended).  In the overlap pass of [chunk_document] the first chunk
    is never prefixed and only texts change.  A chunk whose predecessor's
    pre-overlap text is longer than [OVERLAP_SIZE] gets, in front of its
    own text, an ellipsis, the overlap text of the predecessor and a blank
    line; the overlap text is the predecessor's last 400 characters, cut
    after their first space when that space is not their first character,
    hence a suffix of the predecessor's text of at most 400 characters.
    A chunk whose predecessor's text, as the pass left it, has at most
    [OVERLAP_SIZE] characters is left unchanged. *)
Theorem C3_overlap_prefix
    (t : str) (doc_id title : pyval) (md : option (gmap string pyval)) :
  blank t = false ->
  let pre := pre_overlap t doc_id title md in
  let out := chunk_document t doc_id title md in
  length out = length pre
  /\ out !! 0%nat = pre !! 0%nat
  /\ forall i prev cur,
       pre !! i = Some prev -> pre !! (S i) = Some cur ->
       exists prev' cur',
         out !! i = Some prev' /\ out !! (S i) = Some cur'
         /\ cur' = set_text cur (text cur')
         /\ (OVERLAP_SIZE < len (text prev) ->
               text cur' = py "..." ++ overlap_of (text prev) ++ [0x0A; 0x0A]%N ++ text cur
               /\ overlap_of (text prev) `suffix_of` text prev
               /\ len (overlap_of (text prev)) <= OVERLAP_SIZE)
         /\ (len (text prev') <= OVERLAP_SIZE -> text cur' = text cur).
Proof.
  intros Hb. cbv zeta. unfold chunk_document. rewrite Hb.
  destruct (add_overlap_spec (pre_overlap t doc_id title md)) as (Hlen & H0 & Hi).
  split; [exact Hlen|]. split; [exact H0|].
  intros i prev cur Hp Hc.
  destruct (Hi i prev cur Hp Hc) as (prev' & cur' & H1 & H2 & H3 & H4 & H5).
  exists prev', cur'. repeat (split; [assumption|]).
  split; [|exact H5].
  intros Hlt. split; [exact (H4 Hlt)|].
  split; [apply overlap_of_suffix | apply overlap_of_len].
Qed.

(** C3 (witness): the second chunk carries the overlap of the first. *)
Lemma C3_overlap_prefix_witness :
  exists prev cur cur',
    pre_overlap two_article_doc (Some (py "DOC")) (Some []) None !! 0%nat = Some prev
    /\ pre_overlap two_article_doc (Some (py "DOC")) (Some []) None !! 1%nat = Some cur
    /\ chunk_document two_article_doc (Some (py "DOC")) (Some []) None !! 1%nat = Some cur'
    /\ OVERLAP_SIZE < len (text prev)
    /\ text cur' = py "..." ++ overlap_of (text prev) ++ [0x0A; 0x0A]%N ++ text cur.
Proof.
  pose proof (C3_overlap_prefix two_article_doc (Some (py "DOC")) (Some []) None eq_refl) as H.
  cbv zeta in H. destruct H as (_ & _ & H).
  edestruct (H 0%nat) as (prev' & cur' & _ & H2 & _ & H4 & _).
  - vm_compute. reflexivity.
  - vm_compute. reflexivity.
  - eexists _, _, cur'.
    split; [vm_compute; reflexivity|]. split; [vm_compute; reflexivity|].
    split; [exact H2|].
    assert (Hlt : OVERLAP_SIZE < 508) by reflexivity.
    split; [exact Hlt|]. exact (proj1 (H4 Hlt)).
Defined.

(** C4.  The claim does not hold of the code.  On an article of two
    paragraphs, 3002 characters in all, [_split_by_sections] finds the
    two paragraphs and the loop would emit them as two ["section"]
    chunks; but [chunk_document] calls [_clean_text] first, whose
    white-space pass turns the blank line into one space, so that the
    article reaches the splitter as a single paragraph and comes out as
    ["sub_section"] chunks.  For the same reason no input at all makes
    [chunk_document] emit a ["section"] chunk. *)
Theorem C4_paragraphs_never_sections :
  _split_by_sections two_paragraph_doc = [repeat 0x61%N 1500; repeat 0x62%N 1500]
  /\ List.map (fun s => (s.1, len s.2)) (segments two_paragraph_doc)
     = [(section, 1500); (section, 1500)]
  /\ _clean_text two_paragraph_doc
     = repeat 0x61%N 1500 ++ py " " ++ repeat 0x62%N 1500
  /\ List.map (fun c => (chunk_type c, len (text c)))
       (pre_overlap two_paragraph_doc (Some (py "DOC")) (Some []) None)
     = [(sub_section, 1500); (sub_section, 1500)]
  /\ forall t doc_id title md,
       Forall (fun c => chunk_type c <> section) (chunk_document t doc_id title md).
Proof.
  split; [vm_compute; reflexivity|].
  split; [vm_compute; reflexivity|].
  split; [vm_compute; reflexivity|].
  split; [vm_compute; reflexivity|].
  apply chunk_document_never_section.
Qed.

Section Markers.

Lemma finditer_go_no_match s : forall pos,
  search_from match_number_dash_word s = false ->
  search_from match_word_number s = false ->
  finditer_go pos 0 s = [].
Proof.
  induction s as [|c r IH]; intros pos H1 H2; [reflexivity|].
  cbn [search_from] in H1, H2. cbn [finditer_go]. unfold match_article.
  destruct (match_number_dash_word (c :: r)); [discriminate|].
  destruct (match_word_number (c :: r)); [discriminate|].
  apply IH; assumption.
Qed.

(** The part of C5 that holds: a text in which none of the patterns of
    [ARTICLE_PATTERNS] occurs is one article, labelled ["general"]. *)
Lemma split_by_articles_no_marker t :
  Forall (fun p => re_search p t = false) ARTICLE_PATTERNS ->
  _split_by_articles t = [(py "general", t)].
Proof.
  intros H. unfold ARTICLE_PATTERNS in H.
  apply Forall_cons in H as [H1 H]. apply Forall_cons in H as [H2 _].
  unfold re_search in H1, H2. simpl in H1, H2.
  unfold _split_by_articles, finditer.
  rewrite finditer_go_no_match by assumption. reflexivity.
Qed.

End Markers.

(** C5.  The claim does not hold of the code.  [_split_by_articles]
    compiles a pattern of its own with the first two alternatives only;
    the third pattern of [ARTICLE_PATTERNS], a leading numeral and a dot,
    is never consulted.  On ["1. Belgilash tartibi"] that pattern occurs,
    yet no marker is located: the text is one ["general"] article. *)
Theorem C5_numeral_dot_marker_ignored :
  List.map (fun p => re_search p (py "1. Belgilash tartibi")) ARTICLE_PATTERNS
  = [false; false; true]
  /\ _split_by_articles (_clean_text (py "1. Belgilash tartibi"))
     = [(py "general", py "1. Belgilash tartibi")]
  /\ List.map (fun c => (chunk_type c, article c))
       (chunk_document (py "1. Belgilash tartibi") (Some (py "DOC")) (Some []) None)
     = [(full_article, Some (py "general"))].
Proof. repeat split; vm_compute; reflexivity. Qed.

(* ===================================================================== *)
(** ** Properties of the relevance score *)
(* ===================================================================== *)

Section Relevance.
Import PyFloat.
Import Chat.
Local Open Scope Q_scope.

Lemma round_half_even_bounds (x : Q) (n : Z) :
  0 <= x -> x <= inject_Z n ->
  (0 <= round_half_even x <= n)%Z.
Proof.
  intros H0 Hn. unfold round_half_even.
  pose proof (Qfloor_le x) as Hfl. pose proof (Qlt_floor x) as Hfu.
  assert (Hf0 : (0 <= Qfloor x)%Z).
  { change 0%Z with (Qfloor 0). apply Qfloor_resp_le. exact H0. }
  assert (Hfn : (Qfloor x <= n)%Z).
  { rewrite <- (Qfloor_Z n). apply Qfloor_resp_le. exact Hn. }
  destruct (x - inject_Z (Qfloor x) ?= 1 # 2) eqn:E.
  - destruct (Z.even (Qfloor x)); [lia|].
    apply Qeq_alt in E.
    assert (Hlt : inject_Z (Qfloor x) < inject_Z n) by lra.
    rewrite <- Zlt_Qlt in Hlt. lia.
  - lia.
  - apply Qgt_alt in E.
    assert (Hlt : inject_Z (Qfloor x) < inject_Z n) by lra.
    rewrite <- Zlt_Qlt in Hlt. lia.
Qed.

Lemma round3_unit (x : Q) : 0 <= x -> x <= 1 -> 0 <= round3 x /\ round3 x <= 1.
Proof.
  intros H0 H1. unfold round3.
  destruct (round_half_even_bounds (x * 1000) 1000) as [Ha Hb].
  - lra.
  - change (inject_Z 1000) with 1000. lra.
  - rewrite Zle_Qle in Ha, Hb.
    change (inject_Z 0) with 0 in Ha. change (inject_Z 1000) with 1000 in Hb.
    set (r := inject_Z (round_half_even (x * 1000))) in *.
    split.
    + apply Qle_shift_div_l; lra.
    + apply Qle_shift_div_r; lra.
Qed.

Lemma py_max0_le_one (x : Q) :
  x <= 1 -> py_max0 x == clamp x 0 1 /\ 0 <= py_max0 x <= 1.
Proof.
  intros Hx. unfold py_max0, clamp.
  assert (Hmin : Qmin x 1 == x) by (apply Q.min_l; lra).
  destruct (0 ?= x) eqn:E.
  - apply Qeq_alt in E. rewrite Hmin. split; [|lra].
    rewrite Q.max_l by lra. reflexivity.
  - apply Qlt_alt in E. rewrite Hmin. split; [|lra].
    rewrite Q.max_r by lra. reflexivity.
  - apply Qgt_alt in E. rewrite Hmin. split; [|lra].
    rewrite Q.max_l by lra. reflexivity.
Qed.

Lemma py_max0_pos (x : Q) : 0 < x -> py_max0 x = x.
Proof.
  intros Hx. unfold py_max0.
  pose proof (proj1 (Qlt_alt _ _) Hx) as E. rewrite E. reflexivity.
Qed.

Lemma round_half_even_compat (x y : Q) : x == y -> round_half_even x = round_half_even y.
Proof.
  intros H. unfold round_half_even.
  assert (Hf : Qfloor x = Qfloor y) by (rewrite H; reflexivity).
  rewrite Hf.
  assert (Hc : (x - inject_Z (Qfloor y) ?= 1 # 2) = (y - inject_Z (Qfloor y) ?= 1 # 2))
    by (rewrite H; reflexivity).
  rewrite Hc. reflexivity.
Qed.

Lemma round3_compat (x y : Q) : x == y -> round3 x == round3 y.
Proof.
  intros H. unfold round3.
  rewrite (round_half_even_compat (x * 1000) (y * 1000)) by (rewrite H; reflexivity).
  reflexivity.
Qed.

Lemma round3_mono (x y : Q) : x <= y -> round3 x <= round3 y.
Proof.
  intros H. unfold round3.
  apply Qmult_le_compat_r; [|intros E; discriminate E].
  rewrite <- Zle_Qle. apply round_half_even_mono. lra.
Qed.

Lemma py_round3_compat (x y : Q) : x == y -> py_round3 x == py_round3 y.
Proof. intros H. apply fl_compat, round3_compat, H. Qed.

Lemma py_round3_mono (x y : Q) : x <= y -> py_round3 x <= py_round3 y.
Proof. intros H. apply fl_mono, round3_mono, H. Qed.

Lemma py_round3_unit (x : Q) :
  0 <= x -> x <= 1 -> 0 <= py_round3 x /\ py_round3 x <= 1.
Proof.
  intros H0 H1. destruct (round3_unit x H0 H1) as [Ha Hb].
  split; [apply fl_nonneg, Ha | apply fl_le_1, Hb].
Qed.

(** Down to the distance [-1/2048] the float difference [1 - distance]
    is at most [1 + 1/2048]. *)
Lemma float_difference_near_one (d : Q) :
  - (1 # 2048) <= d -> fl (1 - fl d) <= 1 + (1 # 2048).
Proof.
  intros Hd.
  assert (Ha : - (1 # 2048) <= fl d).
  { eapply Qle_trans; [|apply fl_mono, Hd].
    apply Qle_bool_imp_le. vm_compute. reflexivity. }
  eapply Qle_trans; [apply (fl_mono _ (1 + (1 # 2048))); lra|].
  apply Qle_bool_imp_le. vm_compute. reflexivity.
Qed.

(** Up to [1 + 1/2048] the rounding to 3 decimals gives what it gives
    of the clamped value. *)
Lemma round3_near_one (x : Q) : 1 <= x -> x <= 1 + (1 # 2048) -> round3 x == 1.
Proof.
  intros H1 H2. apply Qle_antisym.
  - eapply Qle_trans; [apply round3_mono, H2|].
    apply Qle_bool_imp_le. vm_compute. reflexivity.
  - eapply Qle_trans; [|apply round3_mono, H1].
    apply Qle_bool_imp_le. vm_compute. reflexivity.
Qed.

Lemma py_round3_max0_clamp (x : Q) :
  x <= 1 + (1 # 2048) ->
  py_round3 (py_max0 x) == py_round3 (clamp x 0 1)
  /\ 0 <= py_round3 (py_max0 x) <= 1.
Proof.
  intros Hx. destruct (Qlt_le_dec 1 x) as [Hgt|Hle].
  - assert (Hp : 0 < x) by lra. rewrite (py_max0_pos x Hp).
    assert (Hc : clamp x 0 1 == 1).
    { unfold clamp. rewrite (Q.min_r x 1) by lra. apply Q.max_r. lra. }
    assert (Hr : round3 x == 1) by (apply round3_near_one; lra).
    assert (Hr1 : round3 (clamp x 0 1) == 1)
      by (rewrite (round3_compat _ _ Hc); vm_compute; reflexivity).
    unfold py_round3.
    assert (E1 : fl (round3 x) == 1)
      by (rewrite (fl_compat _ _ Hr); vm_compute; reflexivity).
    assert (E2 : fl (round3 (clamp x 0 1)) == 1)
      by (rewrite (fl_compat _ _ Hr1); vm_compute; reflexivity).
    rewrite E1, E2. split; [reflexivity | lra].
  - destruct (py_max0_le_one x Hle) as (Heq & H0 & H1).
    split; [apply py_round3_compat, Heq | apply py_round3_unit; assumption].
Qed.

(** A distance of -0.001 or less gives a score of at least the float
    1.001. *)
Lemma relevance_score_negative_distance (d : Q) :
  d <= - (1 # 1000) -> fl (1001 # 1000) <= relevance_score d.
Proof.
  intros Hd. unfold relevance_score.
  assert (Ha : fl d <= - (1 # 1000)).
  { eapply Qle_trans; [apply fl_mono, Hd|].
    apply Qle_bool_imp_le. vm_compute. reflexivity. }
  assert (Hb : fl (1001 # 1000) <= fl (1 - fl d)) by (apply fl_mono; lra).
  assert (Hp : 0 < fl (1 - fl d)).
  { eapply Qlt_le_trans; [|exact Hb]. vm_compute. reflexivity. }
  rewrite (py_max0_pos _ Hp).
  eapply Qle_trans; [|apply py_round3_mono, Hb].
  apply Qle_bool_imp_le. vm_compute. reflexivity.
Qed.

End Relevance.

(** The score of the decimal distance 0.0015 is the float 0.999: the
    float subtraction gives a number just above 0.9985, where the exact
    difference is the tie 0.9985, which would round to 0.998. *)
Example relevance_score_float_ex :
  (Chat.relevance_score (15 # 10000) == PyFloat.fl (999 # 1000)
   /\ Chat.round3 (1 - (15 # 10000)) == 998 # 1000)%Q.
Proof. split; vm_compute; reflexivity. Qed.

(** C6.  For every distance [d >= 0], as the squared Euclidean
    distances of the vector store are, the score is
    [clamp(1 - d, 0, 1)] rounded to 3 decimals, the subtraction and the
    rounding being those of Python floats, and it lies in [0, 1]; it is
    1 for [d = 0] and 0 for [d = 1] and for [d = 1.5].  The code clamps
    from below only, [max(0, 1 - d)]; the rounding makes up for the
    clamp from above down to the distance [-1/2048], and the theorem
    is stated from there on. *)
Theorem C6_relevance_score_unit_interval (d : Q) :
  (- (1 # 2048) <= d ->
   Chat.relevance_score d
   == Chat.py_round3 (clamp (PyFloat.fl (1 - PyFloat.fl d)) 0 1)
   /\ 0 <= Chat.relevance_score d <= 1
   /\ Chat.relevance_score 0 == 1
   /\ Chat.relevance_score 1 == 0
   /\ Chat.relevance_score (3 # 2) == 0)%Q.
Proof.
  intros Hd. pose proof (float_difference_near_one d Hd) as Hx.
  destruct (py_round3_max0_clamp _ Hx) as (Heq & Hb).
  split; [exact Heq|]. split; [exact Hb|].
  repeat split; vm_compute; reflexivity.
Qed.

(** C6 (witness): the distance 0.25, and a distance that rounding
    errors made negative. *)
Lemma C6_relevance_score_unit_interval_witness :
  (Chat.relevance_score (1 # 4) == 3 # 4
   /\ 0 <= Chat.relevance_score (1 # 4) <= 1
   /\ Chat.relevance_score (- (1 # 10000000)) == 1)%Q.
Proof.
  assert (H : (- (1 # 2048) <= 1 # 4)%Q) by (intros E; discriminate E).
  destruct (C6_relevance_score_unit_interval (1 # 4) H) as (_ & Hb & _).
  split; [vm_compute; reflexivity|]. split; [exact Hb|].
  vm_compute. reflexivity.
Defined.

(* ===================================================================== *)
(** ** Properties of the scout agent *)
(* ===================================================================== *)

Section Dedup.

Lemma dedup_fold l : forall seen uniq,
  (fold_left dedup_step l (seen, uniq)).2 = uniq ++ first_occurrences seen l.
Proof.
  induction l as [|d r IH]; intros seen uniq; simpl.
  - rewrite app_nil_r. reflexivity.
  - unfold dedup_step at 2. fold (url_of d). simpl.
    destruct (url_of d) as [[|c u]|]; try apply IH.
    destruct (decide (c :: u ∈ seen)); [apply IH|].
    rewrite IH, <- app_assoc. reflexivity.
Qed.

Lemma deduplicate_eq l : _deduplicate l = first_occurrences ∅ l.
Proof. unfold _deduplicate. rewrite dedup_fold. reflexivity. Qed.

Lemma first_occurrences_sublist seen l : first_occurrences seen l `sublist_of` l.
Proof.
  revert seen. induction l as [|d r IH]; intros seen; simpl; [constructor|].
  destruct (url_of d) as [[|c u]|]; try (apply sublist_cons, IH).
  destruct (decide (c :: u ∈ seen)); [apply sublist_cons, IH | apply sublist_skip, IH].
Qed.

Lemma first_occurrences_fresh seen l d :
  d ∈ first_occurrences seen l ->
  exists c u, url_of d = Some (c :: u) /\ (c :: u) ∉ seen.
Proof.
  revert seen. induction l as [|e r IH]; intros seen; simpl.
  - intros H. inversion H.
  - destruct (url_of e) as [[|c u]|] eqn:E; try apply IH.
    destruct (decide (c :: u ∈ seen)) as [|Hn]; [apply IH|].
    intros H. apply elem_of_cons in H as [->|H]; [eauto|].
    apply IH in H as (c' & u' & Hu & Hs). exists c', u'. split; [exact Hu|].
    set_solver.
Qed.

Lemma first_occurrences_nodup seen l :
  NoDup (List.map url_of (first_occurrences seen l)).
Proof.
  revert seen. induction l as [|e r IH]; intros seen; simpl; [constructor|].
  destruct (url_of e) as [[|c u]|] eqn:E; try apply IH.
  destruct (decide (c :: u ∈ seen)) as [|Hn]; [apply IH|].
  simpl. constructor; [|apply IH].
  intros Hin. apply list_elem_of_In, in_map_iff in Hin as (d & Hd & Hin).
  apply list_elem_of_In, first_occurrences_fresh in Hin as (c' & u' & Hu & Hs).
  rewrite E in Hd. rewrite Hd in Hu. inversion Hu; subst. set_solver.
Qed.

(** Every non-empty URL among the candidates is kept once, unless it was
    seen before. *)
Lemma first_occurrences_complete seen l d c u :
  d ∈ l -> url_of d = Some (c :: u) -> (c :: u) ∉ seen ->
  exists d', d' ∈ first_occurrences seen l /\ url_of d' = url_of d.
Proof.
  revert seen. induction l as [|e r IH]; intros seen Hin Hu Hs.
  - inversion Hin.
  - simpl. apply elem_of_cons in Hin as [<-|Hin].
    + rewrite Hu. destruct (decide (c :: u ∈ seen)); [contradiction|].
      exists d. split; [left | exact Hu].
    + destruct (url_of e) as [[|c' u']|] eqn:E; try (apply (IH seen); assumption).
      destruct (decide (c' :: u' ∈ seen)); [apply (IH seen); assumption|].
      destruct (decide (c' :: u' = c :: u)) as [Heq|Hne].
      * exists e. split; [left|]. rewrite E, Hu, Heq. reflexivity.
      * assert (Hs' : c :: u ∉ ({[c' :: u']} ∪ seen : gset str)).
        { intros H. apply elem_of_union in H as [H|H]; [|contradiction].
          apply elem_of_singleton in H. congruence. }
        destruct (IH ({[c' :: u']} ∪ seen) Hin Hu Hs') as (d' & Hd' & Hu').
        exists d'. split; [right; exact Hd' | exact Hu'].
Qed.

(** The candidate kept for a URL is the first one that carries it. *)
Lemma first_occurrences_first seen l d :
  d ∈ first_occurrences seen l ->
  exists pre post, l = pre ++ d :: post
                   /\ Forall (fun e => url_of e <> url_of d) pre.
Proof.
  revert seen. induction l as [|e r IH]; intros seen; simpl.
  - intros H. inversion H.
  - assert (Hskip : forall s, url_of e <> url_of d ->
              d ∈ first_occurrences s r ->
              exists pre post, e :: r = pre ++ d :: post
                               /\ Forall (fun e => url_of e <> url_of d) pre).
    { intros s Hne H. apply IH in H as (pre & post & -> & HF).
      exists (e :: pre), post. split; [reflexivity|]. constructor; assumption. }
    destruct (url_of e) as [[|c u]|] eqn:E.
    + intros H. apply (Hskip seen); [|exact H].
      apply first_occurrences_fresh in H as (c' & u' & -> & _). rewrite ?E. discriminate.
    + destruct (decide (c :: u ∈ seen)) as [Hs|Hn].
      * intros H. apply (Hskip seen); [|exact H].
        apply first_occurrences_fresh in H as (c' & u' & -> & Hs'). rewrite ?E.
        intros Heq. inversion Heq; subst. contradiction.
      * intros H. apply elem_of_cons in H as [->|H].
        -- exists [], r. split; [reflexivity | constructor].
        -- apply (Hskip ({[c :: u]} ∪ seen)); [|exact H].
           apply first_occurrences_fresh in H as (c' & u' & -> & Hs'). rewrite ?E.
           intros Heq. inversion Heq; subst. set_solver.
    + intros H. apply (Hskip seen); [|exact H].
      apply first_occurrences_fresh in H as (c' & u' & -> & _). rewrite ?E. discriminate.
Qed.

Lemma deduplicate_truthy l d : d ∈ _deduplicate l -> truthy (url_of d) = true.
Proof.
  rewrite deduplicate_eq. intros H.
  apply first_occurrences_fresh in H as (c & u & -> & _). reflexivity.
Qed.

(** Two candidates with one non-empty URL collapse to the first. *)
Lemma deduplicate_pair d1 d2 c u :
  url_of d1 = Some (c :: u) -> url_of d2 = Some (c :: u) ->
  _deduplicate [d1; d2] = [d1].
Proof.
  intros H1 H2. rewrite deduplicate_eq. simpl. rewrite H1, H2.
  destruct (decide (c :: u ∈ (∅ : gset str))) as [H|_]; [set_solver|].
  destruct (decide (c :: u ∈ ({[c :: u]} ∪ ∅ : gset str))) as [_|H]; [reflexivity|].
  set_solver.
Qed.

Lemma distinct_urls_cons d l :
  distinct_urls (d :: l)
  = match nonempty_url d with
    | Some x => {[ x ]} ∪ distinct_urls l
    | None => distinct_urls l
    end.
Proof. unfold distinct_urls. simpl. destruct (nonempty_url d); reflexivity. Qed.

(** As many candidates are kept as there are distinct non-empty URLs not
    seen before. *)
Lemma first_occurrences_length l : forall seen,
  length (first_occurrences seen l) = size (distinct_urls l ∖ seen).
Proof.
  induction l as [|d r IH]; intros seen.
  - simpl. unfold distinct_urls. simpl.
    replace (∅ ∖ seen) with (∅ : gset str); [reflexivity|].
    apply set_eq. intros x. rewrite elem_of_difference. split; [|tauto].
    intros Hx. exfalso. revert Hx. apply not_elem_of_empty.
  - rewrite distinct_urls_cons. unfold nonempty_url. simpl.
    destruct (url_of d) as [[|c u]|]; try apply IH.
    destruct (decide (c :: u ∈ seen)) as [Hs|Hn].
    + rewrite IH. f_equal. apply set_eq. intros x.
      rewrite !elem_of_difference, elem_of_union, elem_of_singleton.
      split; [tauto|]. intros [[->|Hx] Hns]; [contradiction | tauto].
    + simpl. rewrite IH.
      replace (({[c :: u]} ∪ distinct_urls r) ∖ seen)
        with ({[c :: u]} ∪ distinct_urls r ∖ ({[c :: u]} ∪ seen)).
      * rewrite (size_union (C := gset str) {[c :: u]}).
        -- rewrite size_singleton. reflexivity.
        -- intros x Hx Hd. apply elem_of_singleton in Hx. subst x.
           apply elem_of_difference in Hd as [_ Hd]. apply Hd.
           apply elem_of_union. left. apply elem_of_singleton. reflexivity.
      * apply set_eq. intros x. rewrite !elem_of_union, !elem_of_difference,
          !elem_of_union, elem_of_singleton.
        destruct (decide (x = c :: u)) as [->|Hne]; [tauto|tauto].
Qed.

Lemma deduplicate_length l : length (_deduplicate l) = size (distinct_urls l).
Proof.
  rewrite deduplicate_eq, first_occurrences_length. f_equal.
  apply set_eq. intros x. rewrite elem_of_difference. split; [tauto|].
  intros Hx. split; [exact Hx | apply not_elem_of_empty].
Qed.

End Dedup.

Section Cycle.

Context {Coll : Type}.
Variable coll_get : Coll -> str -> option (list str).
Variable coll_add :
  Coll -> list str -> list (gmap string pyval) -> list str -> option Coll.
Variable search_lex_uz : nat -> str -> str -> list doc.
Variable llm_says_yes : nat -> str -> option bool.
Variable fetch : nat -> str -> option str.
Variable now : nat -> str.
Variable interp : Z -> Z -> nat -> nat -> Z.

Local Abbreviation is_indexed := (_is_already_indexed coll_get).
Local Abbreviation judge := (_judge_relevance llm_says_yes).
Local Abbreviation scrape := (_scrape_document fetch).
Local Abbreviation jstep := (judge_step coll_get llm_says_yes interp).
Local Abbreviation istep := (ingest_step coll_add fetch now interp).
Local Abbreviation store := (store_chunks coll_add).
Local Abbreviation cycle := (run_cycle coll_get coll_add search_lex_uz
                                   llm_says_yes fetch now interp).

Lemma enumerate_from_cons {A} k (x : A) l :
  enumerate_from k (x :: l) = (k, x) :: enumerate_from (S k) l.
Proof. reflexivity. Qed.

(** *** SEARCH *)
Lemma search_fold date_filter n kws : forall k (w : State Coll) found,
  let r := fold_left (search_step search_lex_uz interp date_filter n)
                     (enumerate_from k kws) (w, found) in
  collection r.1 = collection w
  /\ calls r.1 = calls w
  /\ r.2 = found ++ flat_map (fun ik => search_lex_uz ik.1 ik.2 date_filter)
                             (enumerate_from k kws).
Proof.
  induction kws as [|kw kws IH]; intros k w found; cbv zeta.
  - simpl. rewrite app_nil_r. auto.
  - rewrite enumerate_from_cons. cbn [fold_left flat_map].
    unfold search_step at 2 4 6. cbn [fst snd].
    specialize (IH (S k)). cbv zeta in IH.
    edestruct IH as (H1 & H2 & H3). rewrite H1, H2, H3. clear IH H1 H2 H3.
    rewrite <- app_assoc. auto.
Qed.

Lemma search_stage_spec (w : State Coll) keywords date_filter :
  let r := search_stage search_lex_uz interp w keywords date_filter in
  collection r.1 = collection w
  /\ calls r.1 = calls w
  /\ r.2 = found_by search_lex_uz keywords date_filter.
Proof.
  cbv zeta. unfold search_stage, enumerate.
  edestruct (search_fold date_filter (length (search_keywords_of keywords))
               (search_keywords_of keywords) 0) as (H1 & H2 & H3).
  rewrite H1, H2, H3. auto.
Qed.

(** *** JUDGE *)
Lemma is_indexed_ext (w w' : State Coll) u :
  collection w = collection w' -> is_indexed w u = is_indexed w' u.
Proof. intros H. unfold _is_already_indexed. rewrite H. reflexivity. Qed.

Lemma judge_step_spec n (w : State Coll) rel i d :
  let r := jstep n (w, rel) (i, d) in
  collection r.1 = collection w
  /\ calls r.1
     = calls w ++ CallIndexed d ::
         (if is_indexed w (url_of d) then [] else [CallJudge d])
  /\ r.2 = rel ++ (if negb (is_indexed w (url_of d)) && judge i (title_of d)
                   then [d] else []).
Proof.
  cbv zeta. unfold judge_step. cbn [fst snd].
  fold (url_of d). fold (title_of d).
  rewrite (is_indexed_ext (log w (CallIndexed d)) w) by reflexivity.
  destruct (is_indexed w (url_of d)); cbn [negb andb].
  - simpl. rewrite app_nil_r. auto.
  - destruct (prefix_of (title_of d) 45); destruct (judge i (title_of d));
      simpl; rewrite <- ?app_assoc, ?app_nil_r; auto.
Qed.

Lemma judge_log_ext (w w' : State Coll) cands :
  collection w = collection w' ->
  judge_log coll_get w cands = judge_log coll_get w' cands.
Proof.
  intros H. unfold judge_log. apply flat_map_ext. intros d.
  rewrite (is_indexed_ext w w') by exact H. reflexivity.
Qed.

Lemma judged_relevant_ext (w w' : State Coll) k cands :
  collection w = collection w' ->
  judged_relevant coll_get llm_says_yes w k cands
  = judged_relevant coll_get llm_says_yes w' k cands.
Proof.
  intros H. unfold judged_relevant. f_equal. apply filter_ext. intros id.
  rewrite (is_indexed_ext w w') by exact H. reflexivity.
Qed.

Lemma judge_log_cons (w : State Coll) d cands :
  judge_log coll_get w (d :: cands)
  = (CallIndexed d :: if is_indexed w (url_of d) then [] else [CallJudge d])
      ++ judge_log coll_get w cands.
Proof. reflexivity. Qed.

Lemma judged_relevant_cons (w : State Coll) k d cands :
  judged_relevant coll_get llm_says_yes w k (d :: cands)
  = (if negb (is_indexed w (url_of d)) && judge k (title_of d) then [d] else [])
      ++ judged_relevant coll_get llm_says_yes w (S k) cands.
Proof.
  unfold judged_relevant. rewrite enumerate_from_cons. cbn [List.filter fst snd].
  destruct (negb (is_indexed w (url_of d)) && judge k (title_of d)); reflexivity.
Qed.

Lemma judge_fold n cands : forall k (w : State Coll) rel,
  let r := fold_left (jstep n) (enumerate_from k cands) (w, rel) in
  collection r.1 = collection w
  /\ calls r.1 = calls w ++ judge_log coll_get w cands
  /\ r.2 = rel ++ judged_relevant coll_get llm_says_yes w k cands.
Proof.
  induction cands as [|d cands IH]; intros k w rel; cbv zeta.
  - simpl. rewrite !app_nil_r. auto.
  - rewrite enumerate_from_cons. cbn [fold_left].
    destruct (judge_step_spec n w rel k d) as (Hc & Hl & Hr). cbv zeta in Hc, Hl, Hr.
    destruct (jstep n (w, rel) (k, d)) as [w1 rel1] eqn:E. cbn [fst snd] in *.
    destruct (IH (S k) w1 rel1) as (Hc' & Hl' & Hr'). cbv zeta in Hc', Hl', Hr'.
    rewrite Hc', Hl', Hr', Hc, Hl, Hr.
    rewrite (judge_log_ext w1 w), (judged_relevant_ext w1 w) by exact Hc.
    rewrite judge_log_cons, judged_relevant_cons, <- !app_assoc.
    auto.
Qed.

Lemma judged_relevant_incl (w : State Coll) k cands d :
  In d (judged_relevant coll_get llm_says_yes w k cands) -> In d cands.
Proof.
  unfold judged_relevant, enumerate_from. intros H.
  apply in_map_iff in H as ([i e] & <- & H). apply filter_In in H as [H _].
  apply list_elem_of_In in H. apply elem_of_zip_r in H.
  apply list_elem_of_In. exact H.
Qed.

(** *** INGEST *)
Lemma store_chunks_calls (w w' : State Coll) d chunks :
  store w d chunks = Some w' ->
  queue w' = queue w
  /\ progress w' = progress w
  /\ (calls w' = calls w \/ calls w' = calls w ++ [CallAdd d]).
Proof.
  unfold store_chunks. destruct chunks as [|ch chs].
  - intros H. inversion H. auto.
  - destruct (collection w) as [c|]; [|intros H; inversion H; auto].
    destruct (coll_add _ _ _ _); [|discriminate].
    intros H. inversion H. simpl. auto.
Qed.

Lemma ingest_step_calls n (w : State Coll) cnt i d :
  exists extra,
    calls (istep n (w, cnt) (i, d)).1 = calls w ++ extra
    /\ Forall (fun c => is_ingest_call c = true /\ call_doc c = d) extra.
Proof.
  unfold ingest_step. cbn [fst snd]. fold (url_of d).
  destruct (scrape i (url_of d)) as [[|a content]|];
    try (exists [CallScrape d]; split; [reflexivity | repeat constructor]).
  destruct (store _ d _) as [w'|] eqn:Es.
  - apply store_chunks_calls in Es as (_ & _ & Hc).
    assert (Hcalls : forall ty msg v p,
              calls (_push_status (set_progress w'
                            (interp 70 25 i (Nat.max n 1))) ty msg v p)
              = calls w') by reflexivity.
    destruct (prefix_of _ 40); cbn [fst]; rewrite Hcalls;
      (destruct Hc as [Hc|Hc]; rewrite Hc; cbn [log calls];
       [ exists [CallScrape d]; split; [reflexivity | repeat constructor]
       | exists [CallScrape d; CallAdd d]; split;
         [rewrite <- app_assoc; reflexivity | repeat constructor] ]).
  - exists [CallScrape d; CallAdd d]. split; [|repeat constructor].
    simpl. rewrite <- app_assoc. reflexivity.
Qed.

Lemma ingest_fold_calls n rel : forall k (w : State Coll) cnt,
  exists extra,
    calls (fold_left (istep n) (enumerate_from k rel) (w, cnt)).1
    = calls w ++ extra
    /\ Forall (fun c => is_ingest_call c = true /\ In (call_doc c) rel) extra.
Proof.
  induction rel as [|d rel IH]; intros k w cnt.
  - exists []. simpl. rewrite app_nil_r. auto.
  - rewrite enumerate_from_cons. cbn [fold_left].
    destruct (ingest_step_calls n w cnt k d) as (e1 & H1 & F1).
    destruct (istep n (w, cnt) (k, d)) as [w1 cnt1]. cbn [fst] in H1.
    destruct (IH (S k) w1 cnt1) as (e2 & H2 & F2).
    exists (e1 ++ e2). rewrite H2, H1, <- app_assoc. split; [reflexivity|].
    apply Forall_app. split.
    + eapply Forall_impl; [exact F1|]. intros c [Hc <-]. split; [exact Hc | left; reflexivity].
    + eapply Forall_impl; [exact F2|]. intros c [Hc Hin]. split; [exact Hc | right; exact Hin].
Qed.

(** *** The cycle, stage by stage *)
Lemma run_cycle_eq (w : State Coll) keywords date_filter :
  cycle w keywords date_filter
  = let s := search_stage search_lex_uz interp w keywords date_filter in
    let candidates := _deduplicate s.2 in
    let j := judge_stage coll_get llm_says_yes interp
               (_push_status s.1 ev_search (MsgUnique (length candidates)) None 20)
               candidates in
    let g := ingest_stage coll_add fetch now interp j.1 j.2 in
    (g.1, mkTally g.2 (len candidates)).
Proof.
  unfold run_cycle. cbv zeta.
  destruct (search_stage _ _ _ _ _) as [w1 found]. cbn [fst snd].
  destruct (judge_stage _ _ _ _ _) as [w2 rel]. cbn [fst snd].
  destruct (ingest_stage _ _ _ _ _ _) as [w3 cnt]. reflexivity.
Qed.

End Cycle.

Section CycleClaims.

Context {Coll : Type}.
Variable coll_get : Coll -> str -> option (list str).
Variable coll_add :
  Coll -> list str -> list (gmap string pyval) -> list str -> option Coll.
Variable search_lex_uz : nat -> str -> str -> list doc.
Variable llm_says_yes : nat -> str -> option bool.
Variable fetch : nat -> str -> option str.
Variable now : nat -> str.
Variable interp : Z -> Z -> nat -> nat -> Z.

Local Abbreviation is_indexed := (_is_already_indexed coll_get).
Local Abbreviation judge := (_judge_relevance llm_says_yes).
Local Abbreviation scrape := (_scrape_document fetch).
Local Abbreviation istep := (ingest_step coll_add fetch now interp).
Local Abbreviation istage := (ingest_stage coll_add fetch now interp).
Local Abbreviation store := (store_chunks coll_add).
Local Abbreviation cycle := (run_cycle coll_get coll_add search_lex_uz
                                       llm_says_yes fetch now interp).

(** The cycle: search, deduplicate, judge the deduplicated candidates in
    order, ingest the relevant ones. *)
Lemma run_cycle_spec (w : State Coll) keywords date_filter :
  let candidates := _deduplicate (found_by search_lex_uz keywords date_filter) in
  let relevant_docs := judged_relevant coll_get llm_says_yes w 0 candidates in
  exists wj : State Coll,
    collection wj = collection w
    /\ calls wj = calls w ++ judge_log coll_get w candidates
    /\ cycle w keywords date_filter
       = ((istage wj relevant_docs).1,
          mkTally (istage wj relevant_docs).2 (len candidates)).
Proof.
  cbv zeta. rewrite run_cycle_eq. cbv zeta.
  destruct (search_stage_spec search_lex_uz interp w keywords date_filter)
    as (Hc & Hl & Hf). cbv zeta in Hc, Hl, Hf.
  set (s := search_stage search_lex_uz interp w keywords date_filter) in *.
  rewrite Hf.
  set (cands := _deduplicate (found_by search_lex_uz keywords date_filter)).
  set (w1 := _push_status s.1 ev_search (MsgUnique (length cands)) None 20).
  assert (Hc1 : collection w1 = collection w) by exact Hc.
  destruct (judge_fold coll_get llm_says_yes interp (length cands) cands 0 w1 [])
    as (Hjc & Hjl & Hjr). cbv zeta in Hjc, Hjl, Hjr.
  fold (enumerate cands) in Hjc, Hjl, Hjr.
  fold (judge_stage coll_get llm_says_yes interp w1 cands) in Hjc, Hjl, Hjr.
  set (j := judge_stage coll_get llm_says_yes interp w1 cands) in *.
  exists j.1. split; [congruence|]. split.
  - rewrite Hjl. rewrite (judge_log_ext coll_get w1 w) by exact Hc1.
    unfold w1. simpl. rewrite Hl. reflexivity.
  - rewrite Hjr. rewrite (judged_relevant_ext coll_get llm_says_yes w1 w) by exact Hc1.
    reflexivity.
Qed.

Lemma judge_log_docs (w : State Coll) cands :
  Forall (fun c => In (call_doc c) cands) (judge_log coll_get w cands).
Proof.
  unfold judge_log. apply Forall_forall. intros c Hc.
  apply list_elem_of_In, in_flat_map in Hc as (d & Hd & Hc).
  destruct Hc as [<-|Hc]; [exact Hd|].
  destruct (is_indexed w (url_of d)); [destruct Hc|].
  destruct Hc as [<-|[]]. exact Hd.
Qed.

Lemma store_is_some_ext (w w' : State Coll) d chunks :
  collection w = collection w' ->
  is_Some (store w d chunks) -> is_Some (store w' d chunks).
Proof.
  intros H. unfold store_chunks. rewrite H.
  destruct chunks; [eauto|]. destruct (collection w'); [|eauto].
  destruct (coll_add _ _ _ _); [eauto|]. intros [x Hx]. discriminate.
Qed.

(** One step of INGEST, case by case. *)
Lemma ingest_step_skip n (w : State Coll) cnt i d :
  truthy (scrape i (url_of d)) = false ->
  istep n (w, cnt) (i, d) = (log w (CallScrape d), cnt).
Proof.
  unfold ingest_step. cbn [fst snd]. fold (url_of d).
  destruct (scrape i (url_of d)) as [[|a content]|]; [reflexivity | discriminate | reflexivity].
Qed.

Lemma ingest_step_stored n (w : State Coll) cnt i d a content :
  scrape i (url_of d) = Some (a :: content) ->
  is_Some (store (log w (CallScrape d)) d (chunks_of now i d (a :: content))) ->
  (istep n (w, cnt) (i, d)).2 = cnt + 1
  /\ exists ev, queue (istep n (w, cnt) (i, d)).1 = queue w ++ [ev].
Proof.
  intros Hs [w' Hw']. unfold ingest_step. cbn [fst snd]. fold (url_of d).
  rewrite Hs, Hw'. apply store_chunks_calls in Hw' as (Hq & _ & _).
  destruct (prefix_of _ 40); cbn [fst snd]; (split; [reflexivity|]);
    eexists; simpl; rewrite Hq; reflexivity.
Qed.

Lemma ingest_step_failed n (w : State Coll) cnt i d a content :
  scrape i (url_of d) = Some (a :: content) ->
  store (log w (CallScrape d)) d (chunks_of now i d (a :: content)) = None ->
  (istep n (w, cnt) (i, d)).2 = cnt
  /\ exists ev, queue (istep n (w, cnt) (i, d)).1 = queue w ++ [ev]
                /\ event_type ev = ev_error.
Proof.
  intros Hs Hw'. unfold ingest_step. cbn [fst snd]. fold (url_of d).
  rewrite Hs, Hw'. cbn [fst snd]. split; [reflexivity|].
  eexists. split; reflexivity.
Qed.

Lemma store_nothing (w : State Coll) d chunks :
  chunks = [] \/ collection w = None -> store w d chunks = Some w.
Proof.
  unfold store_chunks. intros [->|H]; [reflexivity|]. rewrite H.
  destruct chunks; reflexivity.
Qed.

Lemma ingest_step_collection_none n (w : State Coll) cnt i d :
  collection w = None ->
  collection (istep n (w, cnt) (i, d)).1 = None
  /\ (istep n (w, cnt) (i, d)).2
     = cnt + (if truthy (scrape i (url_of d)) then 1 else 0).
Proof.
  intros Hn. unfold ingest_step. cbn [fst snd]. fold (url_of d).
  destruct (scrape i (url_of d)) as [[|a content]|]; cbn [truthy];
    try (split; [exact Hn | simpl; lia]).
  rewrite store_nothing by (right; exact Hn).
  destruct (prefix_of _ 40); cbn [fst snd]; split; first [exact Hn | reflexivity].
Qed.

Lemma ingest_fold_collection_none n rel : forall k (w : State Coll) cnt,
  collection w = None ->
  (fold_left (istep n) (enumerate_from k rel) (w, cnt)).2
  = cnt + len (scraped fetch k rel).
Proof.
  induction rel as [|d rel IH]; intros k w cnt Hn.
  - simpl. unfold len. simpl. lia.
  - rewrite enumerate_from_cons. cbn [fold_left].
    destruct (ingest_step_collection_none n w cnt k d Hn) as (Hc & Hcnt).
    destruct (istep n (w, cnt) (k, d)) as [w1 cnt1]. cbn [fst snd] in Hc, Hcnt.
    rewrite (IH (S k) w1 cnt1 Hc), Hcnt.
    unfold scraped. rewrite enumerate_from_cons. cbn [List.filter fst snd].
    destruct (truthy (scrape k (url_of d))).
    + unfold len. cbn [length]. lia.
    + lia.
Qed.

(** C7.  The candidates are deduplicated by URL, the first occurrence
    kept and the order preserved; the deduplicated list is what is
    counted as [checked]; the existence checks run over that list in
    order, each followed by the judgment of the same candidate unless the
    check found it, and the calls of INGEST come after all of them.
    When the only keyword's search returns two results with one (non-empty)
    URL, [checked] is 1; and [ingested] is 1 if the first result is not in
    the store, is judged relevant, its page gives some text and the store
    accepts its chunks. *)
Theorem C7_dedup_then_check_then_judge (w : State Coll) keywords date_filter :
  let found := found_by search_lex_uz keywords date_filter in
  let candidates := _deduplicate found in
  let r := cycle w keywords date_filter in
  (candidates `sublist_of` found
   /\ NoDup (List.map url_of candidates)
   /\ (forall d, d ∈ candidates ->
         truthy (url_of d) = true
         /\ exists pre post, found = pre ++ d :: post
                             /\ Forall (fun e => url_of e <> url_of d) pre)
   /\ (forall d, d ∈ found -> truthy (url_of d) = true ->
         exists d', d' ∈ candidates /\ url_of d' = url_of d))
  /\ checked r.2 = len candidates
  /\ (exists ingest_calls,
        calls r.1
        = calls w ++ judge_log coll_get w candidates ++ ingest_calls
        /\ Forall (fun c => is_ingest_call c = true) ingest_calls)
  /\ (forall k d1 d2 c u,
        keywords = Some [k] ->
        search_lex_uz 0%nat k date_filter = [d1; d2] ->
        url_of d1 = Some (c :: u) -> url_of d2 = Some (c :: u) ->
        candidates = [d1] /\ checked r.2 = 1
        /\ (is_indexed w (url_of d1) = false ->
            judge 0%nat (title_of d1) = true ->
            forall a content,
              scrape 0%nat (url_of d1) = Some (a :: content) ->
              is_Some (store w d1 (chunks_of now 0%nat d1 (a :: content))) ->
              ingested r.2 = 1)).
Proof.
  cbv zeta.
  destruct (run_cycle_spec w keywords date_filter) as (wj & Hcj & Hlj & Heq).
  cbv zeta in Heq.
  set (found := found_by search_lex_uz keywords date_filter) in *.
  set (cands := _deduplicate found) in *.
  split; [|split; [|split]].
  - unfold cands. rewrite deduplicate_eq. split; [apply first_occurrences_sublist|].
    split; [apply first_occurrences_nodup|]. split.
    + intros d Hd. split.
      * apply first_occurrences_fresh in Hd as (c & u & -> & _). reflexivity.
      * apply first_occurrences_first in Hd. exact Hd.
    + intros d Hd Ht. destruct (url_of d) as [[|c u]|] eqn:E; try discriminate.
      rewrite <- E. apply (first_occurrences_complete ∅ found d c u Hd E).
      apply not_elem_of_empty.
  - rewrite Heq. reflexivity.
  - rewrite Heq. cbn [fst].
    destruct (ingest_fold_calls coll_add fetch now interp
                (length (judged_relevant coll_get llm_says_yes w 0 cands))
                (judged_relevant coll_get llm_says_yes w 0 cands) 0 wj 0)
      as (extra & Hx & HF).
    exists extra. split.
    + unfold ingest_stage, enumerate. rewrite Hx, Hlj, <- app_assoc. reflexivity.
    + eapply Forall_impl; [exact HF|]. intros c [Hc _]. exact Hc.
  - intros k d1 d2 c u Hk Hs H1 H2.
    assert (Hcands : cands = [d1]).
    { unfold cands, found, found_by. rewrite Hk. cbn. rewrite Hs.
      apply (deduplicate_pair d1 d2 c u H1 H2). }
    split; [exact Hcands|]. split; [rewrite Heq, Hcands; reflexivity|].
    intros Hidx Hj a content Hsc Hst.
    rewrite Heq, Hcands. cbn [snd ingested].
    rewrite judged_relevant_cons, Hidx, Hj. cbn [negb andb app].
    unfold judged_relevant. cbn [enumerate_from length seq zip zip_with List.filter List.map app].
    unfold ingest_stage, enumerate. cbn [enumerate_from length seq zip zip_with fold_left].
    apply (ingest_step_stored 1 wj 0 0%nat d1 a content Hsc).
    apply (store_is_some_ext w); [|exact Hst]. symmetry. exact Hcj.
Qed.

(** C9.  A candidate whose URL is missing or empty is dropped by the
    deduplication: it is not among the candidates counted, and every call
    the cycle makes (existence check, judgment, scrape, store) is about a
    counted candidate, whose URL is not empty.  [checked] is the number of
    deduplicated candidates, all of them with a non-empty URL: the number
    of distinct non-empty URLs found. *)
Theorem C9_candidates_without_url_dropped (w : State Coll) keywords date_filter :
  let found := found_by search_lex_uz keywords date_filter in
  let candidates := _deduplicate found in
  let r := cycle w keywords date_filter in
  (forall d, truthy (url_of d) = false -> d ∉ candidates)
  /\ (exists cycle_calls,
        calls r.1 = calls w ++ cycle_calls
        /\ Forall (fun c => call_doc c ∈ candidates
                            /\ truthy (url_of (call_doc c)) = true) cycle_calls)
  /\ checked r.2 = len candidates
  /\ checked r.2 = len (List.filter (fun d => truthy (url_of d)) candidates)
  /\ checked r.2 = Z.of_nat (size (distinct_urls found)).
Proof.
  cbv zeta.
  destruct (run_cycle_spec w keywords date_filter) as (wj & Hcj & Hlj & Heq).
  cbv zeta in Heq.
  set (found := found_by search_lex_uz keywords date_filter) in *.
  set (cands := _deduplicate found) in *.
  assert (Htruthy : forall d, d ∈ cands -> truthy (url_of d) = true)
    by (intros d; apply deduplicate_truthy).
  split; [|split; [|split; [|split]]].
  - intros d Hf Hin. apply Htruthy in Hin. congruence.
  - rewrite Heq. cbn [fst].
    destruct (ingest_fold_calls coll_add fetch now interp
                (length (judged_relevant coll_get llm_says_yes w 0 cands))
                (judged_relevant coll_get llm_says_yes w 0 cands) 0 wj 0)
      as (extra & Hx & HF).
    exists (judge_log coll_get w cands ++ extra). split.
    + unfold ingest_stage, enumerate. rewrite Hx, Hlj, <- app_assoc. reflexivity.
    + apply Forall_app. split.
      * eapply Forall_impl; [apply judge_log_docs|]. intros c Hc. simpl in Hc.
        apply list_elem_of_In in Hc. split; [exact Hc | apply Htruthy, Hc].
      * eapply Forall_impl; [exact HF|]. intros c [_ Hc]. simpl in Hc.
        apply judged_relevant_incl, list_elem_of_In in Hc.
        split; [exact Hc | apply Htruthy, Hc].
  - rewrite Heq. reflexivity.
  - rewrite Heq. cbn [snd checked]. f_equal.
    symmetry. apply forallb_filter_id. apply forallb_forall.
    intros d Hd. apply Htruthy, list_elem_of_In, Hd.
  - rewrite Heq. cbn [snd checked]. unfold len, cands.
    rewrite deduplicate_length. reflexivity.
Qed.

(** One step of INGEST and what becomes of the document. *)
Lemma ingest_step_ingestion n (w : State Coll) cnt i d :
  title_of d <> None ->
  let o := ingestion_of coll_add fetch now (collection w) i d in
  let r := istep n (w, cnt) (i, d) in
  collection r.1 = o.2
  /\ r.2 = cnt + (if is_counted o.1 then 1 else 0)
  /\ exists evs, queue r.1 = queue w ++ evs
                 /\ List.map event_type evs = option_list (ingestion_event o.1).
Proof.
  intros Ht. cbv zeta. unfold ingest_step, ingestion_of, store_chunks.
  cbn [fst snd]. fold (url_of d). fold (title_of d).
  destruct (title_of d) as [title|] eqn:Et; [|congruence]. cbn [prefix_of].
  destruct (scrape i (url_of d)) as [[|a content]|];
    try (cbn; split; [reflexivity|]; split; [lia|];
         exists []; rewrite app_nil_r; split; reflexivity).
  cbn [log collection].
  destruct (chunks_of now i d (a :: content)) as [|ch chs].
  - cbn. split; [reflexivity|]. split; [reflexivity|].
    eexists [_]. split; reflexivity.
  - destruct (collection w) as [c|] eqn:Ecw.
    + match goal with
      | |- context [coll_add ?x ?docs ?metas ?ids] =>
          destruct (coll_add x docs metas ids) as [c'|]
      end.
      * cbn. split; [reflexivity|]. split; [reflexivity|].
        eexists [_]. split; reflexivity.
      * cbn. split; [exact Ecw|]. split; [lia|].
        eexists [_]. split; reflexivity.
    + cbn. split; [exact Ecw|]. split; [reflexivity|].
      eexists [_]. split; reflexivity.
Qed.

(** The INGEST loop: the count is the number of documents counted, and
    the events queued are one for each document that was not skipped,
    in order. *)
Lemma ingest_fold_ingestions n rel : forall k (w : State Coll) cnt,
  Forall (fun d => title_of d <> None) rel ->
  let os := ingestions coll_add fetch now (collection w) k rel in
  let r := fold_left (istep n) (enumerate_from k rel) (w, cnt) in
  r.2 = cnt + len (List.filter is_counted os)
  /\ exists evs, queue r.1 = queue w ++ evs
                 /\ List.map event_type evs = omap ingestion_event os.
Proof.
  induction rel as [|d rel IH]; intros k w cnt Ht; cbv zeta.
  - simpl. split; [unfold len; simpl; lia|].
    exists []. rewrite app_nil_r. split; reflexivity.
  - inversion Ht as [|? ? Hd Hrel]; subst.
    rewrite enumerate_from_cons. cbn [fold_left ingestions].
    destruct (ingest_step_ingestion n w cnt k d Hd) as (Hc & Hcnt & evs1 & Hq1 & He1).
    cbv zeta in Hc, Hcnt, Hq1, He1.
    destruct (istep n (w, cnt) (k, d)) as [w1 cnt1]. cbn [fst snd] in Hc, Hcnt, Hq1.
    destruct (IH (S k) w1 cnt1 Hrel) as (Hcnt2 & evs2 & Hq2 & He2).
    cbv zeta in Hcnt2, Hq2, He2. rewrite Hc in Hcnt2, He2.
    set (o := ingestion_of coll_add fetch now (collection w) k d) in *.
    split.
    + rewrite Hcnt2, Hcnt. cbn [List.filter].
      destruct (is_counted o.1); unfold len; cbn [length]; lia.
    + exists (evs1 ++ evs2). split; [rewrite Hq2, Hq1, app_assoc; reflexivity|].
      rewrite List.map_app, He1, He2. cbn [omap list_omap].
      destruct (ingestion_event o.1); reflexivity.
Qed.

(** A document is scraped with some content exactly when it is
    counted or refused. *)
Lemma ingestion_scraped (c : option Coll) i d :
  truthy (scrape i (url_of d))
  = match (ingestion_of coll_add fetch now c i d).1 with
    | Skipped => false
    | _ => true
    end.
Proof.
  unfold ingestion_of.
  destruct (scrape i (url_of d)) as [[|a content]|]; try reflexivity.
  cbn [truthy]. destruct (chunks_of now i d (a :: content)); [reflexivity|].
  destruct c as [c|]; [|reflexivity].
  destruct (coll_add c _ _ _); reflexivity.
Qed.

Lemma ingestions_scraped rel : forall (c : option Coll) k,
  len (List.filter is_counted (ingestions coll_add fetch now c k rel))
  + len (List.filter is_refused (ingestions coll_add fetch now c k rel))
  = len (scraped fetch k rel).
Proof.
  induction rel as [|d rel IH]; intros c k; [reflexivity|].
  unfold scraped. rewrite enumerate_from_cons. cbn [ingestions List.filter fst snd].
  rewrite (ingestion_scraped c k d).
  specialize (IH (ingestion_of coll_add fetch now c k d).2 (S k)).
  unfold scraped in IH.
  destruct (ingestion_of coll_add fetch now c k d).1;
    cbn [is_counted is_refused]; unfold len in *; cbn [length]; lia.
Qed.

(** Nothing is refused without a store, or by a store that does not
    raise. *)
Lemma ingestion_not_refused (c : option Coll) i d :
  c = None \/ (forall c' docs metas ids, is_Some (coll_add c' docs metas ids)) ->
  (ingestion_of coll_add fetch now c i d).1 <> Refused
  /\ ((ingestion_of coll_add fetch now c i d).2 = None <-> c = None).
Proof.
  intros H. unfold ingestion_of.
  destruct (scrape i (url_of d)) as [[|a content]|];
    try (split; [discriminate | reflexivity]).
  destruct (chunks_of now i d (a :: content)) as [|ch chs];
    [split; [discriminate | reflexivity]|].
  destruct c as [c|]; [|split; [discriminate | reflexivity]].
  destruct H as [H|H]; [discriminate|].
  destruct (H c (List.map text (ch :: chs)) (List.map metadata (ch :: chs))
              (List.map (chunk_id d) (ch :: chs))) as [c' Hc'].
  rewrite Hc'. split; [discriminate|]. split; discriminate.
Qed.

Lemma ingestions_not_refused rel : forall (c : option Coll) k,
  c = None \/ (forall c' docs metas ids, is_Some (coll_add c' docs metas ids)) ->
  List.filter is_refused (ingestions coll_add fetch now c k rel) = [].
Proof.
  induction rel as [|d rel IH]; intros c k H; [reflexivity|].
  cbn [ingestions List.filter].
  destruct (ingestion_not_refused c k d H) as (Hn & Hc).
  rewrite IH.
  - destruct (ingestion_of coll_add fetch now c k d).1; try reflexivity. congruence.
  - destruct H as [H|H]; [left; apply Hc, H | right; exact H].
Qed.

(** The documents judged relevant have a title. *)
Lemma judged_relevant_titles (w : State Coll) k cands :
  Forall (fun d => title_of d <> None) (judged_relevant coll_get llm_says_yes w k cands).
Proof.
  apply List.Forall_forall. intros d Hd.
  unfold judged_relevant in Hd.
  apply in_map_iff in Hd as ([i e] & <- & H). apply filter_In in H as [_ H].
  apply andb_prop in H as [_ H]. cbn [fst snd] in H |- *.
  destruct (title_of e); [discriminate|]. discriminate H.
Qed.

End CycleClaims.

Section ScrapeFacts.
Import Scrape.

Lemma join_first sep (p : str) ps a r :
  p <> [] -> join sep (p :: ps) = a :: r -> exists p', p = a :: p'.
Proof.
  destruct p as [|c p']; [congruence|]. intros _.
  destruct ps; simpl; intros [= <- _]; eauto.
Qed.

(** The text of a page is empty or starts with a character that is not
    white space. *)
Lemma get_text_head strings a r :
  get_text strings = a :: r -> isspace a = false.
Proof.
  unfold get_text.
  destruct (List.filter nonempty (List.map strip strings)) as [|p ps] eqn:E;
    [discriminate|].
  assert (Hin : In p (List.filter nonempty (List.map strip strings)))
    by (rewrite E; left; reflexivity).
  apply filter_In in Hin as [Hin Hne]. apply in_map_iff in Hin as (x & <- & _).
  intros H. apply join_first in H as [p' Hp].
  - exact (strip_head _ _ _ Hp).
  - intros Hn. rewrite Hn in Hne. discriminate.
Qed.

Lemma sub_newlines_head a r :
  isspace a = false -> exists r', sub_newlines (a :: r) = a :: r'.
Proof.
  intros H. unfold sub_newlines. cbn [sub_newlines_go].
  destruct (a =? 0x0A)%N eqn:E.
  - apply N.eqb_eq in E. subst a. discriminate.
  - eexists. reflexivity.
Qed.

Lemma sub_spaces_head a r :
  isspace a = false -> exists r', sub_spaces (a :: r) = a :: r'.
Proof.
  intros H. unfold sub_spaces. cbn [sub_spaces_go].
  destruct (a =? 0x20)%N eqn:E.
  - apply N.eqb_eq in E. subst a. discriminate.
  - eexists. reflexivity.
Qed.

Lemma page_text_head p a r : page_text p = a :: r -> isspace a = false.
Proof.
  unfold page_text.
  set (content := if nonempty _ then _ else _).
  assert (Hc : forall c r0, content = c :: r0 -> isspace c = false).
  { subst content. destruct (element p) as [strings|]; cbn.
    - destruct (get_text strings) as [|c0 r1] eqn:E; cbn.
      + intros c r0. apply get_text_head.
      + intros c r0 [= <- _]. exact (get_text_head _ _ _ E).
    - intros c r0. apply get_text_head. }
  destruct content as [|c r0]; [discriminate|].
  pose proof (Hc c r0 eq_refl) as Hs.
  destruct (sub_newlines_head c r0 Hs) as [r1 ->].
  destruct (sub_spaces_head c r1 Hs) as [r2 ->].
  intros [= <- _]. exact Hs.
Qed.

Lemma slice_head (s : str) j a r :
  slice s 0 j = a :: r -> exists r', s = a :: r'.
Proof.
  unfold slice. change (Z.to_nat 0) with 0%nat. rewrite drop_0.
  destruct s as [|c s']; [rewrite take_nil; discriminate|].
  destruct (Z.to_nat j - 0)%nat; [discriminate|].
  simpl. intros [= <- _]. eauto.
Qed.

(** What [_scrape_document] returns of a page is empty or starts with a
    character that is not white space: the chunker finds a chunk in
    it. *)
Lemma scrape_document_head (http : nat -> str -> option Page) i url a content :
  _scrape_document (fetch_page http) i url = Some (a :: content) ->
  isspace a = false.
Proof.
  unfold _scrape_document, fetch_page.
  destruct url as [[|c u]|]; try discriminate.
  destruct (http i (c :: u)) as [p|]; [|discriminate]. cbn [option_map].
  intros [= H]. apply slice_head in H as [r' H].
  exact (page_text_head _ _ _ H).
Qed.

End ScrapeFacts.

Section IngestClaims.

Context {Coll : Type}.
Variable coll_get : Coll -> str -> option (list str).
Variable coll_add :
  Coll -> list str -> list (gmap string pyval) -> list str -> option Coll.
Variable search_lex_uz : nat -> str -> str -> list doc.
Variable llm_says_yes : nat -> str -> option bool.
Variable http : nat -> str -> option Scrape.Page.
Variable now : nat -> str.
Variable interp : Z -> Z -> nat -> nat -> Z.

Local Abbreviation fetch := (Scrape.fetch_page http).
Local Abbreviation scrape := (_scrape_document fetch).
Local Abbreviation istep := (ingest_step coll_add fetch now interp).
Local Abbreviation istage := (ingest_stage coll_add fetch now interp).
Local Abbreviation store := (store_chunks coll_add).
Local Abbreviation cycle := (run_cycle coll_get coll_add search_lex_uz
                                       llm_says_yes fetch now interp).

(** C10.  The INGEST stage of a cycle, whatever the store.  The count
    [ingested] is the number of relevant documents counted: those whose
    page gave some content and whose chunks the store did not refuse;
    with the documents refused they are the documents whose page gave
    some content, so that without a store, or with a store that does
    not raise, [ingested] is the number of those.  The events the stage
    queues are one ["ingest"] event for each document counted and one
    ["error"] event for each document refused, in order, and none for
    a document that is skipped.  One step: a document whose page gives
    no content is skipped, the count, the queue and the store as they
    were; a document whose page gives some content and whose chunks the
    store takes, or that has no chunk to store, or for which there is
    no store, adds one to the count, also when nothing was written;
    when the store raises, the count stays and an error is queued.  The
    content of a page does not start with white space, so that it
    always has a chunk: nothing is written only when there is no
    store. *)
Theorem C10_ingested_counts_scraped_documents (w : State Coll)
    (keywords : option (list str)) (date_filter : str) :
  let relevant_docs :=
    judged_relevant coll_get llm_says_yes w 0
      (_deduplicate (found_by search_lex_uz keywords date_filter)) in
  let outcomes := ingestions coll_add fetch now (collection w) 0 relevant_docs in
  let r := cycle w keywords date_filter in
  ingested r.2 = len (List.filter is_counted outcomes)
  /\ len (List.filter is_counted outcomes) + len (List.filter is_refused outcomes)
     = len (scraped fetch 0 relevant_docs)
  /\ (collection w = None
      \/ (forall c docs metas ids, is_Some (coll_add c docs metas ids)) ->
      ingested r.2 = len (scraped fetch 0 relevant_docs))
  /\ (exists (wj : State Coll) evs,
        collection wj = collection w
        /\ r.1 = (istage wj relevant_docs).1
        /\ queue r.1 = queue wj ++ evs
        /\ List.map event_type evs = omap ingestion_event outcomes)
  /\ (forall n cnt i d,
        let s := istep n (w, cnt) (i, d) in
        (truthy (scrape i (url_of d)) = false ->
           s.2 = cnt /\ queue s.1 = queue w
           /\ collection s.1 = collection w)
        /\ (forall a content,
              scrape i (url_of d) = Some (a :: content) ->
              let chunks := chunks_of now i d (a :: content) in
              isspace a = false
              /\ chunks <> []
              /\ (is_Some (store (log w (CallScrape d)) d chunks) ->
                    s.2 = cnt + 1)
              /\ (chunks = [] \/ collection w = None ->
                    s.2 = cnt + 1 /\ collection s.1 = collection w)
              /\ (store (log w (CallScrape d)) d chunks = None ->
                    s.2 = cnt
                    /\ exists ev, queue s.1 = queue w ++ [ev]
                                  /\ event_type ev = ev_error))).
Proof.
  cbv zeta.
  destruct (run_cycle_spec coll_get coll_add search_lex_uz llm_says_yes fetch
              now interp w keywords date_filter) as (wj & Hcj & _ & Heq).
  cbv zeta in Heq.
  set (rel := judged_relevant coll_get llm_says_yes w 0
                (_deduplicate (found_by search_lex_uz keywords date_filter))) in *.
  destruct (ingest_fold_ingestions coll_add fetch now interp (length rel) rel
              0 wj 0 (judged_relevant_titles coll_get llm_says_yes w 0 _))
    as (Hcnt & evs & Hq & Hev).
  cbv zeta in Hcnt, Hq, Hev. rewrite Hcj in Hcnt, Hev.
  fold (enumerate rel) in Hcnt, Hq.
  fold (ingest_stage coll_add fetch now interp wj rel) in Hcnt, Hq.
  pose proof (ingestions_scraped coll_add fetch now rel (collection w) 0) as Hsc.
  assert (Hing : ingested (cycle w keywords date_filter).2
                 = len (List.filter is_counted
                          (ingestions coll_add fetch now (collection w) 0 rel))).
  { rewrite Heq. cbn [snd ingested]. rewrite Hcnt. lia. }
  split; [exact Hing|]. split; [exact Hsc|]. split; [|split].
  - intros Hno. rewrite Hing, <- Hsc.
    rewrite (ingestions_not_refused coll_add fetch now rel (collection w) 0 Hno).
    unfold len. simpl. lia.
  - exists wj, evs. rewrite Heq. cbn [fst]. auto.
  - intros n cnt i d. split.
    + intros Hf. rewrite (ingest_step_skip coll_add fetch now interp) by exact Hf. auto.
    + intros a content Hs.
      pose proof (scrape_document_head http i _ a content Hs) as Ha.
      split; [exact Ha|]. split; [|split; [|split]].
      * apply chunk_document_nonnil, blank_head, Ha.
      * intros Hst.
        apply (ingest_step_stored coll_add fetch now interp n w cnt i d a content Hs Hst).
      * intros Hno.
        assert (Hst : store (log w (CallScrape d)) d
                        (chunks_of now i d (a :: content))
                      = Some (log w (CallScrape d)))
          by (apply store_nothing; exact Hno).
        unfold ingest_step. cbn [fst snd]. fold (url_of d). rewrite Hs, Hst.
        destruct (prefix_of _ 40); auto.
      * intros Hst.
        apply (ingest_step_failed coll_add fetch now interp n w cnt i d a content Hs Hst).
Qed.

End IngestClaims.

(** C7 (witness): one keyword, two results with the URL
    [https://lex.uz/docs/1], an empty store that accepts everything. *)
Lemma C7_dedup_then_check_then_judge_witness :
  let r := run_cycle demo_get demo_add demo_search demo_llm demo_fetch
             demo_now demo_interp demo_state (Some [py "subsidiya"])
             (py "after:2025-01-01") in
  checked r.2 = 1 /\ ingested r.2 = 1.
Proof.
  cbv zeta.
  destruct (C7_dedup_then_check_then_judge demo_get demo_add demo_search demo_llm
              demo_fetch demo_now demo_interp demo_state
              (Some [py "subsidiya"]) (py "after:2025-01-01"))
    as (_ & _ & _ & H).
  destruct (H (py "subsidiya")
              (demo_doc "https://lex.uz/docs/1" "Subsidiya to'g'risida")
              (demo_doc "https://lex.uz/docs/1" "Subsidiya (nusxa)")
              104%N (py "ttps://lex.uz/docs/1")
              eq_refl eq_refl eq_refl eq_refl) as (_ & Hchecked & Hingested).
  split; [exact Hchecked|].
  eapply (Hingested eq_refl eq_refl); [reflexivity|].
  eexists. vm_compute. reflexivity.
Defined.

(** C9 (witness): three results, the first with an empty URL, the second
    with none. *)
Lemma C9_candidates_without_url_dropped_witness :
  let r := run_cycle demo_get demo_add search_without_url demo_llm demo_fetch
             demo_now demo_interp demo_state (Some [py "subsidiya"])
             (py "after:2025-01-01") in
  (demo_doc "" "Subsidiya to'g'risida"
     ∉ _deduplicate (found_by search_without_url (Some [py "subsidiya"])
                              (py "after:2025-01-01")))
  /\ checked r.2 = 1.
Proof.
  cbv zeta.
  destruct (C9_candidates_without_url_dropped demo_get demo_add search_without_url
              demo_llm demo_fetch demo_now demo_interp demo_state
              (Some [py "subsidiya"]) (py "after:2025-01-01"))
    as (Hdrop & _ & Hchecked & _).
  split; [apply Hdrop; reflexivity|].
  rewrite Hchecked. vm_compute. reflexivity.
Defined.

(** C10 (witness): one relevant document whose page holds an article.
    Without a store it is counted though nothing is written; with a
    store it is counted and its chunk is written; when the page has no
    text the document is skipped, and the stage queues nothing. *)
Lemma C10_ingested_counts_scraped_documents_witness :
  let cycle_with page w :=
    run_cycle demo_get demo_add demo_search demo_llm (Scrape.fetch_page page)
              demo_now progress_of w (Some [py "subsidiya"])
              (py "after:2025-01-01") in
  _scrape_document (Scrape.fetch_page demo_page) 0 (Some (py "https://lex.uz/docs/1"))
  = Some (py "1-modda. Subsidiya beriladi.")
  /\ _scrape_document (Scrape.fetch_page empty_page) 0 (Some (py "https://lex.uz/docs/1"))
     = Some []
  /\ ingested (cycle_with demo_page demo_state_no_store).2 = 1
  /\ collection (cycle_with demo_page demo_state_no_store).1 = None
  /\ ingested (cycle_with demo_page demo_state).2 = 1
  /\ collection (cycle_with demo_page demo_state).1 = Some 1%nat
  /\ ingested (cycle_with empty_page demo_state).2 = 0
  /\ List.map event_type (queue (cycle_with empty_page demo_state).1)
     = [ev_search; ev_search; ev_search; ev_judge].
Proof.
  cbv zeta.
  destruct (C10_ingested_counts_scraped_documents demo_get demo_add demo_search
              demo_llm demo_page demo_now progress_of demo_state_no_store
              (Some [py "subsidiya"]) (py "after:2025-01-01"))
    as (_ & _ & Hnone & _).
  destruct (C10_ingested_counts_scraped_documents demo_get demo_add demo_search
              demo_llm demo_page demo_now progress_of demo_state
              (Some [py "subsidiya"]) (py "after:2025-01-01"))
    as (_ & _ & Hstore & _).
  destruct (C10_ingested_counts_scraped_documents demo_get demo_add demo_search
              demo_llm empty_page demo_now progress_of demo_state
              (Some [py "subsidiya"]) (py "after:2025-01-01"))
    as (_ & _ & Hempty & _).
  cbv zeta in Hnone, Hstore, Hempty.
  split; [vm_compute; reflexivity|]. split; [vm_compute; reflexivity|].
  split; [rewrite Hnone by (left; reflexivity); vm_compute; reflexivity|].
  split; [vm_compute; reflexivity|].
  split; [rewrite Hstore by (right; intros; eexists; reflexivity);
          vm_compute; reflexivity|].
  split; [vm_compute; reflexivity|].
  split; [rewrite Hempty by (right; intros; eexists; reflexivity);
          vm_compute; reflexivity|].
  vm_compute. reflexivity.
Defined.

(* ===================================================================== *)
(** ** Properties of the scout router *)
(* ===================================================================== *)

Section Router.
Import ScoutRouter.

Lemma any_running_spec (jobs : gmap str bool) :
  any_running jobs = true <-> exists j, jobs !! j = Some true.
Proof.
  unfold any_running. rewrite bool_decide_eq_true. unfold map_Exists. split.
  - intros (j & v & Hj & ->). eauto.
  - intros (j & Hj). eauto.
Qed.

End Router.

(** C8.  When some job is marked running and [force_refresh] is false,
    [trigger_scout] answers [already_running] and leaves the registry and
    the background tasks as they were.  A trigger that is admitted
    registers its job and adds one task for it; and whatever the run of a
    job does (a tally, an [ImportError], another exception, or something
    no handler catches) its entry is gone from the registry when
    [run_scout_cycle] ends, the other entries untouched. *)
Theorem C8_admission_and_cleanup :
  (forall uuid4 scout_date_filter request s j,
     ScoutRouter._running_jobs s !! j = Some true ->
     ScoutRouter.force_refresh request = false ->
     ScoutRouter.status (ScoutRouter.trigger_scout uuid4 scout_date_filter request s).1
       = ScoutRouter.already_running
     /\ (ScoutRouter.trigger_scout uuid4 scout_date_filter request s).2 = s)
  /\ (forall uuid4 scout_date_filter request s,
        ScoutRouter.status (ScoutRouter.trigger_scout uuid4 scout_date_filter request s).1
          = ScoutRouter.started ->
        let r := ScoutRouter.trigger_scout uuid4 scout_date_filter request s in
        ScoutRouter._running_jobs r.2 !! ScoutRouter.job_id r.1 = Some true
        /\ exists task,
             ScoutRouter.background_tasks r.2 = ScoutRouter.background_tasks s ++ [task]
             /\ ScoutRouter.task_job_id task = ScoutRouter.job_id r.1)
  /\ (forall attempt relevant job_id keywords date_filter s q,
        let r := ScoutRouter.run_scout_cycle attempt relevant job_id keywords
                   date_filter (s, q) in
        ScoutRouter._running_jobs r.1.1 !! job_id = None
        /\ (forall j, j <> job_id ->
              ScoutRouter._running_jobs r.1.1 !! j = ScoutRouter._running_jobs s !! j)
        /\ ScoutRouter.background_tasks r.1.1 = ScoutRouter.background_tasks s).
Proof.
  split; [|split].
  - intros uuid4 sdf request s j Hj Hf. unfold ScoutRouter.trigger_scout.
    assert (Hr : ScoutRouter.any_running (ScoutRouter._running_jobs s) = true)
      by (apply any_running_spec; eauto).
    rewrite Hr, Hf. auto.
  - intros uuid4 sdf request s. unfold ScoutRouter.trigger_scout.
    destruct (_ && _); [discriminate|]. intros _. cbv zeta. cbn.
    split; [apply lookup_insert_eq|]. eexists. split; reflexivity.
  - intros attempt relevant job_id keywords date_filter s q. cbv zeta.
    unfold ScoutRouter.run_scout_cycle. cbn [fst snd].
    destruct (attempt _ _ _) as [q' [result|[| |]]]; cbn;
      (split; [apply lookup_delete_eq|]; split; [|reflexivity];
       intros j Hj; apply lookup_delete_ne; congruence).
Qed.

(** C8 (witness): a second trigger while the job [job-1] runs, and the
    end of that job's run on an exception. *)
Lemma C8_admission_and_cleanup_witness :
  let s := ScoutRouter.mkServer {[ py "job-1" := true ]} [] in
  let request := ScoutRouter.mkRequest None None false in
  let r := ScoutRouter.trigger_scout (py "job-2") (py "after:2025-01-01") request s in
  ScoutRouter.status r.1 = ScoutRouter.already_running
  /\ r.2 = s
  /\ ScoutRouter._running_jobs
       (ScoutRouter.run_scout_cycle
          (fun _ _ q => (q, inr ScoutRouter.OtherException)) (fun _ => true)
          (py "job-1") None (py "after:2025-01-01") (s, [])).1.1
     !! py "job-1" = None.
Proof.
  cbv zeta. destruct C8_admission_and_cleanup as (Hadm & _ & Hfin).
  destruct (Hadm (py "job-2") (py "after:2025-01-01")
              (ScoutRouter.mkRequest None None false)
              (ScoutRouter.mkServer {[ py "job-1" := true ]} [])
              (py "job-1") (lookup_singleton_eq _ _) eq_refl) as (Hst & Hs).
  split; [exact Hst|]. split; [exact Hs|].
  exact (proj1 (Hfin (fun _ _ q => (q, inr ScoutRouter.OtherException))
                     (fun _ => true) (py "job-1") None (py "after:2025-01-01")
                     (ScoutRouter.mkServer {[ py "job-1" := true ]} []) [])).
Defined.

(* ===================================================================== *)
(** ** Further properties of the chunker *)
(* ===================================================================== *)

Section CleanForm.

Lemma tidy_sub_ws_go b s : tidy_from b (sub_ws_go b s) = true.
Proof.
  revert b. induction s as [|c r IH]; intros b; [reflexivity|]. simpl.
  destruct (isspace c) eqn:E.
  - destruct b; [apply IH|]. simpl. rewrite IH. reflexivity.
  - simpl. rewrite E. apply IH.
Qed.

Lemma tidy_weaken s : tidy_from true s = true -> tidy_from false s = true.
Proof.
  destruct s as [|c r]; [reflexivity|]. simpl.
  destruct (isspace c); [|tauto].
  rewrite andb_false_r. discriminate.
Qed.

Lemma tidy_lstrip s : tidy_from false s = true -> tidy_from true (lstrip s) = true.
Proof.
  induction s as [|c r IH]; [reflexivity|]. simpl.
  destruct (isspace c) eqn:E.
  - intros H. apply andb_prop in H as [_ H]. apply IH, tidy_weaken, H.
  - intros H. simpl. rewrite E. exact H.
Qed.

Lemma clean_rstrip s : forall b,
  tidy_from b s = true ->
  match rstrip s with [] => True | z => clean_from b z = true end.
Proof.
  induction s as [|c r IH]; intros b; [simpl; trivial|]. simpl.
  destruct (isspace c) eqn:E.
  - intros H. apply andb_prop in H as [H Ht]. specialize (IH true Ht).
    destruct (rstrip r) as [|d r']; [trivial|].
    change (clean_from b (c :: d :: r') = true).
    simpl. simpl in IH. rewrite E, H. exact IH.
  - intros Ht. specialize (IH false Ht).
    destruct (rstrip r) as [|d r'].
    + simpl. rewrite E. reflexivity.
    + change (clean_from b (c :: d :: r') = true).
      simpl. simpl in IH. rewrite E. exact IH.
Qed.

Lemma is_clean_strip s : tidy_from false s = true -> is_clean (strip s) = true.
Proof.
  intros H. rewrite strip_eq. apply tidy_lstrip in H.
  pose proof (clean_rstrip _ _ H) as Hc. unfold is_clean.
  destruct (rstrip (lstrip s)); [reflexivity | exact Hc].
Qed.

Lemma is_clean_clean_text t : is_clean (_clean_text t) = true.
Proof.
  unfold _clean_text. rewrite sub_newlines_after_sub_ws.
  apply is_clean_strip, tidy_sub_ws_go.
Qed.

(** What the form says, character by character. *)
Lemma clean_tidy b s : clean_from b s = true -> tidy_from b s = true.
Proof.
  revert b. induction s as [|c r IH]; intros b; [reflexivity|]. simpl.
  destruct (isspace c); [|apply IH].
  intros H. apply andb_prop in H as [H Hc]. rewrite H. apply IH, Hc.
Qed.

Lemma tidy_spaces b s c :
  tidy_from b s = true -> In c s -> isspace c = true -> c = 0x20%N.
Proof.
  revert b. induction s as [|d r IH]; intros b; simpl; [tauto|].
  destruct (isspace d) eqn:E.
  - intros H [->|Hin] Hs.
    + apply andb_prop in H as [H _]. apply andb_prop in H as [H _].
      apply N.eqb_eq in H. exact H.
    + apply andb_prop in H as [_ H]. exact (IH _ H Hin Hs).
  - intros H [->|Hin] Hs; [congruence | exact (IH _ H Hin Hs)].
Qed.

Lemma tidy_no_double b s i c d :
  tidy_from b s = true -> s !! i = Some c -> s !! S i = Some d ->
  isspace c = true -> isspace d = false.
Proof.
  revert b i. induction s as [|e r IH]; intros b i H Hc Hd Hs; [discriminate|].
  destruct i as [|i].
  - simpl in Hc, Hd. inversion Hc; subst e. simpl in H. rewrite Hs in H.
    apply andb_prop in H as [_ H].
    destruct r as [|f r']; [discriminate|]. simpl in Hd. inversion Hd; subst f.
    simpl in H. destruct (isspace d); [|reflexivity].
    rewrite andb_false_r in H. discriminate.
  - simpl in Hc, Hd. simpl in H.
    destruct (isspace e).
    + apply andb_prop in H as [_ H]. exact (IH _ _ H Hc Hd Hs).
    + exact (IH _ _ H Hc Hd Hs).
Qed.

Lemma clean_head s c r : clean_from true s = true -> s = c :: r -> isspace c = false.
Proof.
  intros H ->. simpl in H. destruct (isspace c); [|reflexivity].
  rewrite andb_false_r in H. discriminate.
Qed.

Lemma clean_last b s c : clean_from b s = true -> last s = Some c -> isspace c = false.
Proof.
  revert b. induction s as [|d r IH]; intros b H Hl; [discriminate|].
  simpl in H. destruct r as [|e r'].
  - simpl in Hl. inversion Hl; subst d.
    destruct (isspace c); [|reflexivity].
    simpl in H. rewrite andb_false_r in H. discriminate.
  - change (last (d :: e :: r')) with (last (e :: r')) in Hl.
    destruct (isspace d).
    + apply andb_prop in H as [_ H]. exact (IH _ H Hl).
    + exact (IH _ H Hl).
Qed.

(** A clean text is left as it is. *)
Lemma sub_ws_go_tidy b s : tidy_from b s = true -> sub_ws_go b s = s.
Proof.
  revert b. induction s as [|c r IH]; intros b; [reflexivity|]. simpl.
  destruct (isspace c) eqn:E.
  - intros H. apply andb_prop in H as [H Ht]. apply andb_prop in H as [Hc Hb].
    apply N.eqb_eq in Hc. destruct b; [discriminate|].
    rewrite (IH true Ht). congruence.
  - intros Ht. rewrite (IH false Ht). reflexivity.
Qed.

Lemma lstrip_clean s : clean_from true s = true -> lstrip s = s.
Proof.
  destruct s as [|c r]; [reflexivity|]. simpl.
  destruct (isspace c); [|reflexivity].
  rewrite andb_false_r. discriminate.
Qed.

Lemma rstrip_clean s : forall b, clean_from b s = true -> s <> [] -> rstrip s = s.
Proof.
  induction s as [|c r IH]; intros b H Hne; [congruence|]. simpl in *.
  destruct r as [|d r'].
  - simpl. destruct (isspace c); [|reflexivity].
    simpl in H. rewrite andb_false_r in H. discriminate.
  - assert (Hr : rstrip (d :: r') = d :: r').
    { destruct (isspace c).
      - apply andb_prop in H as [_ H]. apply (IH true H). discriminate.
      - apply (IH false H). discriminate. }
    rewrite Hr. reflexivity.
Qed.

Lemma clean_text_fixed s : is_clean s = true -> _clean_text s = s.
Proof.
  destruct s as [|c r]; [reflexivity|]. unfold is_clean. intros H.
  unfold _clean_text. rewrite sub_newlines_after_sub_ws. unfold sub_ws.
  rewrite sub_ws_go_tidy by (apply tidy_weaken, clean_tidy, H).
  rewrite strip_eq, (lstrip_clean _ H).
  apply (rstrip_clean _ true H). discriminate.
Qed.

End CleanForm.

(** X1.  [_clean_text] returns a text in which the only white space is
    the single space U+0020, never two in a row, and never at the start
    or at the end. *)
Theorem clean_text_form (t : str) :
  let out := _clean_text t in
  (forall c, In c out -> isspace c = true -> c = 0x20%N)
  /\ (forall i c d, out !! i = Some c -> out !! S i = Some d ->
        isspace c = true -> isspace d = false)
  /\ (forall c, head out = Some c -> isspace c = false)
  /\ (forall c, last out = Some c -> isspace c = false).
Proof.
  cbv zeta. pose proof (is_clean_clean_text t) as H.
  destruct (_clean_text t) as [|a r] eqn:E.
  - repeat split; intros; try discriminate. contradiction.
  - unfold is_clean in H. pose proof (clean_tidy _ _ H) as Ht.
    split; [intros c; apply (tidy_spaces _ _ _ Ht)|].
    split; [intros i c d; apply (tidy_no_double _ _ _ _ _ Ht)|].
    split.
    + intros c Hc. simpl in Hc. inversion Hc; subst.
      eapply clean_head; [exact H | reflexivity].
    + intros c. apply (clean_last _ _ _ H).
Qed.

(** X2.  Cleaning is idempotent, and [chunk_document] gives the same
    chunks for a text and for its cleaned form. *)
Theorem clean_text_idempotent (t : str) (doc_id title : pyval)
    (md : option (gmap string pyval)) :
  _clean_text (_clean_text t) = _clean_text t
  /\ chunk_document (_clean_text t) doc_id title md
     = chunk_document t doc_id title md.
Proof.
  assert (Hid : _clean_text (_clean_text t) = _clean_text t)
    by (apply clean_text_fixed, is_clean_clean_text).
  split; [exact Hid|].
  unfold chunk_document, pre_overlap. rewrite Hid.
  rewrite !blank_has_nonspace.
  assert (Hb : has_nonspace (_clean_text t) = has_nonspace t).
  { unfold _clean_text, sub_newlines, sub_ws.
    rewrite strip_eq.
    pose proof (nonempty_clean t) as Hn. unfold _clean_text, sub_newlines, sub_ws in Hn.
    rewrite strip_eq in Hn.
    destruct (rstrip _) as [|c r] eqn:Er.
    - simpl in Hn. rewrite <- Hn. reflexivity.
    - rewrite <- Hn. simpl nonempty.
      pose proof (is_clean_clean_text t) as Hc.
      unfold _clean_text, sub_newlines, sub_ws in Hc. rewrite strip_eq, Er in Hc.
      unfold is_clean in Hc. simpl. 
      assert (Hh : isspace c = false) by (eapply clean_head; [exact Hc | reflexivity]).
      rewrite Hh. reflexivity. }
  rewrite Hb. reflexivity.
Qed.

Section Rejoin.

Lemma join_cons sep p ps : ps <> [] -> join sep (p :: ps) = p ++ sep ++ join sep ps.
Proof. destruct ps; [congruence | reflexivity]. Qed.

Lemma join_head sep c p ps : join sep ((c :: p) :: ps) = c :: join sep (p :: ps).
Proof. destruct ps; reflexivity. Qed.

Lemma startswith_app sep s : startswith sep s = true -> s = sep ++ drop (length sep) s.
Proof.
  revert s. induction sep as [|a sep IH]; intros s; [reflexivity|].
  destruct s as [|c r]; [discriminate|]. cbn [startswith]. intros H.
  apply andb_prop in H as [Ha Hr]. apply N.eqb_eq in Ha. subst c.
  simpl. f_equal. apply IH, Hr.
Qed.

(** Splitting on a separator and joining with it gives the text back. *)
Lemma join_split_go sep s : forall k,
  sep <> [] -> (k <= length s)%nat -> join sep (split_go sep k s) = drop k s.
Proof.
  induction s as [|c r IH]; intros k Hsep Hk.
  - simpl in Hk. replace k with 0%nat by lia. reflexivity.
  - destruct k as [|k]; [|simpl in *; apply IH; [exact Hsep | lia]].
    cbn [split_go drop]. destruct (startswith sep (c :: r)) eqn:E.
    + rewrite join_cons by apply split_go_nonnil.
      pose proof (startswith_app _ _ E) as Hs.
      destruct sep as [|a sep']; [congruence|].
      assert (Hl : (length sep' <= length r)%nat).
      { apply (f_equal (@length _)) in Hs. rewrite length_app in Hs.
        simpl in Hs. lia. }
      replace (length (a :: sep') - 1)%nat with (length sep') by (simpl; lia).
      rewrite IH by (auto; lia).
      simpl in Hs. simpl. exact (eq_sym Hs).
    + pose proof (IH 0%nat Hsep ltac:(lia)) as H0. simpl in H0.
      destruct (split_go sep 0 r) as [|p ps] eqn:Es.
      * exfalso. exact (split_go_nonnil _ _ _ Es).
      * rewrite join_head, H0. reflexivity.
Qed.

Lemma join_split sep s : sep <> [] -> join sep (split sep s) = s.
Proof. intros H. unfold split. apply (join_split_go sep s 0 H). lia. Qed.

Lemma join_all_app sep a b : join_all sep (a ++ b) = join_all sep a ++ join_all sep b.
Proof. unfold join_all. rewrite map_app, concat_app. reflexivity. Qed.

Lemma join_all_join sep ps : ps <> [] -> join_all sep ps = sep ++ join sep ps.
Proof.
  induction ps as [|p ps IH]; [congruence|]. intros _.
  destruct ps as [|q ps].
  - unfold join_all. simpl. rewrite app_nil_r. reflexivity.
  - rewrite join_cons by discriminate.
    change (join_all sep (p :: q :: ps)) with ((sep ++ p) ++ join_all sep (q :: ps)).
    rewrite IH by discriminate. rewrite <- app_assoc. reflexivity.
Qed.

Lemma join_all_flushed sep st :
  join_all sep (flushed sep st) = join_all sep st.1.1 ++ join_all sep st.1.2.
Proof.
  destruct st as [[res cur] n]. unfold flushed. simpl.
  destruct cur as [|p ps]; [rewrite app_nil_r; reflexivity|].
  rewrite join_all_app. f_equal.
  rewrite (join_all_join sep (p :: ps)) by discriminate.
  unfold join_all. simpl. rewrite app_nil_r. reflexivity.
Qed.

Lemma pack_flushed sep w parts :
  pack sep w parts = flushed sep (fold_left (pack_step sep w) parts ([], [], 0)).
Proof.
  unfold pack, flushed.
  destruct (fold_left _ _ _) as [[res cur] n]. reflexivity.
Qed.

Lemma join_all_cons sep p ps : join_all sep (p :: ps) = sep ++ p ++ join_all sep ps.
Proof. unfold join_all. simpl. rewrite <- app_assoc. reflexivity. Qed.

Lemma join_all_pack_fold sep w parts : forall st,
  join_all sep (flushed sep (fold_left (pack_step sep w) parts st))
  = join_all sep (flushed sep st) ++ join_all sep parts.
Proof.
  induction parts as [|p parts IH]; intros st; simpl.
  - rewrite app_nil_r. reflexivity.
  - rewrite IH. rewrite !join_all_flushed, join_all_cons.
    destruct st as [[res cur] n]. unfold pack_step.
    destruct (n + w p <=? target_size); cbn [fst snd].
    + rewrite join_all_app, join_all_cons.
      change (join_all sep []) with (@nil char).
      rewrite <- !app_assoc. reflexivity.
    + rewrite join_all_cons. change (join_all sep []) with (@nil char).
      pose proof (join_all_flushed sep (res, cur, n)) as Hres.
      unfold flushed in Hres. cbn [fst snd] in Hres. rewrite Hres.
      rewrite <- !app_assoc. reflexivity.
Qed.

Lemma join_pack sep w parts : join sep (pack sep w parts) = join sep parts.
Proof.
  destruct parts as [|p parts]; [reflexivity|].
  pose proof (join_all_pack_fold sep w (p :: parts) ([], [], 0)) as H.
  rewrite <- pack_flushed in H. change (flushed sep ([], [], 0)) with (@nil str) in H.
  change (join_all sep []) with (@nil char) in H. simpl app in H.
  rewrite !join_all_join in H by (try discriminate; apply pack_nonnil; discriminate).
  apply app_inv_head in H. exact H.
Qed.

End Rejoin.

Section PackBound.

Variable sep : str.
Variable all : list str.

Lemma len_part_with_sep p : len (part_with_sep sep p) = len p + len sep.
Proof.
  unfold part_with_sep. destruct (decide (sep ≠ py " ")) as [H|H].
  - apply len_app.
  - apply dec_stable in H. rewrite H. apply len_app.
Qed.

Lemma sum_weights_snoc w ps p : sum_weights w (ps ++ [p]) = sum_weights w ps + w p.
Proof. induction ps as [|q ps IH]; simpl; [lia|]. rewrite IH. lia. Qed.

Lemma len_join ps :
  ps <> [] ->
  len (join sep ps) + len sep
  = sum_weights (fun p => len (part_with_sep sep p)) ps.
Proof.
  induction ps as [|p ps IH]; [congruence|]. intros _.
  destruct ps as [|q ps].
  - simpl. rewrite len_part_with_sep. lia.
  - rewrite join_cons by discriminate. rewrite !len_app.
    change (sum_weights _ (p :: q :: ps))
      with (len (part_with_sep sep p)
            + sum_weights (fun p => len (part_with_sep sep p)) (q :: ps)).
    rewrite <- IH by discriminate. rewrite len_part_with_sep. lia.
Qed.

Lemma within_join cur n :
  Forall (fun p => In p all) cur ->
  n = sum_weights (fun p => len (part_with_sep sep p)) cur ->
  (length cur <= 1)%nat \/ n <= target_size ->
  cur <> [] -> within sep all (join sep cur).
Proof.
  intros Hin Hn Hb Hne. destruct Hb as [Hb|Hb].
  - destruct cur as [|p [|q cur]]; [congruence | | simpl in Hb; lia].
    right. simpl. inversion Hin; assumption.
  - left. rewrite len_join by exact Hne. lia.
Qed.

Lemma pack_fold_bound parts : forall st,
  Forall (within sep all) st.1.1 ->
  Forall (fun p => In p all) st.1.2 ->
  Forall (fun p => In p all) parts ->
  st.2 = sum_weights (fun p => len (part_with_sep sep p)) st.1.2 ->
  (length st.1.2 <= 1)%nat \/ st.2 <= target_size ->
  Forall (within sep all)
         (flushed sep (fold_left (pack_step sep (fun p => len (part_with_sep sep p)))
                                 parts st)).
Proof.
  induction parts as [|p parts IH]; intros [[res cur] n]; cbn [fst snd fold_left];
    intros Hres Hcur Hparts Hn Hb.
  - unfold flushed. cbn [fst snd]. destruct cur as [|q cur]; [exact Hres|].
    apply Forall_app. split; [exact Hres|]. constructor; [|constructor].
    apply (within_join (q :: cur) n); auto; discriminate.
  - pose proof (Forall_inv Hparts) as Hp. pose proof (Forall_inv_tail Hparts) as Hps.
    unfold pack_step.
    destruct (n + len (part_with_sep sep p) <=? target_size) eqn:E.
    + apply Z.leb_le in E. apply IH; cbn [fst snd].
      * exact Hres.
      * apply Forall_app. split; [exact Hcur | constructor; [exact Hp | constructor]].
      * exact Hps.
      * rewrite sum_weights_snoc. lia.
      * right. lia.
    + apply IH; cbn [fst snd].
      * destruct cur as [|q cur]; [exact Hres|].
        apply Forall_app. split; [exact Hres|]. constructor; [|constructor].
        apply (within_join (q :: cur) n); auto; discriminate.
      * constructor; [exact Hp | constructor].
      * exact Hps.
      * simpl. lia.
      * left. simpl. lia.
Qed.

Lemma pack_bound :
  Forall (within sep all)
         (pack sep (fun p => len (part_with_sep sep p)) all).
Proof.
  rewrite pack_flushed. apply pack_fold_bound; cbn [fst snd].
  - constructor.
  - constructor.
  - apply List.Forall_forall. auto.
  - reflexivity.
  - left. simpl. lia.
Qed.

End PackBound.

Section HardSplit.

Lemma concat_takes (c : nat) (t : str) n :
  concat (List.map (fun k => take c (drop (k * c) t)) (seq 0 n)) = take (n * c) t.
Proof.
  induction n as [|n IH]; [reflexivity|].
  rewrite seq_S, map_app, concat_app, IH. simpl. rewrite app_nil_r.
  rewrite take_take_drop. f_equal. lia.
Qed.

Lemma hard_split_eq t :
  hard_split t
  = List.map (fun k => take 2048 (drop (k * 2048) t))
             (seq 0 (Z.to_nat ((len t + 2047) / 2048))).
Proof.
  unfold hard_split, range_step, target_size, TARGET_CHUNK_SIZE.
  rewrite List.map_map. replace (len t + 2048 - 1) with (len t + 2047) by lia.
  apply map_ext. intros k. unfold slice. f_equal; [|f_equal]; lia.
Qed.

Lemma hard_split_spec t :
  concat (hard_split t) = t
  /\ Forall (fun p => 0 < len p <= target_size) (hard_split t).
Proof.
  rewrite hard_split_eq. split.
  - rewrite concat_takes. apply take_ge. unfold len.
    pose proof (Z.mul_succ_div_gt (Z.of_nat (length t) + 2047) 2048 ltac:(lia)).
    pose proof (Z.div_pos (Z.of_nat (length t) + 2047) 2048 ltac:(lia) ltac:(lia)).
    lia.
  - apply List.Forall_forall. intros p Hp. apply in_map_iff in Hp as (k & <- & Hk).
    apply in_seq in Hk. unfold len, target_size, TARGET_CHUNK_SIZE.
    rewrite length_take, length_drop.
    assert (Z.of_nat k * 2048 < Z.of_nat (length t)).
    { unfold len in Hk.
      pose proof (Z.mul_div_le (Z.of_nat (length t) + 2047) 2048 ltac:(lia)).
      pose proof (Z.div_pos (Z.of_nat (length t) + 2047) 2048 ltac:(lia) ltac:(lia)).
      nia. }
    lia.
Qed.

End HardSplit.

Section RecursiveSplit.

Lemma split_with_first seps t :
  split_with seps t
  = match List.find (fun sep => contains sep t) seps with
    | Some sep => pack sep (fun part => len (part_with_sep sep part)) (split sep t)
    | None => hard_split t
    end.
Proof.
  induction seps as [|sep rest IH]; [reflexivity|]. simpl.
  destruct (contains sep t); [|exact IH].
  pose proof (pack_nonnil sep (fun part => len (part_with_sep sep part))
                (split sep t) (split_go_nonnil _ _ _)) as Hn.
  destruct (pack _ _ _); [congruence | reflexivity].
Qed.

Lemma separators_nonempty sep : In sep separators -> sep <> [].
Proof.
  unfold separators. simpl. intros H.
  repeat (destruct H as [<-|H]; [discriminate|]). destruct H.
Qed.

End RecursiveSplit.

(** X3.  [_split_by_sections] loses nothing: its pieces, joined by a
    blank line, are the text it was given. *)
Theorem split_by_sections_rejoin (t : str) :
  join [0x0A; 0x0A]%N (_split_by_sections t) = t.
Proof.
  unfold _split_by_sections. destruct (1 <? length _)%nat; [|reflexivity].
  rewrite join_pack. apply join_split. discriminate.
Qed.

(** X4.  [_recursive_split] loses nothing either.  It settles on the
    first separator of its list that occurs in the text, and its
    pieces joined by that separator are the text; when no separator
    occurs, the pieces put end to end are the text. *)
Theorem recursive_split_rejoin (t : str) :
  match first_separator t with
  | Some sep =>
      In sep separators /\ contains sep t = true
      /\ join sep (_recursive_split t) = t
  | None => concat (_recursive_split t) = t
  end.
Proof.
  unfold _recursive_split. rewrite split_with_first. fold (first_separator t).
  destruct (first_separator t) as [sep|] eqn:E.
  - apply find_some in E as [Hin Hc]. split; [exact Hin|]. split; [exact Hc|].
    rewrite join_pack. apply join_split, separators_nonempty, Hin.
  - apply hard_split_spec.
Qed.

(** X5.  The size of the pieces of [_recursive_split].  A piece, with
    the separator that follows it, fits the target size of 2048
    characters, unless it is a single part between two occurrences of
    the separator, which is emitted whole whatever its length.  Without
    any separator in the text, every piece has between 1 and 2048
    characters. *)
Theorem recursive_split_piece_bound (t : str) :
  match first_separator t with
  | Some sep =>
      Forall (fun p => len p + len sep <= TARGET_CHUNK_SIZE \/ In p (split sep t))
             (_recursive_split t)
  | None =>
      Forall (fun p => 0 < len p <= TARGET_CHUNK_SIZE) (_recursive_split t)
  end.
Proof.
  unfold _recursive_split. rewrite split_with_first. fold (first_separator t).
  destruct (first_separator t) as [sep|].
  - apply pack_bound.
  - apply hard_split_spec.
Qed.

Section ChunkFields.

Lemma number_fields doc_id md n segs c :
  In c (number doc_id md n segs) ->
  document_id c = doc_id
  /\ exists a, article c = Some a /\ metadata c = <["article" := Some a]> md.
Proof.
  revert n. induction segs as [|[[a ty] t] r IH]; intros n; simpl; [tauto|].
  intros [<-|H]; [|exact (IH _ H)].
  split; [reflexivity|]. exists a. split; reflexivity.
Qed.

Lemma add_overlap_fields cs c :
  In c (_add_overlap cs) ->
  exists c', In c' cs
    /\ document_id c = document_id c' /\ article c = article c'
    /\ metadata c = metadata c' /\ index c = index c' /\ chunk_type c = chunk_type c'.
Proof.
  intros H.
  pose proof (add_overlap_map
    (fun c => (document_id c, article c, metadata c, index c, chunk_type c)) cs
    (fun c t => eq_refl)) as Hm.
  apply (in_map (fun c => (document_id c, article c, metadata c, index c, chunk_type c))) in H.
  rewrite Hm in H. apply in_map_iff in H as (c' & Hf & Hc').
  exists c'. split; [exact Hc'|]. inversion Hf. auto.
Qed.

Lemma chunk_document_fields t doc_id title md c :
  In c (chunk_document t doc_id title md) ->
  document_id c = doc_id
  /\ exists a, article c = Some a
       /\ metadata c = <["article" := Some a]> (base_metadata_of doc_id title md).
Proof.
  unfold chunk_document. destruct (blank t); [intros []|]. intros H.
  apply add_overlap_fields in H as (c' & Hc' & Hd & Ha & Hm & _).
  unfold pre_overlap in Hc'. rewrite build_chunks_eq in Hc'.
  apply number_fields in Hc' as (Hd' & a & Ha' & Hm').
  split; [congruence|]. exists a. split; congruence.
Qed.

End ChunkFields.

(** X6.  What every chunk of [chunk_document] carries besides its text:
    the document identifier it was called with, the label of its
    article, and a metadata dictionary holding that label under
    ["article"], the title under ["title"], the identifier under
    ["document_id"], and the caller's metadata under every other key. *)
Theorem chunk_metadata (t : str) (doc_id title : pyval)
    (md : option (gmap string pyval)) (c : Chunk) :
  In c (chunk_document t doc_id title md) ->
  document_id c = doc_id
  /\ (exists a, article c = Some a /\ metadata c !! "article" = Some (Some a))
  /\ metadata c !! "title" = Some title
  /\ metadata c !! "document_id" = Some doc_id
  /\ forall k, k <> "article" -> k <> "title" -> k <> "document_id" ->
       metadata c !! k = default ∅ md !! k.
Proof.
  intros H. apply chunk_document_fields in H as (Hd & a & Ha & Hm).
  split; [exact Hd|]. rewrite Hm. unfold base_metadata_of.
  split; [exists a; split; [exact Ha | apply lookup_insert_eq]|].
  split; [rewrite lookup_insert_ne by discriminate; apply lookup_insert_eq|].
  split.
  - rewrite !lookup_insert_ne by discriminate. apply lookup_insert_eq.
  - intros k H1 H2 H3. rewrite !lookup_insert_ne by congruence. reflexivity.
Qed.

(** X6 (witness): a chunk of a document ingested with a source URL. *)
Lemma chunk_metadata_witness :
  exists c,
    In c (chunk_document (py "1-modda. Soliq imtiyozi.") (Some (py "PQ-60"))
            (Some (py "Qaror")) (Some {[ "source_url" := Some (py "https://lex.uz/docs/1") ]}))
    /\ metadata c !! "source_url" = Some (Some (py "https://lex.uz/docs/1"))
    /\ metadata c !! "document_id" = Some (Some (py "PQ-60")).
Proof.
  assert (H : exists c,
    In c (chunk_document (py "1-modda. Soliq imtiyozi.") (Some (py "PQ-60"))
            (Some (py "Qaror")) (Some {[ "source_url" := Some (py "https://lex.uz/docs/1") ]})))
    by (vm_compute; eexists; left; reflexivity).
  destruct H as [c Hc]. exists c. split; [exact Hc|].
  destruct (chunk_metadata _ _ _ _ _ Hc) as (_ & _ & _ & Hid & Hk).
  split; [|exact Hid].
  rewrite Hk by discriminate. reflexivity.
Defined.

Section ArticleForm.

Lemma span_forallb p s a b : span p s = (a, b) -> forallb p a = true.
Proof.
  revert a b. induction s as [|c s IH]; intros a b; simpl.
  - intros H. inversion H. reflexivity.
  - destruct (p c) eqn:E.
    + destruct (span p s) as [a' b'] eqn:Es. intros H. inversion H; subst.
      simpl. rewrite E. exact (IH _ _ eq_refl).
    + intros H. inversion H. reflexivity.
Qed.

Lemma match_number_dash_word_num s n num :
  match_number_dash_word s = Some (n, num) ->
  num <> [] /\ forallb isdecimal num = true.
Proof.
  unfold match_number_dash_word.
  destruct (span isdecimal s) as [digits r1] eqn:E1.
  destruct digits as [|d ds]; [discriminate|].
  destruct (span isspace r1) as [ws1 r2].
  destruct r2 as [|c r3]; [discriminate|].
  destruct (is_dash c); [|discriminate].
  destruct (span isspace r3) as [ws2 r4].
  destruct (word_at _ r4); [|discriminate].
  intros H. inversion H; subst. split; [discriminate|].
  exact (span_forallb _ _ _ _ E1).
Qed.

Lemma match_word_number_num s n num :
  match_word_number s = Some (n, num) ->
  num <> [] /\ forallb isdecimal num = true.
Proof.
  unfold match_word_number.
  destruct (word_at _ s) as [w|]; [|discriminate].
  destruct (span isspace _) as [ws r2].
  destruct ws as [|x ws]; [discriminate|].
  destruct (span isdecimal r2) as [digits r3] eqn:E.
  destruct digits as [|d ds]; [discriminate|].
  intros H. inversion H; subst. split; [discriminate|].
  exact (span_forallb _ _ _ _ E).
Qed.

Lemma match_article_num s n num :
  match_article s = Some (n, num) ->
  num <> [] /\ forallb isdecimal num = true.
Proof.
  unfold match_article.
  destruct (match_number_dash_word s) as [[n' num']|] eqn:E.
  - intros H. inversion H; subst. exact (match_number_dash_word_num _ _ _ E).
  - apply match_word_number_num.
Qed.

Lemma finditer_go_num s : forall pos skip m,
  In m (finditer_go pos skip s) ->
  m_num m <> [] /\ forallb isdecimal (m_num m) = true.
Proof.
  induction s as [|c r IH]; intros pos skip m; simpl; [tauto|].
  destruct skip as [|k]; [|apply IH].
  destruct (match_article (c :: r)) as [[n num]|] eqn:E; [|apply IH].
  intros [<-|H]; [|exact (IH _ _ _ H)].
  simpl. exact (match_article_num _ _ _ E).
Qed.

Lemma articles_of_form t ms a :
  In a (articles_of t ms) ->
  (exists m, In m ms /\ a.1 = m_num m ++ py "-modda")
  /\ a.2 <> [] /\ stripped a.2 = true /\ len a.2 <= len t.
Proof.
  induction ms as [|m rest IH]; simpl; [tauto|].
  intros H. apply in_app_or in H as [H|H].
  - destruct (nonempty (strip _)) eqn:En; [|destruct H].
    destruct H as [<-|[]]. simpl.
    split; [exists m; auto|].
    split; [intros Hn; rewrite Hn in En; discriminate|].
    split; [apply stripped_strip|].
    unfold len. apply inj_le. etransitivity; [apply length_strip | apply length_slice].
  - destruct (IH H) as ((m' & Hm' & Hl) & Hrest).
    split; [exists m'; auto | exact Hrest].
Qed.

End ArticleForm.

(** X7.  The articles [_split_by_articles] returns.  Without any
    article marker in the text there is one, labelled ["general"],
    holding the text as given.  Otherwise each article is labelled
    ["preamble"], or by the digits of its marker followed by
    ["-modda"] whichever way the marker was written, and it is only
    when the first marker starts after more than [MIN_CHUNK_SIZE]
    characters that a preamble is returned; the text of an article is
    never empty, has no white space at either end and is no longer than
    the text split. *)
Theorem split_by_articles_form (t : str) (a : str * str) :
  In a (_split_by_articles t) ->
  (finditer t = [] /\ a = (py "general", t))
  \/ ((a.1 = py "preamble"
         /\ (exists m rest, finditer t = m :: rest /\ MIN_CHUNK_SIZE < m_start m)
       \/ exists num, num <> [] /\ forallb isdecimal num = true
                      /\ a.1 = num ++ py "-modda")
      /\ a.2 <> [] /\ stripped a.2 = true /\ len a.2 <= len t).
Proof.
  unfold _split_by_articles.
  destruct (finditer t) as [|m0 rest] eqn:E.
  - intros [<-|[]]. left. split; reflexivity.
  - intros H. right.
    assert (Hart : In a (articles_of t (m0 :: rest)) ->
      (exists num, num <> [] /\ forallb isdecimal num = true
                   /\ a.1 = num ++ py "-modda")
      /\ a.2 <> [] /\ stripped a.2 = true /\ len a.2 <= len t).
    { intros Ha. apply articles_of_form in Ha as ((m & Hm & Hl) & Hrest).
      split; [|exact Hrest]. exists (m_num m).
      rewrite <- E in Hm. apply finditer_go_num in Hm as [H1 H2]. auto. }
    destruct (m_start m0 >? MIN_CHUNK_SIZE) eqn:Eg;
      [|destruct (Hart H) as [Hl Hr]; split; [right; exact Hl | exact Hr]].
    destruct (nonempty (strip (slice t 0 (m_start m0)))) eqn:En;
      [|destruct (Hart H) as [Hl Hr]; split; [right; exact Hl | exact Hr]].
    destruct H as [<-|H];
      [|destruct (Hart H) as [Hl Hr]; split; [right; exact Hl | exact Hr]].
    simpl. split; [left; split; [reflexivity|]|].
    + exists m0, rest. split; [reflexivity|]. apply Z.gtb_lt in Eg. lia.
    + split; [intros Hn; rewrite Hn in En; discriminate|].
      split; [apply stripped_strip|].
      unfold len. apply inj_le. etransitivity; [apply length_strip | apply length_slice].
Qed.

(** X7 (witness): a marker written ["Modda 7"] is labelled ["7-modda"]. *)
Lemma split_by_articles_form_witness :
  In (py "7-modda", py "Modda 7 soliq") (_split_by_articles (py "Modda 7 soliq "))
  /\ stripped (py "Modda 7 soliq") = true.
Proof.
  assert (H : In (py "7-modda", py "Modda 7 soliq")
                 (_split_by_articles (py "Modda 7 soliq ")))
    by (vm_compute; left; reflexivity).
  split; [exact H|].
  destruct (split_by_articles_form _ _ H) as [[Hf _]|[_ (_ & Hs & _)]];
    [vm_compute in Hf; discriminate | exact Hs].
Defined.

(** X8.  A document whose articles all fit the target size of 2048
    characters gives one chunk per article, in order, of type
    ["full_article"], and the text of the chunk before the overlap
    pass is the whole text of the article. *)
Theorem small_articles_one_chunk_each (t : str) (doc_id title : pyval)
    (md : option (gmap string pyval)) :
  let articles := _split_by_articles (_clean_text t) in
  blank t = false ->
  Forall (fun a => len a.2 <= TARGET_CHUNK_SIZE) articles ->
  List.map (fun c => (article c, chunk_type c, text c))
           (pre_overlap t doc_id title md)
  = List.map (fun a => (Some a.1, full_article, a.2)) articles
  /\ List.map (fun c => (article c, chunk_type c))
              (chunk_document t doc_id title md)
     = List.map (fun a => (Some a.1, full_article)) articles.
Proof.
  cbv zeta. intros Hb Hsmall.
  assert (Hpre : List.map (fun c => (article c, chunk_type c, text c))
                          (pre_overlap t doc_id title md)
                 = List.map (fun a => (Some a.1, full_article, a.2))
                            (_split_by_articles (_clean_text t))).
  { unfold pre_overlap. rewrite build_chunks_eq, number_triples.
    rewrite labelled_small by exact Hsmall. rewrite List.map_map. reflexivity. }
  split; [exact Hpre|].
  unfold chunk_document. rewrite Hb.
  rewrite (add_overlap_map (fun c => (article c, chunk_type c)))
    by reflexivity.
  apply (f_equal (List.map (fun x : option str * ChunkType * str => x.1))) in Hpre.
  rewrite !List.map_map in Hpre. exact Hpre.
Qed.

(** X8 (witness): three short articles, three chunks. *)
Lemma small_articles_one_chunk_each_witness :
  List.map (fun c => (article c, chunk_type c))
           (chunk_document three_article_doc (Some (py "DOC")) (Some []) None)
  = [(Some (py "1-modda"), full_article); (Some (py "2-modda"), full_article);
     (Some (py "3-modda"), full_article)].
Proof.
  pose proof (small_articles_one_chunk_each three_article_doc
                (Some (py "DOC")) (Some []) None) as H.
  cbv zeta in H. destruct H as [_ H].
  - reflexivity.
  - vm_compute. repeat constructor; discriminate.
  - rewrite H. vm_compute. reflexivity.
Defined.

Section Preamble.

Lemma finditer_go_lower s : forall pos skip m,
  In m (finditer_go pos skip s) -> pos <= m_start m.
Proof.
  induction s as [|c r IH]; intros pos skip m; simpl; [tauto|].
  destruct skip as [|k].
  - destruct (match_article (c :: r)) as [[n num]|].
    + intros [<-|H]; [simpl; lia|]. apply IH in H. lia.
    + intros H. apply IH in H. lia.
  - intros H. apply IH in H. lia.
Qed.

Lemma finditer_first_lowest t m rest m' :
  finditer t = m :: rest -> In m' (m :: rest) -> m_start m <= m_start m'.
Proof.
  unfold finditer. generalize 0 at 1. generalize 0%nat.
  induction t as [|c r IH]; intros skip pos; simpl; [discriminate|].
  destruct skip as [|k]; [|apply IH].
  destruct (match_article (c :: r)) as [[n num]|]; [|apply IH].
  intros [= <- <-] [<-|H]; [lia|].
  apply finditer_go_lower in H. simpl. lia.
Qed.

Lemma articles_of_slices t ms a :
  In a (articles_of t ms) ->
  exists m stop, In m ms /\ a.1 = m_num m ++ py "-modda"
                 /\ a.2 = strip (slice t (m_start m) stop).
Proof.
  induction ms as [|m rest IH]; simpl; [tauto|].
  intros H. apply in_app_or in H as [H|H].
  - destruct (nonempty (strip _)); [|destruct H].
    destruct H as [<-|[]]. eexists m, _. simpl. auto.
  - destruct (IH H) as (m' & stop & Hm & Hl & Ht). exists m', stop. auto.
Qed.

End Preamble.

(** X22.  A short preamble is dropped.  When the first article marker
    starts at most [MIN_CHUNK_SIZE] (200) characters into the text, no
    preamble is returned, and every article is cut from the text at
    the first marker or later: the characters before that marker are
    part of no article. *)
Theorem short_preamble_dropped (t : str) (m : ArticleMatch)
    (rest : list ArticleMatch) (a : str * str) :
  finditer t = m :: rest ->
  m_start m <= MIN_CHUNK_SIZE ->
  In a (_split_by_articles t) ->
  a.1 <> py "preamble"
  /\ exists i j, m_start m <= i /\ a.2 = strip (slice t i j).
Proof.
  intros Hf Hshort. unfold _split_by_articles. rewrite Hf.
  assert (Hg : (m_start m >? MIN_CHUNK_SIZE) = false)
    by (rewrite Z.gtb_ltb; apply Z.ltb_ge; exact Hshort).
  rewrite Hg. intros Ha.
  apply articles_of_slices in Ha as (m' & stop & Hm' & Hl & Ht).
  split.
  - rewrite Hl. rewrite <- Hf in Hm'. apply finditer_go_num in Hm' as [Hne Hdig].
    destruct (m_num m') as [|d ds]; [congruence|].
    simpl in Hdig. apply andb_prop in Hdig as [Hd _].
    intros [= Hp _]. subst d. vm_compute in Hd. discriminate.
  - exists (m_start m'), stop. split; [|exact Ht].
    exact (finditer_first_lowest t m rest m' Hf Hm').
Qed.

(** X22 (witness): the heading of a decree before its first article. *)
Lemma short_preamble_dropped_witness :
  _split_by_articles (py "PREZIDENT QARORI 1-modda. Jamg'arma tashkil etilsin.")
  = [(py "1-modda", py "1-modda. Jamg'arma tashkil etilsin.")]
  /\ exists i j,
       17 <= i
       /\ py "1-modda. Jamg'arma tashkil etilsin."
          = strip (slice (py "PREZIDENT QARORI 1-modda. Jamg'arma tashkil etilsin.") i j).
Proof.
  split; [vm_compute; reflexivity|].
  refine (proj2 (short_preamble_dropped
    (py "PREZIDENT QARORI 1-modda. Jamg'arma tashkil etilsin.")
    (mkMatch 17 24 (py "1")) []
    (py "1-modda", py "1-modda. Jamg'arma tashkil etilsin.") _ _ _)).
  - vm_compute. reflexivity.
  - vm_compute. discriminate.
  - vm_compute. left. reflexivity.
Defined.

(* ===================================================================== *)
(** ** Properties of the settings and of the job registry *)
(* ===================================================================== *)

Section CorsOrigins.

Lemma split_char_cons c x r :
  split_go [c] 0 (x :: r)
  = if (c =? x)%N then [] :: split_go [c] 0 r
    else match split_go [c] 0 r with
         | p :: ps => (x :: p) :: ps
         | [] => [[x]]
         end.
Proof.
  cbn [split_go startswith]. rewrite andb_true_r.
  destruct (c =? x)%N; reflexivity.
Qed.

Lemma split_char_length c s :
  length (split [c] s) = S (length (List.filter (N.eqb c) s)).
Proof.
  unfold split. induction s as [|x r IH]; [reflexivity|].
  rewrite split_char_cons. cbn [List.filter].
  destruct (c =? x)%N; [simpl; rewrite IH; reflexivity|].
  destruct (split_go [c] 0 r) as [|p ps] eqn:E;
    [exfalso; exact (split_go_nonnil _ _ _ E)|].
  simpl in *. exact IH.
Qed.

Lemma split_char_parts c s p : In p (split [c] s) -> ~ In c p.
Proof.
  unfold split. revert p. induction s as [|x r IH]; intros p.
  - simpl. intros [<-|[]] [].
  - rewrite split_char_cons. destruct (c =? x)%N eqn:Ex.
    + intros [<-|H]; [intros []|exact (IH _ H)].
    + destruct (split_go [c] 0 r) as [|q qs] eqn:E;
        [exfalso; exact (split_go_nonnil _ _ _ E)|].
      apply N.eqb_neq in Ex.
      intros [<-|H].
      * intros [Hx|Hq]; [congruence|].
        exact (IH q (or_introl eq_refl) Hq).
      * exact (IH p (or_intror H)).
Qed.

End CorsOrigins.

(** X20.  The list of CORS origins.  It has one origin more than the
    setting has commas, hence it is never empty: an empty setting gives
    one empty origin.  No origin contains a comma, nor white space at
    either end. *)
Theorem cors_origins_list_spec (cors_origins : str) :
  length (Config.cors_origins_list cors_origins)
  = S (length (List.filter (N.eqb 0x2C) cors_origins))
  /\ Forall (fun o => stripped o = true /\ ~ In 0x2C%N o)
            (Config.cors_origins_list cors_origins).
Proof.
  unfold Config.cors_origins_list. split.
  - rewrite List.length_map. apply (split_char_length 0x2C%N).
  - apply List.Forall_forall. intros o Ho.
    apply in_map_iff in Ho as (p & <- & Hp).
    split; [apply stripped_strip|].
    intros Hc. apply In_strip in Hc.
    exact (split_char_parts 0x2C%N _ _ Hp Hc).
Qed.

Section SingleFlight.
Import ScoutRouter.

Lemma trigger_jobs uuid4 sdf request s :
  _running_jobs (trigger_scout uuid4 sdf request s).2
  = if any_running (_running_jobs s) && negb (force_refresh request)
    then _running_jobs s
    else <[uuid4 := true]> (_running_jobs s).
Proof.
  unfold trigger_scout. destruct (_ && _); reflexivity.
Qed.

Lemma run_jobs attempt relevant job_id keywords date_filter s q :
  _running_jobs (run_scout_cycle attempt relevant job_id keywords date_filter
                   (s, q)).1.1
  = delete job_id (_running_jobs s).
Proof.
  unfold run_scout_cycle. cbn [fst snd].
  destruct (attempt _ _ _) as [q' [result|[| |]]]; reflexivity.
Qed.

Lemma single_flight_step s s' :
  router_step true s s' ->
  (forall j1 j2, _running_jobs s !! j1 = Some true ->
                 _running_jobs s !! j2 = Some true -> j1 = j2) ->
  forall j1 j2, _running_jobs s' !! j1 = Some true ->
                _running_jobs s' !! j2 = Some true -> j1 = j2.
Proof.
  intros Hstep Hinv. inversion Hstep as [uuid4 sdf request s0 Hf | ]; subst.
  - rewrite trigger_jobs, (Hf eq_refl). simpl. rewrite andb_true_r.
    destruct (any_running (_running_jobs s)) eqn:Er; [exact Hinv|].
    assert (Hnone : forall j, _running_jobs s !! j <> Some true).
    { intros j Hj.
      assert (any_running (_running_jobs s) = true)
        by (apply any_running_spec; eauto).
      congruence. }
    intros j1 j2 H1 H2.
    destruct (decide (j1 = uuid4)) as [->|N1];
      destruct (decide (j2 = uuid4)) as [->|N2]; try reflexivity.
    + rewrite lookup_insert_ne in H2 by congruence. destruct (Hnone _ H2).
    + rewrite lookup_insert_ne in H1 by congruence. destruct (Hnone _ H1).
    + rewrite lookup_insert_ne in H1 by congruence. destruct (Hnone _ H1).
  - rewrite run_jobs. intros j1 j2 H1 H2.
    apply lookup_delete_Some in H1 as [_ H1].
    apply lookup_delete_Some in H2 as [_ H2]. exact (Hinv _ _ H1 H2).
Qed.

End SingleFlight.

(** X21.  One job at a time.  Starting from an empty registry, and as
    long as no trigger sets [force_refresh], at most one job is marked
    running, whatever the triggers received and the runs that end in
    between.  A trigger with [force_refresh] goes past the check: it
    registers its job beside the one that is running. *)
Theorem single_flight (s : ScoutRouter.Server) :
  rtc (router_step true) (ScoutRouter.mkServer ∅ []) s ->
  (forall j1 j2,
     ScoutRouter._running_jobs s !! j1 = Some true ->
     ScoutRouter._running_jobs s !! j2 = Some true -> j1 = j2)
  /\ (forall j uuid4 scout_date_filter request,
        ScoutRouter._running_jobs s !! j = Some true -> uuid4 <> j ->
        ScoutRouter.force_refresh request = true ->
        let s' := (ScoutRouter.trigger_scout uuid4 scout_date_filter request s).2 in
        router_step false s s'
        /\ ScoutRouter._running_jobs s' !! j = Some true
        /\ ScoutRouter._running_jobs s' !! uuid4 = Some true).
Proof.
  intros Hreach. split.
  - assert (Hgen : forall a b, rtc (router_step true) a b ->
      (forall j1 j2, ScoutRouter._running_jobs a !! j1 = Some true ->
                     ScoutRouter._running_jobs a !! j2 = Some true -> j1 = j2) ->
      forall j1 j2, ScoutRouter._running_jobs b !! j1 = Some true ->
                    ScoutRouter._running_jobs b !! j2 = Some true -> j1 = j2).
    { intros a b H. induction H as [x|x y z Hxy Hyz IH]; intros Hinv; [exact Hinv|].
      apply IH. exact (single_flight_step _ _ Hxy Hinv). }
    apply (Hgen _ _ Hreach).
    intros j1 j2 H1. simpl in H1. rewrite lookup_empty in H1. discriminate.
  - intros j uuid4 sdf request Hj Hne Hf. cbv zeta.
    split; [constructor; discriminate|].
    rewrite trigger_jobs, Hf. simpl. rewrite andb_false_r.
    split; [rewrite lookup_insert_ne by congruence; exact Hj | apply lookup_insert_eq].
Qed.

(** X21 (witness): after the first trigger, no second job is running. *)
Lemma single_flight_witness :
  ScoutRouter._running_jobs
    (ScoutRouter.trigger_scout (py "job-1") (py "after:2025-01-01")
       (ScoutRouter.mkRequest None None false) (ScoutRouter.mkServer ∅ [])).2
    !! py "job-2" <> Some true.
Proof.
  intros H.
  assert (Hreach : rtc (router_step true) (ScoutRouter.mkServer ∅ [])
            (ScoutRouter.trigger_scout (py "job-1") (py "after:2025-01-01")
               (ScoutRouter.mkRequest None None false) (ScoutRouter.mkServer ∅ [])).2).
  { eapply rtc_l; [|apply rtc_refl].
    apply (step_trigger true (py "job-1") (py "after:2025-01-01")
             (ScoutRouter.mkRequest None None false) (ScoutRouter.mkServer ∅ [])).
    reflexivity. }
  pose proof (proj1 (single_flight _ Hreach) (py "job-1") (py "job-2") eq_refl H) as E.
  discriminate E.
Defined.

(* ===================================================================== *)
(** ** Properties of the chat endpoint *)
(* ===================================================================== *)

Section ChatFacts.
Import ChatEndpoint.

Lemma len_excerpt_of doc : len (excerpt_of doc) <= 303.
Proof.
  unfold excerpt_of. destruct (len doc >? 300) eqn:E.
  - rewrite len_app. change (len (py "...")) with 3.
    unfold slice, len. rewrite length_take. lia.
  - rewrite Z.gtb_ltb in E. apply Z.ltb_ge in E. lia.
Qed.

Lemma validate_inr s s' :
  validate s = inr s' ->
  s' = s /\ (0 <= relevance_score s)%Q /\ (relevance_score s <= 1)%Q.
Proof.
  unfold validate.
  destruct (Qle_bool 0 (relevance_score s)) eqn:E0; [|discriminate].
  destruct (Qle_bool (relevance_score s) 1) eqn:E1; [|discriminate].
  simpl. intros H. inversion H; subst.
  apply Qle_bool_iff in E0. apply Qle_bool_iff in E1. auto.
Qed.

Lemma source_of_inr results i doc s :
  source_of results i doc = inr s ->
  (0 <= relevance_score s)%Q /\ (relevance_score s <= 1)%Q
  /\ excerpt s = excerpt_of doc.
Proof.
  unfold source_of.
  destruct (match first_row (metadatas results) with
            | Some row => row !! i | None => Some ∅ end) as [m|]; [|discriminate].
  destruct (match first_row (distances results) with
            | Some row => row !! i | None => Some 1%Q end) as [d|]; [|discriminate].
  intros H. apply validate_inr in H as (-> & H0 & H1). simpl in *. auto.
Qed.

Lemma sources_from_inr results docs : forall k sources,
  sources_from results k docs = inr sources ->
  length sources = length docs
  /\ forall i s, sources !! i = Some s ->
       exists doc, docs !! i = Some doc
                   /\ source_of results (k + i) doc = inr s.
Proof.
  induction docs as [|doc rest IH]; intros k sources; simpl.
  - intros H. inversion H; subst. split; [reflexivity|]. intros i s Hi. discriminate.
  - destruct (source_of results k doc) as [e|s0] eqn:Es; [discriminate|].
    destruct (sources_from results (S k) rest) as [e|ss] eqn:Er; [discriminate|].
    intros H. inversion H; subst.
    destruct (IH _ _ Er) as [Hl Hi]. split; [simpl; lia|].
    intros [|i] s Hs.
    + simpl in Hs. inversion Hs; subst. exists doc.
      rewrite Nat.add_0_r. split; [reflexivity | exact Es].
    + simpl in Hs. destruct (Hi _ _ Hs) as (d & Hd & Hsrc).
      exists d. split; [exact Hd|].
      replace (k + S i)%nat with (S k + i)%nat by lia. exact Hsrc.
Qed.

Lemma sources_from_inl results docs : forall k i doc e,
  docs !! i = Some doc -> source_of results (k + i) doc = inl e ->
  exists e', sources_from results k docs = inl e'.
Proof.
  induction docs as [|d rest IH]; intros k i doc e Hd He; [discriminate|].
  simpl. destruct i as [|i].
  - simpl in Hd. inversion Hd; subst. rewrite Nat.add_0_r in He.
    rewrite He. eauto.
  - simpl in Hd. destruct (source_of results k d); [eauto|].
    replace (k + S i)%nat with (S k + i)%nat in He by lia.
    destruct (IH _ _ _ _ Hd He) as [e' ->]. eauto.
Qed.

Lemma score_above_one (d : Q) :
  (d <= - (1 # 1000))%Q -> Qle_bool (Chat.relevance_score d) 1 = false.
Proof.
  intros Hd. destruct (Qle_bool _ 1) eqn:E; [|reflexivity].
  apply Qle_bool_iff in E. exfalso.
  pose proof (relevance_score_negative_distance d Hd) as Hs.
  assert (Hb : (1 < PyFloat.fl (1001 # 1000))%Q) by (vm_compute; reflexivity).
  lra.
Qed.

End ChatFacts.

Section ChatEndpointProperties.
Import ChatEndpoint.

Variable Coll : Type.
Variable query : Coll -> str -> Z -> Raises QueryResult.
Variable uuid4 : str.
Variable import_groq : option str.
Variable groq_create : str -> str -> str -> str -> Raises pyval.
Variable import_genai : option str.
Variable gemini_generate : str -> str -> str -> Raises pyval.

Local Abbreviation chat_ :=
  (chat Coll query uuid4 import_groq groq_create import_genai gemini_generate).
Local Abbreviation provider_ :=
  (call_provider import_groq groq_create import_genai gemini_generate).

(** X9.  Every answer of the chat endpoint that is not an error lists
    one source per retrieved document, in order; the relevance score
    of each source lies between 0 and 1, and its excerpt is the
    document cut to 300 characters with an ellipsis, or the whole
    document when it is that short: at most 303 characters. *)
Theorem chat_sources_valid (request : ChatRequest) (settings : Settings)
    (collection : option Coll) (response : str)
    (sources : list DocumentSource) (cid : str) :
  chat_ request settings collection = ChatResponse response sources cid ->
  exists coll results,
    collection = Some coll
    /\ query coll (message request) (top_k_results settings) = Returns results
    /\ length sources = length (retrieved results)
    /\ forall i s, sources !! i = Some s ->
         (0 <= relevance_score s)%Q /\ (relevance_score s <= 1)%Q
         /\ len (excerpt s) <= 303
         /\ exists doc, retrieved results !! i = Some doc
                        /\ excerpt s = excerpt_of doc.
Proof.
  unfold chat. destruct collection as [coll|]; [|discriminate].
  unfold answer.
  destruct (query coll (message request) (top_k_results settings))
    as [results|e] eqn:Eq; [|discriminate].
  cbv zeta.
  destruct (sources_from results 0 (retrieved results)) as [e|ss] eqn:Es;
    [discriminate|].
  destruct (generate_llm_response _ _ _ _ _ _ _ _) as [text|]; [|discriminate].
  intros H. inversion H; subst.
  exists coll, results. split; [reflexivity|]. split; [exact Eq|].
  destruct (sources_from_inr _ _ _ _ Es) as [Hl Hi]. split; [exact Hl|].
  intros i s Hs. destruct (Hi _ _ Hs) as (doc & Hd & Hsrc).
  apply source_of_inr in Hsrc as (H0 & H1 & He).
  split; [exact H0|]. split; [exact H1|].
  split; [rewrite He; apply len_excerpt_of|].
  exists doc. auto.
Qed.

(** X10.  The score has no upper clamp of its own, and the response
    model rejects a score above 1: when the store returns, for one of
    the retrieved documents, a distance of -0.001 or less, the request
    fails with status 500, whatever the other documents and the
    language model. *)
Theorem chat_negative_distance_rejected (request : ChatRequest)
    (settings : Settings) (coll : Coll) (results : QueryResult)
    (row : list Q) (i : nat) (d : Q) :
  query coll (message request) (top_k_results settings) = Returns results ->
  first_row (distances results) = Some row ->
  row !! i = Some d ->
  (i < length (retrieved results))%nat ->
  (d <= - (1 # 1000))%Q ->
  exists detail, chat_ request settings (Some coll) = HTTPException 500 detail.
Proof.
  intros Hq Hrow Hd Hi Hneg. unfold chat, answer. rewrite Hq. cbv zeta.
  destruct (lookup_lt_is_Some_2 _ _ Hi) as [doc Hdoc].
  assert (Hsrc : exists e, source_of results (0 + i) doc = inl e).
  { unfold source_of. simpl.
    destruct (match first_row (metadatas results) with
              | Some row0 => row0 !! i | None => Some ∅ end) as [m|]; [|eauto].
    rewrite Hrow, Hd. unfold validate. simpl.
    rewrite (score_above_one d Hneg), andb_false_r. eauto. }
  destruct Hsrc as [e He].
  destruct (sources_from_inl _ _ _ _ _ _ Hdoc He) as [e' ->].
  eauto.
Qed.

(** X11.  A failure of the language model never fails the request.
    When the provider raises, the answer carries the apology text with
    the message of the exception, and the sources found; in
    particular with no API key configured.  The endpoint answers 503
    exactly when the collection is missing, and an error 500 has one of
    three causes: the query raised, a source could not be built
    (a row shorter than the documents, a score out of range), or the
    provider returned no text. *)
Theorem chat_llm_failure_absorbed (request : ChatRequest)
    (settings : Settings) (collection : option Coll) :
  (forall coll results sources e,
     collection = Some coll ->
     query coll (message request) (top_k_results settings) = Returns results ->
     sources_from results 0 (retrieved results) = inr sources ->
     provider_ (message request) (context_of (retrieved results))
               (business_info_of (business_context request)) settings
       = Raised e ->
     exists cid,
       chat_ request settings collection
       = ChatResponse (fallback_response e) sources cid)
  /\ (llm_provider settings = groq -> import_groq = None ->
      groq_api_key settings = [] ->
      forall question context business_info,
        provider_ question context business_info settings
        = Raised (py "Groq API key not configured"))
  /\ (forall code detail,
        chat_ request settings collection = HTTPException code detail ->
        (code = 503 /\ collection = None)
        \/ (code = 500 /\ exists coll,
              collection = Some coll
              /\ ((exists e, query coll (message request) (top_k_results settings)
                            = Raised e)
                  \/ (exists results e,
                        query coll (message request) (top_k_results settings)
                          = Returns results
                        /\ sources_from results 0 (retrieved results) = inl e)
                  \/ (exists results,
                        query coll (message request) (top_k_results settings)
                          = Returns results
                        /\ provider_ (message request)
                             (context_of (retrieved results))
                             (business_info_of (business_context request))
                             settings = Returns None)))).
Proof.
  split; [|split].
  - intros coll results sources e -> Hq Hs Hp.
    unfold chat, answer. rewrite Hq. cbv zeta. rewrite Hs.
    unfold generate_llm_response. rewrite Hp. eauto.
  - intros Hg Hi Hk question context business_info.
    unfold call_provider, _call_groq. rewrite Hg, Hi, Hk. reflexivity.
  - intros code detail. unfold chat.
    destruct collection as [coll|]; [|intros H; inversion H; auto].
    unfold answer.
    destruct (query coll (message request) (top_k_results settings))
      as [results|e] eqn:Eq.
    + cbv zeta.
      destruct (sources_from results 0 (retrieved results)) as [e|ss] eqn:Es.
      * intros H. inversion H; subst. right. split; [reflexivity|].
        exists coll. split; [reflexivity|]. right. left. eauto.
      * unfold generate_llm_response.
        destruct (call_provider _ _ _ _ _ _ _ _) as [[text|]|e] eqn:Ep;
          try discriminate.
        intros H. inversion H; subst. right. split; [reflexivity|].
        exists coll. split; [reflexivity|]. right. right. eauto.
    + intros H. inversion H; subst. right. split; [reflexivity|].
      exists coll. split; [reflexivity|]. left. eauto.
Qed.

End ChatEndpointProperties.

(** X9 (witness): one document at distance 1/4. *)
Lemma chat_sources_valid_witness :
  exists response sources cid,
    ChatEndpoint.chat unit (chat_query (1 # 4)) (py "c-1") None chat_groq None
      chat_gemini chat_request (chat_settings (py "key")) (Some tt)
    = ChatEndpoint.ChatResponse response sources cid
    /\ length sources = 1%nat.
Proof.
  eexists _, _, _. split; [vm_compute; reflexivity|].
  destruct (chat_sources_valid unit (chat_query (1 # 4)) (py "c-1") None chat_groq
              None chat_gemini chat_request (chat_settings (py "key")) (Some tt)
              _ _ _ ltac:(vm_compute; reflexivity))
    as (coll & results & _ & Hq & Hl & _).
  rewrite Hl. vm_compute in Hq. inversion Hq; subst. reflexivity.
Defined.

(** X10 (witness): one document at distance -1/2. *)
Lemma chat_negative_distance_rejected_witness :
  exists detail,
    ChatEndpoint.chat unit (chat_query (- (1 # 2))) (py "c-1") None chat_groq None
      chat_gemini chat_request (chat_settings (py "key")) (Some tt)
    = ChatEndpoint.HTTPException 500 detail.
Proof.
  apply (chat_negative_distance_rejected unit (chat_query (- (1 # 2))) (py "c-1")
           None chat_groq None chat_gemini chat_request (chat_settings (py "key"))
           tt (chat_result (- (1 # 2))) [- (1 # 2)]%Q 0%nat (- (1 # 2))%Q).
  - reflexivity.
  - reflexivity.
  - reflexivity.
  - simpl. lia.
  - vm_compute. discriminate.
Defined.

(** X11 (witness): no API key, and still an answer with its source. *)
Lemma chat_llm_failure_absorbed_witness :
  exists sources cid,
    ChatEndpoint.chat unit (chat_query (1 # 4)) (py "c-1") None chat_groq None
      chat_gemini chat_request (chat_settings []) (Some tt)
    = ChatEndpoint.ChatResponse
        (ChatEndpoint.fallback_response (py "Groq API key not configured"))
        sources cid
    /\ length sources = 1%nat.
Proof.
  destruct (chat_llm_failure_absorbed unit (chat_query (1 # 4)) (py "c-1") None
              chat_groq None chat_gemini chat_request (chat_settings []) (Some tt))
    as (Habs & Hkey & _).
  destruct (Habs tt (chat_result (1 # 4)) _ (py "Groq API key not configured")
              eq_refl eq_refl ltac:(vm_compute; reflexivity)
              (Hkey eq_refl eq_refl eq_refl _ _ _)) as [cid Hc].
  eexists _, cid. split; [exact Hc | reflexivity].
Defined.

(* ===================================================================== *)
(** ** Properties of the search of the scout agent *)
(* ===================================================================== *)

Section DecreeId.
Import ScoutSearch.

Lemma span_all p s : forallb p s = true -> span p s = (s, []).
Proof.
  induction s as [|c s IH]; [reflexivity|]. simpl. intros H.
  apply andb_prop in H as [Hc Hs]. rewrite Hc, (IH Hs). reflexivity.
Qed.

Lemma span_nil_head p s b : span p s = ([], b) -> b = s.
Proof.
  destruct s as [|c s]; simpl; [intros H; inversion H; reflexivity|].
  destruct (p c); [destruct (span p s); discriminate|].
  intros H. inversion H. reflexivity.
Qed.

Lemma decimal_plain c :
  isdecimal c = true ->
  upper c = c /\ (c =? 0x2013)%N = false /\ is_hyphen c = false
  /\ forall p, In p patterns -> is_letter p.1 c = false.
Proof.
  intros H.
  assert (Hne : forall k, isdecimal k = false -> (c =? k)%N = false).
  { intros k Hk. destruct (c =? k)%N eqn:E; [|reflexivity].
    apply N.eqb_eq in E. subst k. congruence. }
  assert (H70 := Hne 0x70%N eq_refl). assert (H71 := Hne 0x71%N eq_refl).
  assert (H64 := Hne 0x64%N eq_refl). assert (H43F := Hne 0x43F%N eq_refl).
  assert (H444 := Hne 0x444%N eq_refl). assert (H49B := Hne 0x49B%N eq_refl).
  assert (H2013 := Hne 0x2013%N eq_refl). assert (H2D := Hne 0x2D%N eq_refl).
  assert (H50 := Hne 0x50%N eq_refl). assert (H41F := Hne 0x41F%N eq_refl).
  split; [unfold upper; rewrite H70, H71, H64, H43F, H444, H49B; reflexivity|].
  split; [exact H2013|].
  split; [unfold is_hyphen; rewrite H2D, H2013; reflexivity|].
  intros p Hp. unfold patterns in Hp. simpl in Hp.
  repeat (destruct Hp as [<-|Hp];
          [unfold is_letter; simpl; rewrite ?H50, ?H70, ?H41F, ?H43F; reflexivity|]).
  destruct Hp.
Qed.

Lemma normalise_digits digits :
  forallb isdecimal digits = true -> normalise digits = digits.
Proof.
  unfold normalise. induction digits as [|d ds IH]; [reflexivity|]. simpl.
  intros H. apply andb_prop in H as [Hd Hds].
  destruct (decimal_plain d Hd) as (Hu & Hn & _).
  rewrite Hu, Hn. f_equal. exact (IH Hds).
Qed.

Lemma normalise_app a b : normalise (a ++ b) = normalise a ++ normalise b.
Proof. unfold normalise. rewrite !map_app. reflexivity. Qed.

Lemma normalise_letters p c1 c2 :
  In p patterns -> is_letter p.1 c1 = true -> is_letter p.2 c2 = true ->
  normalise [c1; c2] = [p.1.1; p.2.1].
Proof.
  intros Hp H1 H2. unfold patterns in Hp. simpl in Hp.
  unfold is_letter in H1, H2.
  apply orb_prop in H1. apply orb_prop in H2.
  repeat (destruct Hp as [<-|Hp];
          [simpl in H1, H2;
           destruct H1 as [H1|H1]; destruct H2 as [H2|H2];
           apply N.eqb_eq in H1; apply N.eqb_eq in H2; subst; reflexivity|]).
  destruct Hp.
Qed.

Lemma match_decree_form p s m :
  match_decree p s = Some m ->
  exists c1 c2 dash digits,
    is_letter p.1 c1 = true /\ is_letter p.2 c2 = true
    /\ (dash = [] \/ dash = [0x2D%N] \/ dash = [0x2013%N])
    /\ digits <> [] /\ forallb isdecimal digits = true
    /\ m = c1 :: c2 :: dash ++ digits.
Proof.
  unfold match_decree. destruct s as [|c1 [|c2 r]]; try discriminate.
  destruct (is_letter p.1 c1) eqn:E1; [|discriminate].
  destruct (is_letter p.2 c2) eqn:E2; [|discriminate]. simpl.
  assert (Hd : exists dash r1,
    (match r with
     | d :: r' => if is_hyphen d then ([d], r') else ([], r)
     | [] => ([], r)
     end) = (dash, r1)
    /\ (dash = [] \/ dash = [0x2D%N] \/ dash = [0x2013%N])).
  { destruct r as [|d r']; [eexists _, _; split; [reflexivity | auto]|].
    destruct (is_hyphen d) eqn:Eh; [|eexists _, _; split; [reflexivity | auto]].
    unfold is_hyphen in Eh. apply orb_prop in Eh as [Eh|Eh];
      apply N.eqb_eq in Eh; subst;
      (eexists _, _; split; [reflexivity | auto]). }
  destruct Hd as (dash & r1 & -> & Hdash).
  destruct (span isdecimal r1) as [digits rest] eqn:Es.
  destruct digits as [|d ds]; [discriminate|].
  intros H. inversion H; subst.
  exists c1, c2, dash, (d :: ds).
  split; [exact E1|]. split; [exact E2|]. split; [exact Hdash|].
  split; [discriminate|]. split; [exact (span_forallb _ _ _ _ Es) | reflexivity].
Qed.

Lemma search_decree_form p s m :
  search_decree p s = Some m -> exists s', match_decree p s' = Some m.
Proof.
  induction s as [|c s IH]; cbn [search_decree].
  - destruct (match_decree p []) eqn:E; [|discriminate].
    intros [= <-]. exists []. exact E.
  - destruct (match_decree p (c :: s)) as [m'|] eqn:E; [|exact IH].
    intros [= <-]. exists (c :: s). exact E.
Qed.

(** The identifiers in normal form: the upper-case letters of a
    pattern, a hyphen or nothing, and digits. *)
Lemma normalise_match p m :
  In p patterns -> (exists s, match_decree p s = Some m) ->
  exists dash digits,
    (dash = [] \/ dash = [0x2D%N])
    /\ digits <> [] /\ forallb isdecimal digits = true
    /\ normalise m = p.1.1 :: p.2.1 :: dash ++ digits.
Proof.
  intros Hp [s Hs].
  apply match_decree_form in Hs as (c1 & c2 & dash & digits & H1 & H2 & Hd & Hne & Hdig & ->).
  change (c1 :: c2 :: dash ++ digits) with ([c1; c2] ++ dash ++ digits).
  rewrite !normalise_app, (normalise_letters p c1 c2 Hp H1 H2),
    (normalise_digits _ Hdig).
  exists (normalise dash), digits. split; [|auto].
  destruct Hd as [->|[->| ->]]; auto.
Qed.

Lemma search_decree_none q s :
  Forall (fun c => is_letter q.1 c = false) s -> search_decree q s = None.
Proof.
  induction 1 as [|c s Hc Hs IH]; [reflexivity|].
  cbn [search_decree]. rewrite IH.
  unfold match_decree. destruct s as [|c' s']; [reflexivity|].
  rewrite Hc. reflexivity.
Qed.

Lemma search_decree_skip q c1 c2 s :
  is_letter q.1 c1 && is_letter q.2 c2 = false ->
  is_letter q.1 c2 = false ->
  Forall (fun c => is_letter q.1 c = false) s ->
  search_decree q (c1 :: c2 :: s) = None.
Proof.
  intros H1 H2 Hs.
  cbn [search_decree].
  assert (Hm : match_decree q (c1 :: c2 :: s) = None).
  { unfold match_decree. rewrite H1. reflexivity. }
  rewrite Hm.
  change (search_decree q (c2 :: s) = None).
  apply search_decree_none. constructor; assumption.
Qed.

Lemma search_decree_here p dash digits :
  (dash = [] \/ dash = [0x2D%N]) ->
  digits <> [] -> forallb isdecimal digits = true ->
  is_letter p.1 p.1.1 && is_letter p.2 p.2.1 = true ->
  search_decree p (p.1.1 :: p.2.1 :: dash ++ digits)
  = Some (p.1.1 :: p.2.1 :: dash ++ digits).
Proof.
  intros Hd Hne Hdig Hl.
  cbn [search_decree]. unfold match_decree. rewrite Hl.
  destruct digits as [|d ds]; [congruence|].
  destruct Hd as [->| ->].
  - cbn [app]. simpl in Hdig. apply andb_prop in Hdig as [Hd0 Hds].
    destruct (decimal_plain d Hd0) as (_ & _ & Hh & _).
    cbv iota. rewrite Hh.
    assert (Hs : span isdecimal (d :: ds) = (d :: ds, []))
      by (apply span_all; simpl; rewrite Hd0, Hds; reflexivity).
    rewrite Hs. reflexivity.
  - cbn [app]. change (is_hyphen 0x2D%N) with true. cbv iota.
    rewrite (span_all _ _ Hdig). reflexivity.
Qed.

Lemma tail_no_letter q dash digits :
  In q patterns -> (dash = [] \/ dash = [0x2D%N]) ->
  forallb isdecimal digits = true ->
  Forall (fun c => is_letter q.1 c = false) (dash ++ digits).
Proof.
  intros Hq Hd Hdig. apply Forall_app. split.
  - destruct Hd as [->| ->]; [constructor|].
    constructor; [|constructor].
    unfold patterns in Hq. simpl in Hq.
    repeat (destruct Hq as [<-|Hq]; [reflexivity|]). destruct Hq.
  - apply List.Forall_forall. intros c Hc.
    rewrite forallb_forall in Hdig.
    exact (proj2 (proj2 (proj2 (decimal_plain c (Hdig c Hc)))) q Hq).
Qed.

Lemma extract_normal_fixed p dash digits :
  In p patterns -> (dash = [] \/ dash = [0x2D%N]) ->
  digits <> [] -> forallb isdecimal digits = true ->
  _extract_decree_id (p.1.1 :: p.2.1 :: dash ++ digits)
  = Some (p.1.1 :: p.2.1 :: dash ++ digits).
Proof.
  intros Hp Hd Hne Hdig.
  assert (Hnorm : normalise (p.1.1 :: p.2.1 :: dash ++ digits)
                  = p.1.1 :: p.2.1 :: dash ++ digits).
  { change (p.1.1 :: p.2.1 :: dash ++ digits) with ([p.1.1; p.2.1] ++ dash ++ digits).
    rewrite !normalise_app, (normalise_digits _ Hdig).
    assert (Hl : normalise [p.1.1; p.2.1] = [p.1.1; p.2.1]).
    { unfold patterns in Hp. simpl in Hp.
      repeat (destruct Hp as [<-|Hp]; [reflexivity|]). destruct Hp. }
    rewrite Hl. destruct Hd as [->| ->]; reflexivity. }
  assert (Hskip : forall q, In q patterns ->
            is_letter q.1 p.1.1 && is_letter q.2 p.2.1 = false ->
            search_decree q (p.1.1 :: p.2.1 :: dash ++ digits) = None).
  { intros q Hq Hl. apply search_decree_skip; [exact Hl | |].
    - unfold patterns in Hp, Hq. simpl in Hp, Hq.
      repeat (destruct Hp as [<-|Hp];
              [repeat (destruct Hq as [<-|Hq]; [reflexivity|]); destruct Hq|]).
      destruct Hp.
    - apply tail_no_letter; assumption. }
  assert (Hhere : is_letter p.1 p.1.1 && is_letter p.2 p.2.1 = true ->
            search_decree p (p.1.1 :: p.2.1 :: dash ++ digits)
            = Some (p.1.1 :: p.2.1 :: dash ++ digits))
    by (apply search_decree_here; assumption).
  unfold _extract_decree_id.
  unfold patterns in Hp. simpl in Hp.
  destruct Hp as [<-|[<-|[<-|[<-|[]]]]]; unfold patterns; cbn [first_match];
    repeat (rewrite Hskip by (first [reflexivity | (simpl; tauto)]));
    rewrite Hhere by reflexivity; rewrite Hnorm; reflexivity.
Qed.

Lemma first_match_form ps text id :
  (forall p, In p ps -> In p patterns) ->
  first_match ps text = Some id ->
  exists p m, In p patterns /\ (exists s, match_decree p s = Some m)
              /\ id = normalise m.
Proof.
  induction ps as [|p rest IH]; intros Hin; simpl; [discriminate|].
  destruct (search_decree p text) as [m|] eqn:E.
  - intros H. inversion H; subst. exists p, m.
    split; [apply Hin; left; reflexivity|].
    split; [exact (search_decree_form _ _ _ E) | reflexivity].
  - apply IH. intros q Hq. apply Hin. right. exact Hq.
Qed.

End DecreeId.

(** X12.  The identifier [_extract_decree_id] returns is in normal
    form: the two upper-case letters of one of the four patterns (PQ,
    PD, and their Cyrillic counterparts), then a hyphen or nothing,
    then one decimal digit or more; a lower-case spelling and an en
    dash in the text do not show in it.  The function leaves such an
    identifier as it is. *)
Theorem extract_decree_id_normal (text id : str) :
  ScoutSearch._extract_decree_id text = Some id ->
  (exists p dash digits,
     In p ScoutSearch.patterns
     /\ (dash = [] \/ dash = py "-")
     /\ digits <> [] /\ forallb isdecimal digits = true
     /\ id = p.1.1 :: p.2.1 :: dash ++ digits)
  /\ ScoutSearch._extract_decree_id id = Some id.
Proof.
  intros H. unfold ScoutSearch._extract_decree_id in H.
  apply first_match_form in H as (p & m & Hp & Hm & ->); [|auto].
  destruct (normalise_match p m Hp Hm) as (dash & digits & Hd & Hne & Hdig & ->).
  split.
  - exists p, dash, digits. auto.
  - apply extract_normal_fixed; assumption.
Qed.

(** X12 (witness): a lower-case spelling with an en dash, in a URL. *)
Lemma extract_decree_id_normal_witness :
  ScoutSearch._extract_decree_id (py "https://lex.uz/docs/pq" ++ [0x2013%N] ++ py "60-son")
  = Some (py "PQ-60")
  /\ ScoutSearch._extract_decree_id (py "PQ-60") = Some (py "PQ-60").
Proof.
  assert (H : ScoutSearch._extract_decree_id
                (py "https://lex.uz/docs/pq" ++ [0x2013%N] ++ py "60-son")
              = Some (py "PQ-60")) by (vm_compute; reflexivity).
  split; [exact H|].
  exact (proj2 (extract_decree_id_normal _ _ H)).
Defined.

Section SearchFacts.
Import ScoutSearch.

Variable max_results : Z.
Variable ddgs_text : str -> Z -> option (list doc).






End SearchFacts.


(* ===================================================================== *)
(** ** Further properties of the scout cycle *)
(* ===================================================================== *)

Section CycleCounts.

Context {Coll : Type}.
Variable coll_get : Coll -> str -> option (list str).
Variable coll_add :
  Coll -> list str -> list (gmap string pyval) -> list str -> option Coll.
Variable search_lex_uz : nat -> str -> str -> list doc.
Variable llm_says_yes : nat -> str -> option bool.
Variable fetch : nat -> str -> option str.
Variable now : nat -> str.
Variable interp : Z -> Z -> nat -> nat -> Z.

Local Abbreviation istep := (ingest_step coll_add fetch now interp).
Local Abbreviation jstep := (judge_step coll_get llm_says_yes interp).
Local Abbreviation sstep := (search_step search_lex_uz interp).
Local Abbreviation cycle := (run_cycle coll_get coll_add search_lex_uz
                                       llm_says_yes fetch now interp).

Lemma ingest_step_count n (w : State Coll) cnt i d :
  cnt <= (istep n (w, cnt) (i, d)).2 <= cnt + 1.
Proof.
  unfold ingest_step. cbn [fst snd].
  destruct (_scrape_document fetch i _) as [[|a content]|]; cbn [snd]; try lia.
  destruct (store_chunks coll_add _ d _); [|cbn [snd]; lia].
  destruct (prefix_of _ 40); cbn [snd]; lia.
Qed.

Lemma ingest_fold_count n rel : forall k (w : State Coll) cnt,
  cnt <= (fold_left (istep n) (enumerate_from k rel) (w, cnt)).2 <= cnt + len rel.
Proof.
  induction rel as [|d rel IH]; intros k w cnt.
  - simpl. unfold len. simpl. lia.
  - rewrite enumerate_from_cons. cbn [fold_left].
    pose proof (ingest_step_count n w cnt k d) as Hs.
    destruct (istep n (w, cnt) (k, d)) as [w' cnt'] eqn:E. cbn [snd] in Hs.
    specialize (IH (S k) w' cnt').
    unfold len in *. simpl length. lia.
Qed.

Lemma judged_relevant_length (w : State Coll) k cands :
  (length (judged_relevant coll_get llm_says_yes w k cands) <= length cands)%nat.
Proof.
  unfold judged_relevant. rewrite List.length_map.
  etransitivity; [apply List.filter_length_le|].
  unfold enumerate_from. rewrite length_zip_with, length_seq. lia.
Qed.

(** X14.  The tally of a cycle.  [checked] counts the candidates left
    by the deduplication, already indexed or not; [ingested] is at most
    the number of candidates judged relevant, which is at most
    [checked], which is at most the number of search results. *)
Theorem cycle_tally_bounds (w : State Coll) (keywords : option (list str))
    (date_filter : str) :
  let found := found_by search_lex_uz keywords date_filter in
  let candidates := _deduplicate found in
  let relevant_docs := judged_relevant coll_get llm_says_yes w 0 candidates in
  let r := cycle w keywords date_filter in
  0 <= ingested r.2 <= len relevant_docs
  /\ len relevant_docs <= checked r.2
  /\ checked r.2 = len candidates
  /\ checked r.2 <= len found.
Proof.
  cbv zeta.
  destruct (run_cycle_spec coll_get coll_add search_lex_uz llm_says_yes fetch now
              interp w keywords date_filter) as (wj & _ & _ & Heq).
  cbv zeta in Heq. rewrite Heq. cbn [snd ingested checked].
  split; [|split; [|split]].
  - unfold ingest_stage, enumerate.
    pose proof (ingest_fold_count
      (length (judged_relevant coll_get llm_says_yes w 0
                 (_deduplicate (found_by search_lex_uz keywords date_filter))))
      (judged_relevant coll_get llm_says_yes w 0
         (_deduplicate (found_by search_lex_uz keywords date_filter))) 0 wj 0).
    lia.
  - unfold len. apply inj_le. apply judged_relevant_length.
  - reflexivity.
  - unfold len. apply inj_le. rewrite deduplicate_eq.
    apply sublist_length, first_occurrences_sublist.
Qed.

End CycleCounts.

Section CycleEvents.

Context {Coll : Type}.
Variable coll_get : Coll -> str -> option (list str).
Variable coll_add :
  Coll -> list str -> list (gmap string pyval) -> list str -> option Coll.
Variable search_lex_uz : nat -> str -> str -> list doc.
Variable llm_says_yes : nat -> str -> option bool.
Variable fetch : nat -> str -> option str.
Variable now : nat -> str.
Variable interp : Z -> Z -> nat -> nat -> Z.

(** What the events need of the three progress formulas of the cycle:
    [base + int(span * (i / n))] lies between [base] and [base + span]
    when [i < n]. *)
Hypothesis interp_steps : forall i n, (i < n)%nat ->
  5 <= interp 5 15 i n <= 20
  /\ 20 <= interp 20 50 i n <= 70
  /\ 70 <= interp 70 25 i n <= 95.

Local Abbreviation istep := (ingest_step coll_add fetch now interp).
Local Abbreviation jstep := (judge_step coll_get llm_says_yes interp).
Local Abbreviation sstep := (search_step search_lex_uz interp).
Local Abbreviation cycle := (run_cycle coll_get coll_add search_lex_uz
                                       llm_says_yes fetch now interp).
Local Abbreviation ok :=
  (fun e : Event => StatusStream.valid e = true /\ event_type e <> ev_complete).
Local Abbreviation in_range := (fun w : State Coll => 0 <= progress w <= 100).
Local Abbreviation extends :=
  (fun w w' : State Coll => exists evs, queue w' = queue w ++ evs /\ Forall ok evs).

Lemma extends_refl (w w' : State Coll) : queue w' = queue w -> extends w w'.
Proof. intros H. exists []. rewrite app_nil_r. split; [exact H | constructor]. Qed.

Lemma extends_trans (w1 w2 w3 : State Coll) :
  extends w1 w2 -> extends w2 w3 -> extends w1 w3.
Proof.
  intros (e1 & H1 & F1) (e2 & H2 & F2). exists (e1 ++ e2).
  split; [rewrite H2, H1, app_assoc; reflexivity | apply Forall_app; auto].
Qed.

Lemma extends_push (w : State Coll) ty msg id p :
  0 <= p <= 100 -> ty <> ev_complete ->
  extends w (_push_status w ty msg id p).
Proof.
  intros Hp Hty. exists [mkEvent ty msg id p]. split; [reflexivity|].
  constructor; [|constructor]. split; [|exact Hty].
  unfold StatusStream.valid. simpl.
  apply andb_true_intro. split; apply Z.leb_le; lia.
Qed.

Lemma search_fold_events date_filter n kws : forall k (w : State Coll) found,
  (k + length kws = n)%nat ->
  let r := fold_left (sstep date_filter n) (enumerate_from k kws) (w, found) in
  extends w r.1 /\ (kws <> [] \/ in_range w -> in_range r.1).
Proof.
  induction kws as [|kw kws IH]; intros k w found Hk; cbv zeta.
  - simpl. split; [apply extends_refl; reflexivity|]. intros [H|H]; [congruence | exact H].
  - rewrite enumerate_from_cons. cbn [fold_left].
    simpl in Hk.
    pose proof (proj1 (interp_steps k n ltac:(lia))) as Hp.
    set (st := sstep date_filter n (w, found) (k, kw)).
    assert (Hst : extends w st.1 /\ in_range st.1).
    { unfold st, search_step. cbn [fst snd]. split.
      - apply (extends_trans _ (set_progress w (interp 5 15 k n)));
          [apply extends_refl; reflexivity|].
        apply extends_push; [lia | discriminate].
      - simpl. lia. }
    destruct Hst as [He Hr].
    destruct (IH (S k) st.1 st.2 ltac:(lia)) as [He' Hr']. cbv zeta in He', Hr'.
    replace (st.1, st.2) with st in He', Hr' by (destruct st; reflexivity).
    split; [exact (extends_trans _ _ _ He He')|].
    intros _. apply Hr'. right. exact Hr.
Qed.

Lemma judge_step_events n (w : State Coll) rel i d :
  (i < Nat.max n 1)%nat -> in_range w ->
  extends w (jstep n (w, rel) (i, d)).1 /\ in_range (jstep n (w, rel) (i, d)).1.
Proof.
  intros Hi Hr. unfold judge_step. cbn [fst snd].
  destruct (_is_already_indexed coll_get _ _).
  - cbn [fst]. split; [apply extends_refl; reflexivity | exact Hr].
  - pose proof (proj1 (proj2 (interp_steps i (Nat.max n 1) Hi))) as Hp.
    destruct (prefix_of _ 45); [destruct (_judge_relevance llm_says_yes i _)|];
      cbn [fst]; (split; [|simpl; lia]);
      (eapply extends_trans; [|apply extends_push; [lia | discriminate]]);
      apply extends_refl; reflexivity.
Qed.

Lemma judge_fold_events n cands : forall k (w : State Coll) rel,
  (k + length cands <= Nat.max n 1)%nat -> in_range w ->
  let r := fold_left (jstep n) (enumerate_from k cands) (w, rel) in
  extends w r.1 /\ in_range r.1.
Proof.
  induction cands as [|d cands IH]; intros k w rel Hk Hr; cbv zeta.
  - simpl. split; [apply extends_refl; reflexivity | exact Hr].
  - rewrite enumerate_from_cons. cbn [fold_left]. simpl in Hk.
    destruct (judge_step_events n w rel k d ltac:(lia) Hr) as [He Hr1].
    destruct (jstep n (w, rel) (k, d)) as [w1 rel1]. cbn [fst] in He, Hr1.
    destruct (IH (S k) w1 rel1 ltac:(lia) Hr1) as [He' Hr']. cbv zeta in He', Hr'.
    split; [exact (extends_trans _ _ _ He He') | exact Hr'].
Qed.

Lemma ingest_step_events n (w : State Coll) cnt i d :
  (i < Nat.max n 1)%nat -> in_range w ->
  extends w (istep n (w, cnt) (i, d)).1 /\ in_range (istep n (w, cnt) (i, d)).1.
Proof.
  intros Hi Hr. unfold ingest_step. cbn [fst snd].
  pose proof (proj2 (proj2 (interp_steps i (Nat.max n 1) Hi))) as Hp.
  destruct (_scrape_document fetch i _) as [[|a content]|];
    try (cbn [fst]; split; [apply extends_refl; reflexivity | exact Hr]).
  destruct (store_chunks coll_add _ d _) as [w'|] eqn:Es.
  - apply store_chunks_calls in Es as (Hq & Hp' & _).
    destruct (prefix_of _ 40); cbn [fst]; (split; [|simpl; lia]);
      (eapply extends_trans; [|apply extends_push; [lia | discriminate]]);
      apply extends_refl; simpl; exact Hq.
  - cbn [fst]. split; [|exact Hr].
    eapply extends_trans; [|apply extends_push; [exact Hr | discriminate]].
    apply extends_refl; reflexivity.
Qed.

Lemma ingest_fold_events n rel : forall k (w : State Coll) cnt,
  (k + length rel <= Nat.max n 1)%nat -> in_range w ->
  let r := fold_left (istep n) (enumerate_from k rel) (w, cnt) in
  extends w r.1 /\ in_range r.1.
Proof.
  induction rel as [|d rel IH]; intros k w cnt Hk Hr; cbv zeta.
  - simpl. split; [apply extends_refl; reflexivity | exact Hr].
  - rewrite enumerate_from_cons. cbn [fold_left]. simpl in Hk.
    destruct (ingest_step_events n w cnt k d ltac:(lia) Hr) as [He Hr1].
    destruct (istep n (w, cnt) (k, d)) as [w1 cnt1]. cbn [fst] in He, Hr1.
    destruct (IH (S k) w1 cnt1 ltac:(lia) Hr1) as [He' Hr']. cbv zeta in He', Hr'.
    split; [exact (extends_trans _ _ _ He He') | exact Hr'].
Qed.

Lemma search_keywords_nonnil keywords : search_keywords_of keywords <> [].
Proof. destruct keywords as [[|k ks]|]; discriminate. Qed.

Lemma cycle_queue (w : State Coll) (keywords : option (list str))
    (date_filter : str) :
  exists evs,
    queue (cycle w keywords date_filter).1
    = queue w ++ mkEvent ev_search MsgSearchStarted None 5 :: evs
    /\ Forall ok evs.
Proof.
  rewrite run_cycle_eq. cbv zeta. cbn [fst].
  set (w0 := _push_status w ev_search MsgSearchStarted None 5).
  assert (Hs : extends w0 (search_stage search_lex_uz interp w keywords date_filter).1
               /\ in_range (search_stage search_lex_uz interp w keywords date_filter).1).
  { unfold search_stage. cbv zeta. fold w0. unfold enumerate.
    destruct (search_fold_events date_filter (length (search_keywords_of keywords))
                (search_keywords_of keywords) 0 w0 [] eq_refl) as [He Hr].
    cbv zeta in He, Hr. split; [exact He|].
    apply Hr. left. apply search_keywords_nonnil. }
  destruct Hs as [Hs Hrs].
  set (s := search_stage search_lex_uz interp w keywords date_filter) in *.
  set (cands := _deduplicate s.2).
  set (w1 := _push_status s.1 ev_search (MsgUnique (length cands)) None 20).
  assert (H1 : extends s.1 w1) by (apply extends_push; [lia | discriminate]).
  assert (Hr1 : in_range w1) by exact Hrs.
  destruct (judge_fold_events (length cands) cands 0 w1 [] ltac:(lia) Hr1) as [Hj Hrj].
  cbv zeta in Hj, Hrj. fold (enumerate cands) in Hj, Hrj.
  fold (judge_stage coll_get llm_says_yes interp w1 cands) in Hj, Hrj.
  set (j := judge_stage coll_get llm_says_yes interp w1 cands) in *.
  destruct (ingest_fold_events (length j.2) j.2 0 j.1 0 ltac:(lia) Hrj) as [Hi _].
  cbv zeta in Hi. fold (enumerate j.2) in Hi.
  fold (ingest_stage coll_add fetch now interp j.1 j.2) in Hi.
  destruct (extends_trans _ _ _ Hs (extends_trans _ _ _ H1 (extends_trans _ _ _ Hj Hi)))
    as (evs & Hq & Hok).
  exists evs. split; [|exact Hok].
  rewrite Hq. unfold w0. simpl. rewrite <- app_assoc. reflexivity.
Qed.


End CycleEvents.

Section CycleEventsValid.

Context {Coll : Type}.
Variable coll_get : Coll -> str -> option (list str).
Variable coll_add :
  Coll -> list str -> list (gmap string pyval) -> list str -> option Coll.
Variable search_lex_uz : nat -> str -> str -> list doc.
Variable llm_says_yes : nat -> str -> option bool.
Variable fetch : nat -> str -> option str.
Variable now : nat -> str.
Variable interp : Z -> Z -> nat -> nat -> Z.

(** What the progress formulas guarantee: [base + int(span * (i / n))]
    lies between [base] and [base + span] when [i < n]. *)
Hypothesis interp_range : forall base span i n,
  0 <= span -> (i < n)%nat -> base <= interp base span i n <= base + span.

Local Abbreviation cycle := (run_cycle coll_get coll_add search_lex_uz
                                       llm_says_yes fetch now interp).

(** X15.  The events of a cycle.  The cycle only appends to the status
    queue; the first event it appends announces the search with
    progress 5; none of its events is a ["complete"] event, and the
    progress of every one of them lies between 0 and 100, so that the
    status stream accepts them all. *)
Theorem cycle_events_valid (w : State Coll) (keywords : option (list str))
    (date_filter : str) :
  exists evs,
    queue (cycle w keywords date_filter).1
    = queue w ++ mkEvent ev_search MsgSearchStarted None 5 :: evs
    /\ Forall (fun e => StatusStream.valid e = true
                        /\ event_type e <> ev_complete) evs.
Proof.
  apply cycle_queue. intros i n Hi.
  pose proof (interp_range 5 15 i n ltac:(lia) Hi).
  pose proof (interp_range 20 50 i n ltac:(lia) Hi).
  pose proof (interp_range 70 25 i n ltac:(lia) Hi).
  lia.
Qed.

End CycleEventsValid.

(** X15 (witness): a cycle with one keyword and one candidate. *)
Lemma cycle_events_valid_witness :
  exists evs,
    queue (run_cycle demo_get demo_add demo_search demo_llm demo_fetch demo_now
             demo_interp demo_state (Some [py "subsidiya"]) (py "after:2025-01-01")).1
    = mkEvent ev_search MsgSearchStarted None 5 :: evs
    /\ Forall (fun e => StatusStream.valid e = true
                        /\ event_type e <> ev_complete) evs.
Proof.
  apply (cycle_events_valid demo_get demo_add demo_search demo_llm demo_fetch
           demo_now demo_interp).
  intros base span i n Hs _. unfold demo_interp. lia.
Defined.

Section ChunkIds.

Lemma py_inj s1 s2 : py s1 = py s2 -> s1 = s2.
Proof.
  unfold py. intros H.
  assert (Hl : list_ascii_of_string s1 = list_ascii_of_string s2).
  { revert H. generalize (list_ascii_of_string s1) (list_ascii_of_string s2).
    induction l as [|a l IH]; intros [|b l']; simpl; try discriminate; [reflexivity|].
    intros [= Hab Hl]. f_equal; [|exact (IH _ Hl)].
    rewrite <- (ascii_N_embedding a), <- (ascii_N_embedding b), Hab. reflexivity. }
  rewrite <- (string_of_list_ascii_of_string s1),
          <- (string_of_list_ascii_of_string s2), Hl. reflexivity.
Qed.

Lemma to_int_not_nil z :
  Z.to_int z <> Decimal.Pos Decimal.Nil /\ Z.to_int z <> Decimal.Neg Decimal.Nil.
Proof.
  destruct z as [|p|p]; simpl; split; try discriminate;
    intros [= H]; exact (DecimalPos.Unsigned.to_uint_nonnil p H).
Qed.

Lemma str_of_int_inj a b : str_of_int a = str_of_int b -> a = b.
Proof.
  unfold str_of_int. intros H. apply py_inj in H.
  apply (f_equal NilZero.int_of_string) in H.
  destruct (to_int_not_nil a) as [Ha1 Ha2]. destruct (to_int_not_nil b) as [Hb1 Hb2].
  rewrite !NilZero.isi in H by assumption.
  injection H as H. exact (DecimalZ.to_int_inj _ _ H).
Qed.

Lemma chunk_document_indices t doc_id title md :
  blank t = false ->
  chunk_document t doc_id title md <> []
  /\ List.map index (chunk_document t doc_id title md)
     = seqZ 0 (len (chunk_document t doc_id title md)).
Proof.
  intros Hb. unfold chunk_document. rewrite Hb. unfold pre_overlap.
  rewrite build_chunks_eq.
  set (segs := flat_map labelled (_split_by_articles (_clean_text t))).
  assert (Hne : segs <> [])
    by (apply flat_map_labelled_nonnil, split_by_articles_nonnil).
  split.
  - intros H. apply (f_equal (@length _)) in H.
    rewrite length_add_overlap, length_number in H.
    destruct segs; [congruence | discriminate].
  - rewrite (add_overlap_map index) by reflexivity.
    rewrite number_index. unfold len.
    rewrite length_add_overlap, length_number. reflexivity.
Qed.

End ChunkIds.

(** X16.  The identifiers under which the chunks of a document go to
    the store.  Within one document they are pairwise different.  They
    are built from the decree identifier of the candidate, and the
    fallback ["doc"] applies only to a candidate without the key: for
    one whose ["decree_id"] is [None], as the search leaves it when it
    finds no decree number, the identifiers are ["None_0"], ["None_1"],
    and so on, so that any two such documents send their first chunk
    under the same identifier ["None_0"]. *)
Theorem chunk_ids_distinct_within_document (now : nat -> str) (i : nat)
    (d : doc) (content : str) :
  NoDup (List.map (chunk_id d) (chunks_of now i d content))
  /\ (d !! "decree_id" = Some None -> blank content = false ->
      exists c, head (chunks_of now i d content) = Some c
                /\ chunk_id d c = py "None_0").
Proof.
  split.
  - destruct (blank content) eqn:Hb.
    + unfold chunks_of, chunk_legal_document, chunk_document. rewrite Hb. constructor.
    + destruct (chunk_document_indices content
                  (get d "decree_id" (Some (py "unknown"))) (get d "title" (Some []))
                  (Some (<["date_scraped" := Some (now i)]>
                           (<["source_url" := get d "url" None]> ∅))) Hb) as [_ Hidx].
      unfold chunks_of, chunk_legal_document.
      set (chunks := chunk_document _ _ _ _) in *.
      assert (Hmap : forall l,
                List.map (chunk_id d) l
                = (fun z => fmt (get d "decree_id" (Some (py "doc")))
                            ++ py "_" ++ str_of_int z) <$> (List.map index l)).
      { induction l as [|c l IH]; [reflexivity|].
        cbn [List.map]. rewrite IH. reflexivity. }
      rewrite Hmap, Hidx. apply NoDup_fmap_2; [|apply NoDup_seqZ].
      intros a b H. apply app_inv_head in H. apply app_inv_head in H.
      exact (str_of_int_inj _ _ H).
  - intros Hid Hb.
    destruct (chunk_document_indices content
                (get d "decree_id" (Some (py "unknown"))) (get d "title" (Some []))
                (Some (<["date_scraped" := Some (now i)]>
                         (<["source_url" := get d "url" None]> ∅))) Hb) as [Hne Hidx].
    unfold chunks_of, chunk_legal_document.
    set (chunks := chunk_document _ _ _ _) in *.
    destruct chunks as [|c rest]; [congruence|].
    exists c. split; [reflexivity|].
    unfold len in Hidx. simpl length in Hidx.
    rewrite seqZ_cons in Hidx by lia. simpl in Hidx. injection Hidx as Hc _.
    unfold chunk_id, get. rewrite Hid, Hc. reflexivity.
Qed.

(** X16 (witness): a candidate as the search builds it from a result
    without decree number. *)
Lemma chunk_ids_distinct_within_document_witness :
  exists c,
    head (chunks_of demo_now 0
            (demo_doc "https://lex.uz/docs/1" "Subsidiya")
            (py "1-modda. Matn.")) = Some c
    /\ chunk_id (demo_doc "https://lex.uz/docs/1" "Subsidiya") c
       = py "None_0".
Proof.
  apply (chunk_ids_distinct_within_document demo_now 0
           (demo_doc "https://lex.uz/docs/1" "Subsidiya")
           (py "1-modda. Matn.")).
  - vm_compute. reflexivity.
  - reflexivity.
Defined.

(* ===================================================================== *)
(** ** Properties of the status stream *)
(* ===================================================================== *)

Section Stream.
Import StatusStream.

Lemma event_generator_passes pre rest :
  forallb passes pre = true ->
  event_generator (pre ++ rest)
  = (List.map sse_of pre ++ (event_generator rest).1, (event_generator rest).2).
Proof.
  induction pre as [|[e|] pre IH]; intros H.
  - simpl. destruct (event_generator rest); reflexivity.
  - simpl in H. apply andb_prop in H as [He Hp]. apply andb_prop in He as [Hv Ht].
    apply negb_true_iff in Ht. cbn [app event_generator]. rewrite Hv, Ht, (IH Hp).
    reflexivity.
  - simpl in H. cbn [app event_generator]. rewrite (IH H). reflexivity.
Qed.

Lemma event_generator_queue q :
  forallb valid q = true ->
  event_generator (List.map Some q)
  = (List.map status_update (delivered q),
     if existsb terminal q then Closed else Waiting).
Proof.
  induction q as [|e q IH]; [reflexivity|]. simpl. intros H.
  apply andb_prop in H as [Hv Hq]. rewrite Hv.
  destruct (terminal e); [reflexivity|]. rewrite (IH Hq). reflexivity.
Qed.

Lemma delivered_app_terminal pre e post :
  forallb (fun x => negb (terminal x)) pre = true -> terminal e = true ->
  delivered (pre ++ e :: post) = pre ++ [e].
Proof.
  induction pre as [|x pre IH]; simpl; intros Hp He.
  - rewrite He. reflexivity.
  - apply andb_prop in Hp as [Hx Hp]. apply negb_true_iff in Hx. rewrite Hx.
    rewrite (IH Hp He). reflexivity.
Qed.

Lemma delivered_last q :
  existsb terminal q = true ->
  exists e, last (delivered q) = Some e /\ terminal e = true.
Proof.
  induction q as [|x q IH]; simpl; [discriminate|].
  destruct (terminal x) eqn:Ex.
  - intros _. exists x. auto.
  - simpl. intros H. destruct (IH H) as (e & Hl & He). exists e. split; [|exact He].
    destruct (delivered q) as [|y r] eqn:Ed; [discriminate|].
    exact Hl.
Qed.

Lemma existsb_terminal_split q :
  existsb terminal q = true ->
  exists pre e post, q = pre ++ e :: post
    /\ forallb (fun x => negb (terminal x)) pre = true /\ terminal e = true.
Proof.
  induction q as [|x q IH]; simpl; [discriminate|].
  destruct (terminal x) eqn:Ex.
  - intros _. exists [], x, q. auto.
  - simpl. intros H. destruct (IH H) as (pre & e & post & -> & Hp & He).
    exists (x :: pre), e, post. simpl. rewrite Ex. auto.
Qed.

End Stream.

(** X17.  The status stream.  Each wait of the generator gives one
    message, a heartbeat when the wait timed out and a status update
    when an event arrived, in the order of the waits, for as long as the
    events are accepted and are neither ["complete"] nor ["error"]; the
    generator is then still waiting.  It stops right after the first
    ["complete"] or ["error"] event, which it sends, and whatever the
    queue holds after that event is not sent.  An event whose progress
    is out of range makes it raise without sending the event. *)
Theorem event_generator_stops_at_terminal (pre post : list (option Event))
    (e : Event) :
  forallb StatusStream.passes pre = true ->
  StatusStream.event_generator pre
  = (List.map StatusStream.sse_of pre, StatusStream.Waiting)
  /\ (StatusStream.valid e = true -> StatusStream.terminal e = true ->
      StatusStream.event_generator (pre ++ Some e :: post)
      = (List.map StatusStream.sse_of pre ++ [StatusStream.status_update e],
         StatusStream.Closed))
  /\ (StatusStream.valid e = false ->
      StatusStream.event_generator (pre ++ Some e :: post)
      = (List.map StatusStream.sse_of pre, StatusStream.Failed)).
Proof.
  intros Hp. split; [|split].
  - pose proof (event_generator_passes pre [] Hp) as H.
    rewrite !app_nil_r in H. exact H.
  - intros Hv Ht. rewrite (event_generator_passes _ _ Hp).
    cbn [StatusStream.event_generator]. rewrite Hv, Ht. reflexivity.
  - intros Hv. rewrite (event_generator_passes _ _ Hp).
    cbn [StatusStream.event_generator]. rewrite Hv. simpl. rewrite app_nil_r.
    reflexivity.
Qed.

(** X17 (witness): a search event, a timeout, an error, a completion. *)
Lemma event_generator_stops_at_terminal_witness :
  StatusStream.event_generator
    [ Some (mkEvent ev_search MsgSearchStarted None 5); None;
      Some (mkEvent ev_error MsgJudgeError None 20);
      Some (mkEvent ev_complete (MsgComplete 0) None 100) ]
  = ([ StatusStream.status_update (mkEvent ev_search MsgSearchStarted None 5);
       StatusStream.heartbeat;
       StatusStream.status_update (mkEvent ev_error MsgJudgeError None 20) ],
     StatusStream.Closed).
Proof.
  exact (proj1 (proj2 (event_generator_stops_at_terminal
    [Some (mkEvent ev_search MsgSearchStarted None 5); None]
    [Some (mkEvent ev_complete (MsgComplete 0) None 100)]
    (mkEvent ev_error MsgJudgeError None 20) eq_refl)) eq_refl eq_refl).
Defined.

Section RunStream.
Import StatusStream ScoutRouter.

Variable attempt :
  list str -> str -> list Event -> list Event * (Scout.Tally + Raised).
Variable relevant : nat -> bool.

Lemma run_queue job_id keywords date_filter (s : Server) q0 :
  let kws := match keywords with
             | Some (k :: ks) => k :: ks
             | _ => default_keywords
             end in
  let a := attempt kws date_filter q0 in
  let r := run_scout_cycle attempt relevant job_id keywords date_filter (s, q0) in
  r.2 = None ->
  exists tail e,
    r.1.2 = a.1 ++ tail ++ [e]
    /\ forallb valid (tail ++ [e]) = true
    /\ forallb (fun x => negb (terminal x)) tail = true
    /\ terminal e = true.
Proof.
  cbv zeta. unfold run_scout_cycle. cbn [snd].
  destruct (attempt _ date_filter q0) as [q [result|[| |]]]; cbn [fst snd].
  - intros _. exists [], (mkEvent ev_complete (MsgComplete (Scout.ingested result)) None 100).
    repeat split.
  - intros _. unfold _demo_scout_events.
    exists [ mkEvent ev_search (MsgDemo 0) None 10;
             mkEvent ev_search (MsgDemo 1) None 25;
             mkEvent ev_judge (MsgDemoJudge (py "PQ-60") (relevant 0%nat))
                     (Some (py "PQ-60")) 30;
             mkEvent ev_judge (MsgDemoJudge (py "PD-50") (relevant 1%nat))
                     (Some (py "PD-50")) 50;
             mkEvent ev_judge (MsgDemoJudge (py "PQ-306") (relevant 2%nat))
                     (Some (py "PQ-306")) 70;
             mkEvent ev_ingest (MsgDemo 2) None 90 ],
           (mkEvent ev_complete (MsgDemo 3) None 100).
    repeat split.
  - intros _. exists [], (mkEvent ev_error MsgScoutError None 0). repeat split.
  - discriminate.
Qed.

End RunStream.

(** X18.  A run and the stream.  Whenever [run_scout_cycle] ends
    without an exception escaping it (the cycle returned, the agent could
    not be imported, or an [Exception] was caught), the last event it
    queues is a ["complete"] or an ["error"] event: a subscriber that
    receives the events of the run is sent status updates only, and the
    stream is closed.  The subscriber is sent every event of the run
    when the cycle itself queued no ["complete"] or ["error"] event;
    otherwise the stream is closed at the first such event, and the
    events after it, the final one among them, are not sent. *)
Theorem run_stream_closes
    (attempt : list str -> str -> list Event
               -> list Event * (Scout.Tally + ScoutRouter.Raised))
    (relevant : nat -> bool) (job_id : str) (keywords : option (list str))
    (date_filter : str) (s : ScoutRouter.Server) :
  let kws := match keywords with
             | Some (k :: ks) => k :: ks
             | _ => ScoutRouter.default_keywords
             end in
  let a := attempt kws date_filter [] in
  let r := ScoutRouter.run_scout_cycle attempt relevant job_id keywords
             date_filter (s, []) in
  r.2 = None ->
  forallb StatusStream.valid a.1 = true ->
  StatusStream.event_generator (List.map Some r.1.2)
  = (List.map StatusStream.status_update (StatusStream.delivered r.1.2),
     StatusStream.Closed)
  /\ (exists e, last (StatusStream.delivered r.1.2) = Some e
                /\ StatusStream.terminal e = true)
  /\ (forallb (fun x => negb (StatusStream.terminal x)) a.1 = true ->
      StatusStream.delivered r.1.2 = r.1.2)
  /\ (forall pre e post,
        a.1 = pre ++ e :: post ->
        forallb (fun x => negb (StatusStream.terminal x)) pre = true ->
        StatusStream.terminal e = true ->
        StatusStream.delivered r.1.2 = pre ++ [e]).
Proof.
  cbv zeta. intros Hprop Hvalid.
  destruct (run_queue attempt relevant job_id keywords date_filter s [] Hprop)
    as (tail & e & Hq & Hv & Ht & He).
  cbv zeta in Hq. rewrite Hq.
  assert (Hex : existsb StatusStream.terminal
                  ((attempt match keywords with
                            | Some (k :: ks) => k :: ks
                            | _ => ScoutRouter.default_keywords
                            end date_filter []).1 ++ tail ++ [e]) = true).
  { rewrite !existsb_app. simpl. rewrite He. rewrite !orb_true_r. reflexivity. }
  split; [|split; [|split]].
  - rewrite event_generator_queue, Hex; [reflexivity|].
    rewrite forallb_app, Hvalid, Hv. reflexivity.
  - apply delivered_last, Hex.
  - intros Hn. rewrite app_assoc. rewrite delivered_app_terminal; [| |exact He].
    + rewrite <- app_assoc. reflexivity.
    + rewrite forallb_app, Hn, Ht. reflexivity.
  - intros pre e' post Ha Hpre He'. rewrite Ha, <- app_assoc. simpl.
    apply delivered_app_terminal; assumption.
Qed.

(** X18 (witness): a cycle that queued an error before it returned. *)
Lemma run_stream_closes_witness :
  StatusStream.delivered
    (ScoutRouter.run_scout_cycle
       (fun _ _ q => (q ++ [ mkEvent ev_search MsgSearchStarted None 5;
                             mkEvent ev_error MsgJudgeError None 20;
                             mkEvent ev_ingest (MsgStored [] 1) None 70 ],
                      inl (Scout.mkTally 1 1)))
       (fun _ => true) (py "job") None (py "after:2025-01-01")
       (ScoutRouter.mkServer ∅ [], [])).1.2
  = [ mkEvent ev_search MsgSearchStarted None 5;
      mkEvent ev_error MsgJudgeError None 20 ].
Proof.
  pose proof (run_stream_closes
    (fun _ _ q => (q ++ [ mkEvent ev_search MsgSearchStarted None 5;
                          mkEvent ev_error MsgJudgeError None 20;
                          mkEvent ev_ingest (MsgStored [] 1) None 70 ],
                   inl (Scout.mkTally 1 1)))
    (fun _ => true) (py "job") None (py "after:2025-01-01")
    (ScoutRouter.mkServer ∅ []) eq_refl eq_refl) as (_ & _ & _ & H).
  exact (H [mkEvent ev_search MsgSearchStarted None 5]
           (mkEvent ev_error MsgJudgeError None 20)
           [mkEvent ev_ingest (MsgStored [] 1) None 70] eq_refl eq_refl eq_refl).
Defined.

Section AgentStream.
Import StatusStream.

Context {Coll : Type}.
Variable coll_get : Coll -> str -> option (list str).
Variable coll_add :
  Coll -> list str -> list (gmap string pyval) -> list str -> option Coll.
Variable search_lex_uz : nat -> str -> str -> list doc.
Variable llm_says_yes : nat -> str -> option bool.
Variable fetch : nat -> str -> option str.
Variable now : nat -> str.
Variable relevant : nat -> bool.

Lemma delivered_all a c :
  delivered (a ++ [c]) = a ++ [c] ->
  forallb (fun x => negb (terminal x)) a = true.
Proof.
  induction a as [|x a IH]; [reflexivity|]. simpl.
  destruct (terminal x).
  - intros [= H]. destruct a; discriminate.
  - intros [= H]. simpl. exact (IH H).
Qed.

(** X19.  The router running the agent, seen from the stream, the
    progress of the events being what the formulas of the code give in
    floating point.  The run queues the events of the cycle, the
    announcement of the search first, then one ["complete"] event that
    carries the number of documents the cycle ingested; no exception
    escapes.  The stream accepts every event and is closed; the
    subscriber is sent the ["complete"] event if and only if the cycle
    queued no ["error"] event: a single failure reported on the way (a
    judgment or an ingestion that raised) ends the stream before the
    result of the run. *)
Theorem agent_run_stream (collection : option Coll) (job_id : str)
    (keywords : option (list str)) (date_filter : str)
    (s : ScoutRouter.Server) :
  let kws := match keywords with
             | Some (k :: ks) => k :: ks
             | _ => ScoutRouter.default_keywords
             end in
  let c := run_cycle coll_get coll_add search_lex_uz llm_says_yes fetch now
             progress_of (mkState [] collection 0 []) (Some kws) date_filter in
  let r := ScoutRouter.run_scout_cycle
             (agent_attempt coll_get coll_add search_lex_uz llm_says_yes fetch
                            now progress_of collection)
             relevant job_id keywords date_filter (s, []) in
  r.2 = None
  /\ r.1.2 = queue c.1
              ++ [mkEvent ev_complete (MsgComplete (ingested c.2)) None 100]
  /\ (exists evs,
        queue c.1 = mkEvent ev_search MsgSearchStarted None 5 :: evs)
  /\ forallb valid r.1.2 = true
  /\ event_generator (List.map Some r.1.2)
     = (List.map status_update (delivered r.1.2), Closed)
  /\ (delivered r.1.2 = r.1.2
      <-> Forall (fun e => event_type e <> ev_error) (queue c.1)).
Proof.
  cbv zeta. unfold ScoutRouter.run_scout_cycle, agent_attempt. cbn [fst snd].
  set (kws := match keywords with
              | Some (k :: ks) => k :: ks
              | _ => ScoutRouter.default_keywords
              end).
  destruct (cycle_queue coll_get coll_add search_lex_uz llm_says_yes fetch now
              progress_of progress_of_steps
              (mkState [] collection 0 []) (Some kws) date_filter)
    as (evs & Hq & Hok).
  set (c := run_cycle coll_get coll_add search_lex_uz llm_says_yes fetch now
              progress_of (mkState [] collection 0 []) (Some kws) date_filter) in *.
  simpl in Hq.
  split; [reflexivity|]. split; [reflexivity|].
  split; [exists evs; exact Hq|].
  rewrite Hq.
  assert (Hvalid : forallb valid
            ((mkEvent ev_search MsgSearchStarted None 5 :: evs)
             ++ [mkEvent ev_complete (MsgComplete (ingested c.2)) None 100]) = true).
  { rewrite forallb_app. simpl. rewrite andb_true_r, forallb_forall.
    intros e He. rewrite List.Forall_forall in Hok. exact (proj1 (Hok e He)). }
  split; [exact Hvalid|]. split.
  - rewrite event_generator_queue by exact Hvalid.
    rewrite existsb_app. simpl. rewrite !orb_true_r. reflexivity.
  - split.
    + intros H. apply delivered_all in H.
      apply List.Forall_forall. intros e He Herr.
      rewrite forallb_forall in H. specialize (H e He).
      unfold terminal in H. rewrite Herr in H. discriminate.
    + intros H.
      change ((mkEvent ev_search MsgSearchStarted None 5 :: evs)
              ++ [mkEvent ev_complete (MsgComplete (ingested c.2)) None 100])
        with ((mkEvent ev_search MsgSearchStarted None 5 :: evs)
              ++ mkEvent ev_complete (MsgComplete (ingested c.2)) None 100 :: []).
      apply delivered_app_terminal; [|reflexivity].
      apply forallb_forall. intros e He.
      rewrite List.Forall_forall in H.
      specialize (H e He).
      assert (Hc : event_type e <> ev_complete).
      { destruct He as [<-|He]; [discriminate|].
        rewrite List.Forall_forall in Hok. exact (proj2 (Hok e He)). }
      unfold terminal. destruct (event_type e); try reflexivity; congruence.
Qed.

End AgentStream.

(** X19 (example): a run over three keywords that find one candidate,
    with a store; the document is ingested and the stream delivers the
    events of the cycle and the result. *)
Lemma agent_run_stream_witness :
  let r := ScoutRouter.run_scout_cycle
             (agent_attempt demo_get demo_add demo_search demo_llm demo_fetch
                            demo_now progress_of (Some 0%nat))
             (fun _ => true) (py "job")
             (Some [py "subsidiya"; py "grant"; py "kredit"])
             (py "after:2025-01-01") (ScoutRouter.mkServer ∅ [], []) in
  List.map (fun e => (event_type e, ev_progress e)) r.1.2
  = [(ev_search, 5); (ev_search, 5); (ev_search, 10); (ev_search, 15);
     (ev_search, 20); (ev_judge, 20); (ev_ingest, 70); (ev_complete, 100)]
  /\ last r.1.2 = Some (mkEvent ev_complete (MsgComplete 1) None 100)
  /\ StatusStream.delivered r.1.2 = r.1.2.
Proof.
  cbv zeta.
  destruct (agent_run_stream demo_get demo_add demo_search demo_llm demo_fetch
              demo_now (fun _ => true)
              (Some 0%nat) (py "job")
              (Some [py "subsidiya"; py "grant"; py "kredit"])
              (py "after:2025-01-01") (ScoutRouter.mkServer ∅ []))
    as (_ & _ & _ & _ & _ & Hd).
  cbv zeta in Hd.
  split; [vm_compute; reflexivity|].
  split; [vm_compute; reflexivity|].
  apply Hd. vm_compute. repeat constructor; discriminate.
Defined.
